(** * Wormhole Shadow: the remote-object protocol engine

    A shallow embedding of [base.ts] (the [WormHoleHandler] endpoint, the
    [WrapperHandler] proxy traps and [createShadow]), [helper.ts]
    ([ensureType], [isReferenceType]) and [worker-thread.ts] (the
    [Uint32Array] token counter and [send]), followed by the properties of
    the protocol.

    One endpoint is modelled.  Its own properties live in [Fields]; the
    object heap it shares with the invoked code lives in [Store]; the
    module-level tables of [base.ts] ([WrapperHandler.cache],
    [globalSolidObjects]) and what the endpoint has posted live next to them
    in [World].  Every method is a computation in the monad [M], which
    threads the [World] and ends in a returned value, a thrown value, or a
    suspension on a promise that has not settled yet.

    What the embedding takes as given:
    - one call of [onReceive] is one step: an [await] reads the state the
      promise has at that moment, and a dispatch that would have to wait
      is [Suspend]ed and not followed further;
    - the invoked code ([Reflect.get], [Reflect.apply], ...) is a parameter,
      the class [Host]; it works on the [Store] and does not call back
      into the endpoint;
    - the only thenables are promises and the proxies of this module;
    - [send] hands the message to the transport and does not fail;
    - numbers are integers, and the text of an error's [stack] is left
      out;
    - [Object.assign], with which [solid()] copies an object, is a
      parameter as well, the class [HostAssign];
    - the token counter is taken to be the endpoint's own: the peer
      thread, with which [worker-thread.ts] shares the cell, takes no token
      during the calls considered. *)

From stdpp Require Import base option list gmap strings.
From Stdlib Require Import ZArith.

Local Open Scope Z_scope.

(** ** Values *)

(** Object identity. *)
Abbreviation Ref := positive (only parsing).

(** Symbols: [Symbol.for(key)] is registered globally under its key, any
    other symbol is unique. *)
Inductive Sym :=
| SymFor (key : string)
| SymUnique (id : positive).

Global Instance Sym_eq_dec : EqDecision Sym.
Proof. solve_decision. Defined.

Global Instance Sym_countable : Countable Sym.
Proof.
  refine (inj_countable'
            (λ s, match s with SymFor k => inl k | SymUnique i => inr i end)
            (λ x, match x with inl k => SymFor k | inr i => SymUnique i end) _).
  by intros [].
Defined.

(** JavaScript values.  Numbers are the integers the protocol uses as
    tokens and keys; objects and functions are references. *)
Inductive Value :=
| VUndefined
| VNull
| VBoolean (b : bool)
| VNumber (n : Z)
| VBigInt (n : Z)
| VString (s : string)
| VSymbol (s : Sym)
| VObject (r : Ref)
| VFunction (r : Ref).

Global Instance Value_eq_dec : EqDecision Value.
Proof. solve_decision. Defined.

(** [typeof value] *)
Definition typeOf (v : Value) : string :=
  match v with
  | VUndefined => "undefined"
  | VNull => "object"
  | VBoolean _ => "boolean"
  | VNumber _ => "number"
  | VBigInt _ => "bigint"
  | VString _ => "string"
  | VSymbol _ => "symbol"
  | VObject _ => "object"
  | VFunction _ => "function"
  end.

(** helper.ts: [value && (typeof value === 'object' || typeof value === 'function')] *)
Definition isReferenceType (v : Value) : bool :=
  match v with
  | VObject _ | VFunction _ => true
  | _ => false
  end.

Definition refOf (v : Value) : option Ref :=
  match v with
  | VObject r | VFunction r => Some r
  | _ => None
  end.

(** A property key as the traps see it, and as a message carries it. *)
Inductive PropertyKey :=
| KString (s : string)
| KNumber (n : Z)
| KSymbol (s : Sym).

Inductive MKey :=
| MString (s : string)
| MNumber (n : Z).

Global Instance MKey_eq_dec : EqDecision MKey.
Proof. solve_decision. Defined.

(** ** Wire format *)

Inductive TokenKind := solid | shadow.

Global Instance TokenKind_eq_dec : EqDecision TokenKind.
Proof. solve_decision. Defined.

(** [PackedTypes]: a primitive passed as it is, or one of the tagged
    records. *)
Inductive Packed :=
| PRaw (v : Value)
| PToken (kind : TokenKind) (key : Z)
| PSymbol (key : MKey)
| PValue (v : Value)
| PError (name message stack : option string).

Global Instance Packed_eq_dec : EqDecision Packed.
Proof. solve_decision. Defined.

Inductive MessageTypes :=
| prepare
| assign
| delete_
| apply_
| construct
| resolve
| success
| failed.

Global Instance MessageTypes_eq_dec : EqDecision MessageTypes.
Proof. solve_decision. Defined.

(** A message sent between local and remote.  Absent optional numbers are
    [None]; an absent payload is the packed [undefined]. *)
Record Message := {
  type : MessageTypes;
  token : option Z;
  from : option Z;
  into : option Z;
  thisArg : Packed;
  args : option (list Packed);
  key : option MKey;
  isSymbol : bool;
  value : Packed;
  reason : Packed;
}.

Global Instance Message_eq_dec : EqDecision Message.
Proof. solve_decision. Defined.

Definition absent : Packed := PRaw VUndefined.

(** A message of one kind with nothing else in it, and the fields being
    filled in. *)
Definition message (t : MessageTypes) : Message :=
  {| type := t; token := None; from := None; into := None;
     thisArg := absent; args := None; key := None;
     isSymbol := false; value := absent; reason := absent |}.

Definition with_token (t : Z) (m : Message) : Message :=
  {| type := type m; token := Some t; from := from m; into := into m;
     thisArg := thisArg m; args := args m; key := key m;
     isSymbol := isSymbol m; value := value m; reason := reason m |}.

Definition with_from (x : Z) (m : Message) : Message :=
  {| type := type m; token := token m; from := Some x; into := into m;
     thisArg := thisArg m; args := args m; key := key m;
     isSymbol := isSymbol m; value := value m; reason := reason m |}.

Definition with_into (x : Z) (m : Message) : Message :=
  {| type := type m; token := token m; from := from m; into := Some x;
     thisArg := thisArg m; args := args m; key := key m;
     isSymbol := isSymbol m; value := value m; reason := reason m |}.

Definition with_thisArg (x : Packed) (m : Message) : Message :=
  {| type := type m; token := token m; from := from m; into := into m;
     thisArg := x; args := args m; key := key m;
     isSymbol := isSymbol m; value := value m; reason := reason m |}.

Definition with_args (x : list Packed) (m : Message) : Message :=
  {| type := type m; token := token m; from := from m; into := into m;
     thisArg := thisArg m; args := Some x; key := key m;
     isSymbol := isSymbol m; value := value m; reason := reason m |}.

Definition with_key (k : MKey) (sym : bool) (m : Message) : Message :=
  {| type := type m; token := token m; from := from m; into := into m;
     thisArg := thisArg m; args := args m; key := Some k;
     isSymbol := sym; value := value m; reason := reason m |}.

Definition with_value (x : Packed) (m : Message) : Message :=
  {| type := type m; token := token m; from := from m; into := into m;
     thisArg := thisArg m; args := args m; key := key m;
     isSymbol := isSymbol m; value := x; reason := reason m |}.

Definition with_reason (x : Packed) (m : Message) : Message :=
  {| type := type m; token := token m; from := from m; into := into m;
     thisArg := thisArg m; args := args m; key := key m;
     isSymbol := isSymbol m; value := value m; reason := x |}.

(** ** The heap shared with the invoked code *)

Record ErrorRec := {
  ename : option string;
  emessage : option string;
  estack : option string;
}.

(** A promise is pending, resolved with a value (fulfilled with it unless
    the value is itself a thenable), or rejected. *)
Inductive PromiseState :=
| Pending
| Resolved (v : Value)
| Rejected (e : Value).

Record Store (Heap : Type) := {
  nextRef : Ref;
  nextSym : positive;
  errors : gmap positive ErrorRec;
  promises : gmap positive PromiseState;
  boxed : gmap positive Value;
  heap : Heap;
}.
Arguments nextRef {Heap}.
Arguments nextSym {Heap}.
Arguments errors {Heap}.
Arguments promises {Heap}.
Arguments boxed {Heap}.
Arguments heap {Heap}.

(** How a call into the invoked code completes. *)
Inductive Completion :=
| Normal (v : Value)
| Abrupt (e : Value).

(** The [type] argument of [resolveLocal] and of [ensureType]:
    [boolean | string | NewableFunction], or absent. *)
Inductive Ctor :=
| CtorFunction
| CtorError
| CtorClass (c : Ref).

Inductive TypeArg :=
| TyUndefined
| TyBoolean (b : bool)
| TyString (s : string)
| TyConstructor (c : Ctor).

(** The invoked code and the object model, which the engine does not
    implement: the [Reflect] operations on ordinary objects and
    [instanceof] for constructors other than [Error]. *)
Class Host (Heap : Type) := {
  Reflect_get : Value → PropertyKey → Store Heap → Completion * Store Heap;
  Reflect_set : Value → PropertyKey → Value → Store Heap → Completion * Store Heap;
  Reflect_deleteProperty : Value → PropertyKey → Store Heap → Completion * Store Heap;
  Reflect_apply : Value → Value → list Value → Store Heap → Completion * Store Heap;
  Reflect_construct : Value → list Value → Store Heap → Completion * Store Heap;
  hostInstanceOf : Store Heap → Value → Ctor → bool;
  (** [Reflect.has(target, key)] and [Reflect.get(target, key)] on the
      function that every proxy wraps, for the keys other than [then]. *)
  targetHas : PropertyKey → bool;
  targetGet : PropertyKey → Value;
}.

(** [Object.assign(target, source)] reads the own enumerable properties of
    [source], getters included, and so is the invoked code's as well. *)
Class HostAssign (Heap : Type) := {
  Object_assign : Value → Value → Store Heap → Completion * Store Heap;
}.

(** ** The endpoint *)

(** [class WrapperHandler]: the token and the memoised promise.  A handler
    is one object, which [solid()] caches with a second proxy.  [identity]
    names the object, by the proxy that [createShadow] made it for, so that
    the cache, which holds handlers by value, keeps the copies of one
    handler in step. *)
Record WrapperHandler := {
  id : Z;
  resolvePromise : option Value;
  identity : Ref;
}.

(** What [onDispose] registers: the [revoke] of a proxy, or a function of
    the caller. *)
Inductive Callback :=
| CbRevoke (proxy : Ref)
| CbFunction (f : Value).

Global Instance Callback_eq_dec : EqDecision Callback.
Proof. solve_decision. Defined.

(** The channel the endpoint posts to. *)
Inductive Port := MessagePort.

(** The own properties of a [WorkerThreadHandler].  A [Resolver] is the
    settle pair of one promise and is named by that promise. *)
Record Fields := {
  resolvers : gmap Z Ref;
  solidObjects : gset positive;
  disposableCallbacks : list Callback;
  key2Obj : gmap Z Ref;
  obj2Key : gmap positive Z;
  key2Sym : gmap Z Sym;
  sym2Key : gmap Sym Z;
  counter : Z;
  port : Port;
}.

Record World (Heap : Type) := {
  this : option Fields;
  store : Store Heap;
  globalSolidObjects : gset positive;
  cache : gmap positive WrapperHandler;
  revoked : gset positive;
  outbox : list Message;
}.
Arguments this {Heap}.
Arguments store {Heap}.
Arguments globalSolidObjects {Heap}.
Arguments cache {Heap}.
Arguments revoked {Heap}.
Arguments outbox {Heap}.

(** ** The monad of endpoint methods *)

Inductive Outcome (A : Type) :=
| Ret (a : A)
| Throw (e : Value)
| Suspend.
Arguments Ret {A}.
Arguments Throw {A}.
Arguments Suspend {A}.

Definition with_resolvers (x : gmap Z Ref) (f : Fields) : Fields :=
  {| resolvers := x; solidObjects := solidObjects f;
     disposableCallbacks := disposableCallbacks f; key2Obj := key2Obj f;
     obj2Key := obj2Key f; key2Sym := key2Sym f; sym2Key := sym2Key f;
     counter := counter f; port := port f |}.

Definition with_solidObjects (x : gset positive) (f : Fields) : Fields :=
  {| resolvers := resolvers f; solidObjects := x;
     disposableCallbacks := disposableCallbacks f; key2Obj := key2Obj f;
     obj2Key := obj2Key f; key2Sym := key2Sym f; sym2Key := sym2Key f;
     counter := counter f; port := port f |}.

Definition with_disposableCallbacks (x : list Callback) (f : Fields) : Fields :=
  {| resolvers := resolvers f; solidObjects := solidObjects f;
     disposableCallbacks := x; key2Obj := key2Obj f;
     obj2Key := obj2Key f; key2Sym := key2Sym f; sym2Key := sym2Key f;
     counter := counter f; port := port f |}.

Definition with_key2Obj (x : gmap Z Ref) (f : Fields) : Fields :=
  {| resolvers := resolvers f; solidObjects := solidObjects f;
     disposableCallbacks := disposableCallbacks f; key2Obj := x;
     obj2Key := obj2Key f; key2Sym := key2Sym f; sym2Key := sym2Key f;
     counter := counter f; port := port f |}.

Definition with_obj2Key (x : gmap positive Z) (f : Fields) : Fields :=
  {| resolvers := resolvers f; solidObjects := solidObjects f;
     disposableCallbacks := disposableCallbacks f; key2Obj := key2Obj f;
     obj2Key := x; key2Sym := key2Sym f; sym2Key := sym2Key f;
     counter := counter f; port := port f |}.

Definition with_key2Sym (x : gmap Z Sym) (f : Fields) : Fields :=
  {| resolvers := resolvers f; solidObjects := solidObjects f;
     disposableCallbacks := disposableCallbacks f; key2Obj := key2Obj f;
     obj2Key := obj2Key f; key2Sym := x; sym2Key := sym2Key f;
     counter := counter f; port := port f |}.

Definition with_sym2Key (x : gmap Sym Z) (f : Fields) : Fields :=
  {| resolvers := resolvers f; solidObjects := solidObjects f;
     disposableCallbacks := disposableCallbacks f; key2Obj := key2Obj f;
     obj2Key := obj2Key f; key2Sym := key2Sym f; sym2Key := x;
     counter := counter f; port := port f |}.

Definition with_counter (x : Z) (f : Fields) : Fields :=
  {| resolvers := resolvers f; solidObjects := solidObjects f;
     disposableCallbacks := disposableCallbacks f; key2Obj := key2Obj f;
     obj2Key := obj2Key f; key2Sym := key2Sym f; sym2Key := sym2Key f;
     counter := x; port := port f |}.

Section Engine.
Context {Heap : Type} `{!Host Heap}.

Definition with_nextRef (x : Ref) (s : Store Heap) : Store Heap :=
  {| nextRef := x; nextSym := nextSym s; errors := errors s;
     promises := promises s; boxed := boxed s; heap := heap s |}.

Definition with_nextSym (x : positive) (s : Store Heap) : Store Heap :=
  {| nextRef := nextRef s; nextSym := x; errors := errors s;
     promises := promises s; boxed := boxed s; heap := heap s |}.

Definition with_errors (x : gmap positive ErrorRec) (s : Store Heap) : Store Heap :=
  {| nextRef := nextRef s; nextSym := nextSym s; errors := x;
     promises := promises s; boxed := boxed s; heap := heap s |}.

Definition with_promises (x : gmap positive PromiseState) (s : Store Heap) : Store Heap :=
  {| nextRef := nextRef s; nextSym := nextSym s; errors := errors s;
     promises := x; boxed := boxed s; heap := heap s |}.

Definition with_boxed (x : gmap positive Value) (s : Store Heap) : Store Heap :=
  {| nextRef := nextRef s; nextSym := nextSym s; errors := errors s;
     promises := promises s; boxed := x; heap := heap s |}.

Definition with_this (x : option Fields) (w : World Heap) : World Heap :=
  {| this := x; store := store w; globalSolidObjects := globalSolidObjects w;
     cache := cache w; revoked := revoked w; outbox := outbox w |}.

Definition with_store (x : Store Heap) (w : World Heap) : World Heap :=
  {| this := this w; store := x; globalSolidObjects := globalSolidObjects w;
     cache := cache w; revoked := revoked w; outbox := outbox w |}.

Definition with_cache (x : gmap positive WrapperHandler) (w : World Heap) : World Heap :=
  {| this := this w; store := store w; globalSolidObjects := globalSolidObjects w;
     cache := x; revoked := revoked w; outbox := outbox w |}.

Definition with_revoked (x : gset positive) (w : World Heap) : World Heap :=
  {| this := this w; store := store w; globalSolidObjects := globalSolidObjects w;
     cache := cache w; revoked := x; outbox := outbox w |}.

Definition with_outbox (x : list Message) (w : World Heap) : World Heap :=
  {| this := this w; store := store w; globalSolidObjects := globalSolidObjects w;
     cache := cache w; revoked := revoked w; outbox := x |}.

Definition M (A : Type) : Type := World Heap → Outcome A * World Heap.

Definition ret {A} (a : A) : M A := λ w, (Ret a, w).

Definition bind {A B} (c : M A) (k : A → M B) : M B :=
  λ w, match c w with
       | (Ret a, w') => k a w'
       | (Throw e, w') => (Throw e, w')
       | (Suspend, w') => (Suspend, w')
       end.

Definition throw {A} (e : Value) : M A := λ w, (Throw e, w).

(** [try { c } catch (e) { h e }]: a suspended body is not an exception. *)
Definition try_catch {A} (c : M A) (h : Value → M A) : M A :=
  λ w, match c w with
       | (Throw e, w') => h e w'
       | r => r
       end.

Local Notation "'let*' x ':=' c 'in' k" := (bind c (λ x, k))
  (at level 10, x binder, c at level 100, k at level 200).
Local Notation "c ;;; k" := (bind c (λ _, k))
  (at level 100, k at level 200, right associativity).

(** [new name(message)]: a fresh error object.  The text of [stack] is the
    engine's own and is left out. *)
Definition newError (name message : option string) (stack : option string) : M Value :=
  λ w, let s := store w in
       let r := nextRef s in
       (Ret (VObject r),
        with_store (with_nextRef (Pos.succ r)
                      (with_errors (<[r := {| ename := name; emessage := message; estack := stack |}]> (errors s)) s)) w).

Definition throwError {A} (name message : string) : M A :=
  let* e := newError (Some name) (Some message) None in throw e.

(** Reading an own property of the endpoint and using it: a [TypeError]
    once [dispose] has deleted the property. *)
Definition own {A} (proj : Fields → A) : M A :=
  λ w, match this w with
       | Some f => (Ret (proj f), w)
       | None => throwError "TypeError" "Cannot read properties of undefined" w
       end.

(** Updating the object an own property holds. *)
Definition update (upd : Fields → Fields) : M unit :=
  λ w, match this w with
       | Some f => (Ret tt, with_this (Some (upd f)) w)
       | None => throwError "TypeError" "Cannot read properties of undefined" w
       end.

(** A fresh object identity. *)
Definition alloc : M Ref :=
  λ w, let r := nextRef (store w) in
       (Ret r, with_store (with_nextRef (Pos.succ r) (store w)) w).

Definition getStore : M (Store Heap) := λ w, (Ret (store w), w).

(** A call into the invoked code. *)
Definition callHost (h : Store Heap → Completion * Store Heap) : M Value :=
  λ w, match h (store w) with
       | (Normal v, s) => (Ret v, with_store s w)
       | (Abrupt e, s) => (Throw e, with_store s w)
       end.

(** ** worker-thread.ts *)

(** [return ++this.counter[0]] on a [Uint32Array]: what is read from the
    cell is a [Uint32], [c mod 2^32]; the expression is worth the
    incremented number, [4294967296] after [4294967295], and only what is
    stored wraps. *)
Definition aquireToken : M Z :=
  let* c := own counter in
  let token_ := c mod 2 ^ 32 + 1 in
  update (with_counter (token_ mod 2 ^ 32));;;
  ret token_.

(** [return this.port.postMessage(data)] *)
Definition send (data : Message) : M unit :=
  own port;;;
  λ w, (Ret tt, with_outbox (outbox w ++ [data]) w).

Fixpoint mapM {A B} (f : A → M B) (l : list A) : M (list B) :=
  match l with
  | [] => ret []
  | a :: l' => let* b := f a in let* bs := mapM f l' in ret (b :: bs)
  end.

Fixpoint forEach {A} (f : A → M unit) (l : list A) : M unit :=
  match l with
  | [] => ret tt
  | a :: l' => f a;;; forEach f l'
  end.

(** ** helper.ts *)

(** [target instanceof type] *)
Definition instanceOf (s : Store Heap) (target : Value) (c : Ctor) : bool :=
  match c with
  | CtorError =>
      match refOf target with
      | Some r => bool_decide (is_Some (errors s !! r))
      | None => false
      end
  | _ => hostInstanceOf s target c
  end.

Definition ensureType (s : Store Heap) (target : Value) (type : TypeArg) : bool :=
  match type with
  | TyConstructor c => instanceOf s target c
  | TyString t => bool_decide (typeOf target = t)
  | TyUndefined | TyBoolean _ => false
  end.

(** [!type] is false for these. *)
Definition truthy (type : TypeArg) : bool :=
  match type with
  | TyUndefined => false
  | TyBoolean b => b
  | TyString t => negb (bool_decide (t = ""))
  | TyConstructor _ => true
  end.

(** ** Promises *)

Definition isPromise (s : Store Heap) (v : Value) : bool :=
  match v with
  | VObject r => bool_decide (is_Some (promises s !! r))
  | _ => false
  end.

(** [new Promise(...)], not settled yet. *)
Definition newPromise (st : PromiseState) : M Ref :=
  let* r := alloc in
  λ w, (Ret r, with_store (with_promises (<[r := st]> (promises (store w))) (store w)) w).

(** [Promise.resolve(obj)]: a promise is returned as it is. *)
Definition Promise_resolve (obj : Value) : M Ref :=
  let* s := getStore in
  match obj with
  | VObject r => if isPromise s obj then ret r else newPromise (Resolved obj)
  | _ => newPromise (Resolved obj)
  end.

(** One of the two functions of a settle pair; it does nothing on a promise
    that is settled already. *)
Definition settle (p : Ref) (st : PromiseState) : M unit :=
  λ w, match promises (store w) !! p with
       | Some Pending =>
           (Ret tt, with_store (with_promises (<[p := st]> (promises (store w))) (store w)) w)
       | _ => (Ret tt, w)
       end.

(** A proxy made by [WrapperHandler.resolve(true)] has a [then], and so has
    a promise. *)
Definition thenable (w : World Heap) (v : Value) : bool :=
  match refOf v with
  | Some r => bool_decide (is_Some (promises (store w) !! r))
              || bool_decide (is_Some (cache w !! r))
  | None => false
  end.

(** What [await] finds in a promise at this moment.  A promise resolved
    with a thenable follows it in later turns only. *)
Definition settled (w : World Heap) (p : Ref) : Outcome Value :=
  match promises (store w) !! p with
  | Some (Resolved v) => if thenable w v then Suspend else Ret v
  | Some (Rejected e) => Throw e
  | Some Pending | None => Suspend
  end.

(** [await promise] *)
Definition await (p : Ref) : M Value := λ w, (settled w p, w).

(** [await value] for a value of any kind. *)
Definition awaited (w : World Heap) (v : Value) : Outcome Value :=
  match v with
  | VObject r => if isPromise (store w) v then settled w r
                 else if thenable w v then Suspend else Ret v
  | _ => if thenable w v then Suspend else Ret v
  end.

Fixpoint firstThrow (os : list (Outcome Value)) : option Value :=
  match os with
  | [] => None
  | Throw e :: _ => Some e
  | _ :: os' => firstThrow os'
  end.

Fixpoint allRet (os : list (Outcome Value)) : option (list Value) :=
  match os with
  | [] => Some []
  | Ret v :: os' => match allRet os' with Some vs => Some (v :: vs) | None => None end
  | _ :: _ => None
  end.

(** [await Promise.all(values)]: rejected as soon as one entry is, and
    waiting as long as one is pending. *)
Definition Promise_all (vs : list Value) : M (list Value) :=
  λ w, let os := map (awaited w) vs in
       match firstThrow os with
       | Some e => (Throw e, w)
       | None => match allRet os with
                 | Some rs => (Ret rs, w)
                 | None => (Suspend, w)
                 end
       end.

(** ** class WrapperHandler: the static side *)

Definition WrapperHandler_isHandler (obj : Value) : M bool :=
  λ w, (Ret (isReferenceType obj
             && match refOf obj with
                | Some r => bool_decide (is_Some (cache w !! r))
                | None => false
                end), w).

Definition WrapperHandler_static_get (wrappedObj : Value) : M (option WrapperHandler) :=
  λ w, (Ret (if isReferenceType wrappedObj
             then refOf wrappedObj ≫= (cache w !!.)
             else None), w).

(** ** class WormHoleHandler *)

Definition onDispose (callback : Callback) : M unit :=
  let* cbs := own disposableCallbacks in
  if bool_decide (callback ∈ cbs) then ret tt
  else update (with_disposableCallbacks (cbs ++ [callback])).

(** [WrapperHandler.resolve(true)]: a fresh revocable proxy around a fresh
    function, entered in the cache, its [revoke] registered for disposal. *)
Definition WrapperHandler_resolve_shadow (self : WrapperHandler) : M Value :=
  let* proxy := alloc in
  (λ w, (Ret tt, with_cache (<[proxy := self]> (cache w)) w));;;
  onDispose (CbRevoke proxy);;;
  ret (VFunction proxy).

Definition createShadow (token_ : Z) : M Value :=
  let* s := getStore in
  WrapperHandler_resolve_shadow
    {| id := token_; resolvePromise := None; identity := nextRef s |}.

Definition sendAndWait (data : Message) : M Ref :=
  let* p := newPromise Pending in
  try_catch
    (let* token_ := aquireToken in
     let* rs := own resolvers in
     update (with_resolvers (<[token_ := p]> rs));;;
     send (with_token token_ data))
    (λ e, settle p (Rejected e));;;
  ret p.

Definition resolveRemote (token_ : Z) (shadowed : bool) : M Value :=
  if shadowed then createShadow token_
  else
    let* k2o := own key2Obj in
    match k2o !! token_ with
    | Some promise => ret (VObject promise)
    | None =>
        let* promise := sendAndWait (with_from token_ (message resolve)) in
        let* k2o' := own key2Obj in
        update (with_key2Obj (<[token_ := promise]> k2o'));;;
        ret (VObject promise)
    end.

(** [new Object(result)] *)
Definition box (result : Value) : M Value :=
  let* r := alloc in
  (λ w, (Ret tt, with_store (with_boxed (<[r := result]> (boxed (store w))) (store w)) w));;;
  ret (VObject r).

Definition resolveLocal (id_ : option Z) (type_ : TypeArg) : M Value :=
  let unknown : M Value :=
    if truthy type_ then throwError "ReferenceError" "Invalid Id"
    else ret VUndefined in
  match id_ with
  | None => unknown
  | Some i =>
      let* k2o := own key2Obj in
      match k2o !! i with
      | None => unknown
      | Some p =>
          let* result := await p in
          let* s := getStore in
          if negb (ensureType s result type_)
          then throwError "TypeError" "Invalid type"
          else if isReferenceType result then ret result else box result
      end
  end.

Definition storeLocal (id_ : option Z) (obj : Value) : M unit :=
  match id_ with
  | None => throwError "ReferenceError" "Invalid Id"
  | Some i =>
      let* k2o := own key2Obj in
      let* p := Promise_resolve obj in
      update (with_key2Obj (<[i := p]> k2o));;;
      match refOf obj with
      | Some r =>
          let* o2k := own obj2Key in
          update (with_obj2Key (<[r := i]> o2k))
      | None => ret tt
      end
  end.

Definition registerToken (obj : Value) (token_ : option Z) : M Z :=
  let* handler := WrapperHandler_static_get obj in
  match handler with
  | Some h => ret (id h)
  | None =>
      let* o2k := own obj2Key in
      match refOf obj ≫= (o2k !!.) with
      | Some i => ret i
      | None =>
          let* i := match token_ with
                    | None => aquireToken
                    | Some t => ret t
                    end in
          storeLocal (Some i) obj;;;
          ret i
      end
  end.

Definition setSolid (obj : Value) : M unit :=
  match refOf obj with
  | Some r =>
      let* so := own solidObjects in
      update (with_solidObjects ({[r]} ∪ so))
  | None => ret tt
  end.

Definition isSolid (obj : Value) : M bool :=
  match refOf obj with
  | Some r =>
      let* so := own solidObjects in
      λ w, (Ret (bool_decide (r ∈ so) || bool_decide (r ∈ globalSolidObjects w)), w)
  | None => ret false
  end.

Definition fromSymbol (sym : Sym) : M MKey :=
  match sym with
  | SymFor k => ret (MString k)
  | SymUnique _ =>
      let* s2k := own sym2Key in
      match s2k !! sym with
      | Some k => ret (MNumber k)
      | None =>
          let* k := aquireToken in
          let* k2s := own key2Sym in
          update (with_key2Sym (<[k := sym]> k2s));;;
          let* s2k' := own sym2Key in
          update (with_sym2Key (<[sym := k]> s2k'));;;
          ret (MNumber k)
      end
  end.

(** [Symbol(key)] *)
Definition newSymbol : M Sym :=
  λ w, let i := nextSym (store w) in
       (Ret (SymUnique i), with_store (with_nextSym (Pos.succ i) (store w)) w).

Definition toSymbol (k : MKey) : M Sym :=
  match k with
  | MString s => ret (SymFor s)
  | MNumber n =>
      let* k2s := own key2Sym in
      match k2s !! n with
      | Some sym => ret sym
      | None =>
          let* sym := newSymbol in
          let* k2s' := own key2Sym in
          update (with_key2Sym (<[n := sym]> k2s'));;;
          let* s2k := own sym2Key in
          update (with_sym2Key (<[sym := n]> s2k));;;
          ret sym
      end
  end.

Definition errorOf (s : Store Heap) (v : Value) : option ErrorRec :=
  refOf v ≫= (errors s !!.).

(** [byValue] is
    [clone || (this.isSolid(value) && !WrapperHandler.isHandler(value))]. *)
Definition pack (v : Value) (clone : bool) : M Packed :=
  match v with
  | VSymbol sym => let* k := fromSymbol sym in ret (PSymbol k)
  | VObject _ | VFunction _ =>
      let* s := getStore in
      match errorOf s v with
      | Some e => ret (PError (ename e) (emessage e) (estack e))
      | None =>
          let* byValue :=
            if clone then ret true
            else
              let* sol := isSolid v in
              if sol then let* h := WrapperHandler_isHandler v in ret (negb h)
              else ret false in
          if byValue : bool then ret (PValue v)
          else
            let* sol := isSolid v in
            let* k := registerToken v None in
            ret (PToken (if sol : bool then solid else shadow) k)
      end
  | _ => ret (PRaw v)
  end.

Definition unpack (v : Packed) : M Value :=
  match v with
  | PSymbol k => let* sym := toSymbol k in ret (VSymbol sym)
  | PValue x => ret x
  | PToken kind k => resolveRemote k (bool_decide (kind = shadow))
  | PError name message stack => newError name message stack
  | PRaw x => ret x
  end.

(** [handlers] marks the entries that [wait] leaves out; a hole of [wait]
    is [undefined] to [Promise.all]; what was awaited replaces the unpacked
    entry. *)
Definition unpackAll (src : list Packed) : M (list Value) :=
  let* src' := mapM unpack src in
  let* handlers := mapM WrapperHandler_isHandler src' in
  let wait := zip_with (λ (h : bool) x, if h then VUndefined else x) handlers src' in
  let* result := Promise_all wait in
  ret (zip_with (λ (h : bool) xr, if h then xr.1 else xr.2) handlers (zip src' result)).

Definition keyOf (k : MKey) : PropertyKey :=
  match k with
  | MString s => KString s
  | MNumber n => KNumber n
  end.

Definition resolveKey (data : Message) : M PropertyKey :=
  match key data with
  | None => throwError "TypeError" "Key is not defined."
  | Some k =>
      if isSymbol data then let* sym := toSymbol k in ret (KSymbol sym)
      else ret (keyOf k)
  end.

Definition popResolver (token_ : option Z) : M (option Ref) :=
  match token_ with
  | None => ret None
  | Some t =>
      let* rs := own resolvers in
      match rs !! t with
      | None => ret None
      | Some resolver =>
          let* rs' := own resolvers in
          update (with_resolvers (delete t rs'));;;
          ret (Some resolver)
      end
  end.

(** The [Reflect] operations refuse a target that is not an object, or not
    callable, before the invoked code runs. *)
Definition reflectGet (target : Value) (k : PropertyKey) : M Value :=
  if isReferenceType target then callHost (Reflect_get target k)
  else throwError "TypeError" "Reflect.get called on non-object".

Definition reflectSet (target : Value) (k : PropertyKey) (v : Value) : M Value :=
  if isReferenceType target then callHost (Reflect_set target k v)
  else throwError "TypeError" "Reflect.set called on non-object".

Definition reflectDeleteProperty (target : Value) (k : PropertyKey) : M Value :=
  if isReferenceType target then callHost (Reflect_deleteProperty target k)
  else throwError "TypeError" "Reflect.deleteProperty called on non-object".

Definition reflectApply (target thisArg_ : Value) (args_ : list Value) : M Value :=
  if bool_decide (typeOf target = "function")
  then callHost (Reflect_apply target thisArg_ args_)
  else throwError "TypeError" "Function.prototype.apply was called on a non-function".

Definition reflectConstruct (target : Value) (args_ : list Value) : M Value :=
  if bool_decide (typeOf target = "function")
  then callHost (Reflect_construct target args_)
  else throwError "TypeError" "not a constructor".

(** The [switch] of [onReceive]: the value of the branch and the [clone]
    flag. *)
Definition onReceive_switch (data : Message) : M (Value * bool) :=
  match type data with
  | prepare =>
      let* from_ := resolveLocal (from data) TyUndefined in
      let* k := resolveKey data in
      let* v := reflectGet from_ k in
      ret (v, false)
  | assign =>
      let* from_ := resolveLocal (from data) TyUndefined in
      let* vs := unpackAll [value data] in
      let v := default VUndefined (head vs) in
      let* k := resolveKey data in
      reflectSet from_ k v;;;
      ret (v, false)
  | delete_ =>
      let* from_ := resolveLocal (from data) TyUndefined in
      let* k := resolveKey data in
      reflectDeleteProperty from_ k;;;
      ret (VUndefined, false)
  | apply_ =>
      let* from_ := resolveLocal (from data) (TyString "function") in
      match args data with
      | None => throwError "TypeError" "Arguments are not defined."
      | Some args_ =>
          let* vs := unpackAll (thisArg data :: args_) in
          let* v := reflectApply from_ (default VUndefined (head vs)) (tail vs) in
          ret (v, false)
      end
  | construct =>
      let* from_ := resolveLocal (from data) (TyConstructor CtorFunction) in
      match args data with
      | None => throwError "TypeError" "Arguments are not defined."
      | Some args_ =>
          let* vs := unpackAll args_ in
          let* v := reflectConstruct from_ vs in
          ret (v, false)
      end
  | resolve =>
      let* v := resolveLocal (from data) TyUndefined in
      ret (v, true)
  | success =>
      let* resolver := popResolver (token data) in
      match resolver with
      | Some p => let* v := unpack (value data) in settle p (Resolved v)
      | None => ret tt
      end;;;
      ret (VUndefined, false)
  | failed =>
      let* resolver := popResolver (token data) in
      match resolver with
      | Some p => let* e := unpack (reason data) in settle p (Rejected e)
      | None => ret tt
      end;;;
      ret (VUndefined, false)
  end.

(** The body of the [try] block. *)
Definition onReceive_try (data : Message) : M unit :=
  let* vc := onReceive_switch data in
  match into data with
  | Some i => storeLocal (Some i) vc.1
  | None => ret tt
  end;;;
  match token data with
  | Some t =>
      let* packed := pack vc.1 vc.2 in
      send (with_value packed (with_token t (message success)))
  | None => ret tt
  end.

(** The [catch] block. *)
Definition onReceive_catch (data : Message) (e : Value) : M unit :=
  match token data with
  | Some t =>
      let* packed := pack e false in
      send (with_reason packed (with_token t (message failed)))
  | None => ret tt
  end.

Definition onReceive (data : Message) : M unit :=
  try_catch (onReceive_try data) (onReceive_catch data).

(** ** class WrapperHandler: the traps

    [self] is the handler of the proxy the trap is called through. *)

Definition messageKey (k : PropertyKey) : M (MKey * bool) :=
  match k with
  | KSymbol sym => let* k' := fromSymbol sym in ret (k', true)
  | KString s => ret (MString s, false)
  | KNumber n => ret (MNumber n, false)
  end.

Definition WrapperHandler_get (self : WrapperHandler) (k : PropertyKey) : M Value :=
  if targetHas k then ret (targetGet k)
  else
    let* into_ := aquireToken in
    let* ks := messageKey k in
    send (with_into into_ (with_key ks.1 ks.2 (with_from (id self) (message prepare))));;;
    resolveRemote into_ true.

Definition WrapperHandler_set (self : WrapperHandler) (k : PropertyKey) (v : Value) : M Value :=
  if targetHas k then ret (VBoolean false)
  else
    let* ks := messageKey k in
    let* packed := pack v false in
    send (with_value packed (with_key ks.1 ks.2 (with_from (id self) (message assign))));;;
    ret (VBoolean true).

Definition WrapperHandler_deleteProperty (self : WrapperHandler) (k : PropertyKey) : M Value :=
  if targetHas k then ret (VBoolean false)
  else
    let* ks := messageKey k in
    send (with_key ks.1 ks.2 (with_from (id self) (message delete_)));;;
    ret (VBoolean true).

Definition WrapperHandler_apply (self : WrapperHandler) (thisArg_ : Value) (args_ : list Value) : M Value :=
  let* into_ := aquireToken in
  let* packedThis := pack thisArg_ false in
  let* packedArgs := mapM (λ arg, pack arg false) args_ in
  send (with_into into_ (with_args packedArgs (with_thisArg packedThis
         (with_from (id self) (message apply_)))));;;
  resolveRemote into_ true.

Definition WrapperHandler_construct (self : WrapperHandler) (args_ : list Value) : M Value :=
  let* into_ := aquireToken in
  let* packedArgs := mapM (λ arg, pack arg false) args_ in
  send (with_into into_ (with_args packedArgs (with_from (id self) (message construct))));;;
  resolveRemote into_ true.

(** [this.resolvePromise = promise]: every proxy of the handler sees it. *)
Definition memoise (self : WrapperHandler) (promise : Value) : M unit :=
  λ w, (Ret tt,
        with_cache
          ((λ h, if bool_decide (identity h = identity self)
                 then {| id := id h; resolvePromise := Some promise;
                         identity := identity h |}
                 else h) <$> cache w) w).

(** [WrapperHandler.resolve()], memoised in the handler. *)
Definition WrapperHandler_resolve (self : WrapperHandler) : M Value :=
  match resolvePromise self with
  | Some promise => ret promise
  | None =>
      let* promise := resolveRemote (id self) false in
      memoise self promise;;;
      ret promise
  end.

(** An operation on a value: through the trap when the value is a proxy,
    which throws once the proxy is revoked, and on the object itself
    otherwise. *)
Definition viaProxy {A} (obj : Value) (trap : Ref → WrapperHandler → M A) (ordinary : M A) : M A :=
  λ w, match refOf obj ≫= (λ r, (r,.) <$> cache w !! r) with
       | Some (r, self) =>
           if bool_decide (r ∈ revoked w)
           then throwError "TypeError" "Cannot perform operation on a proxy that has been revoked" w
           else trap r self w
       | None => ordinary w
       end.

Definition Proxy_get (obj : Value) (k : PropertyKey) : M Value :=
  viaProxy obj (λ _ self, WrapperHandler_get self k) (reflectGet obj k).

Definition Proxy_set (obj : Value) (k : PropertyKey) (v : Value) : M Value :=
  viaProxy obj (λ _ self, WrapperHandler_set self k v) (reflectSet obj k v).

Definition Proxy_deleteProperty (obj : Value) (k : PropertyKey) : M Value :=
  viaProxy obj (λ _ self, WrapperHandler_deleteProperty self k) (reflectDeleteProperty obj k).

Definition Proxy_apply (obj thisArg_ : Value) (args_ : list Value) : M Value :=
  viaProxy obj (λ _ self, WrapperHandler_apply self thisArg_ args_) (reflectApply obj thisArg_ args_).

Definition Proxy_construct (obj : Value) (args_ : list Value) : M Value :=
  viaProxy obj (λ _ self, WrapperHandler_construct self args_) (reflectConstruct obj args_).

(** [baseTypeMixin.then], called on [this_]: the promise of [resolve()] is
    chained with the caller's reactions, which makes a new promise, pending
    when the call returns; what the reactions do belongs to later turns.  A
    receiver that is no handle gets a rejected promise. *)
Definition baseTypeMixin_then (this_ : Value) : M Value :=
  let* handler := WrapperHandler_static_get this_ in
  match handler with
  | Some self =>
      WrapperHandler_resolve self;;;
      let* chained := newPromise Pending in
      ret (VObject chained)
  | None =>
      let* e := newError (Some "TypeError") (Some "Cannot sync current object.") None in
      let* rejected := newPromise (Rejected e) in
      ret (VObject rejected)
  end.

(** [obj.then(...)], which is what [await obj] starts with: through a proxy
    the [then] of [baseTypeMixin] is read off the wrapped function and
    called on the proxy. *)
Definition Proxy_then (obj : Value) : M Value :=
  viaProxy obj (λ _ _, baseTypeMixin_then obj) (ret obj).

(** [revoke()], or a callback of the caller's. *)
Definition runCallback (cb : Callback) : M unit :=
  match cb with
  | CbRevoke p => λ w, (Ret tt, with_revoked ({[p]} ∪ revoked w) w)
  | CbFunction f => reflectApply f VUndefined [];;; ret tt
  end.

Definition dispose : M unit :=
  let* cbs := own disposableCallbacks in
  forEach (λ cb, try_catch (runCallback cb) (λ _, ret tt)) cbs;;;
  λ w, (Ret tt, with_this None w).

(** ** [solid()] *)

Context `{!HostAssign Heap}.

Definition with_globalSolidObjects (x : gset positive) (w : World Heap) : World Heap :=
  {| this := this w; store := store w; globalSolidObjects := x;
     cache := cache w; revoked := revoked w; outbox := outbox w |}.

(** [WrapperHandler.makeSolid(source)], which is all that [solid(source)]
    calls.  A value that is no handle is cloned into a fresh object without
    prototype, and the clone is marked for every endpoint.  For a handle,
    [handler.handler] is the endpoint that made it; the new proxy is cached
    with the same handler. *)
Definition makeSolid (source : Value) : M Value :=
  if negb (isReferenceType source) then ret source
  else
    let* isHandler := WrapperHandler_isHandler source in
    if negb isHandler then
      let* clone := alloc in
      callHost (Object_assign (VObject clone) source);;;
      (λ w, (Ret tt, with_globalSolidObjects ({[clone]} ∪ globalSolidObjects w) w));;;
      ret (VObject clone)
    else
      let* handler := WrapperHandler_static_get source in
      match handler with
      | None => ret source
      | Some self =>
          let* sol := isSolid source in
          if sol then ret source
          else
            let* proxy := WrapperHandler_resolve_shadow self in
            setSolid proxy;;;
            ret proxy
      end.

End Engine.

Arguments M : clear implicits.

(** ** Sample endpoints *)

(** A host with one kind of function: it adds its two numeric arguments and
    throws on anything else.  Its objects have no properties. *)
Global Instance sampleHost : Host unit := {|
  Reflect_get := λ _ _ s, (Normal VUndefined, s);
  Reflect_set := λ _ _ _ s, (Normal (VBoolean true), s);
  Reflect_deleteProperty := λ _ _ s, (Normal (VBoolean true), s);
  Reflect_apply := λ _ _ args_ s,
    match args_ with
    | [VNumber a; VNumber b] => (Normal (VNumber (a + b)), s)
    | _ => (Abrupt (VString "boom"), s)
    end;
  Reflect_construct := λ _ _ s, (Abrupt (VString "boom"), s);
  hostInstanceOf := λ _ v c,
    match c with
    | CtorFunction => bool_decide (typeOf v = "function")
    | _ => false
    end;
  targetHas := λ k, match k with KString "then" => true | _ => false end;
  targetGet := λ _, VUndefined;
|}.

(** Its objects have no properties to copy. *)
Global Instance sampleAssign : HostAssign unit := {|
  Object_assign := λ target _ s, (Normal target, s);
|}.

(** A fresh endpoint: [new SharedArrayBuffer(4)] is zeroed. *)
Definition newFields : Fields :=
  {| resolvers := ∅; solidObjects := ∅; disposableCallbacks := [];
     key2Obj := ∅; obj2Key := ∅; key2Sym := ∅; sym2Key := ∅;
     counter := 0; port := MessagePort |}.

Definition newWorld : World unit :=
  {| this := Some newFields;
     store := {| nextRef := 1; nextSym := 1; errors := ∅; promises := ∅;
                 boxed := ∅; heap := tt |};
     globalSolidObjects := ∅; cache := ∅; revoked := ∅; outbox := [] |}.

(** An endpoint whose counter is two short of the largest [Uint32]. *)
Definition wrapFields : Fields := with_counter 4294967294 newFields.

Definition wrapWorld : World unit := with_this (Some wrapFields) newWorld.

(** A fresh endpoint next to one object of the program (object 1). *)
Definition objectWorld : World unit :=
  with_store (with_nextRef 2 (store newWorld)) newWorld.

(** The serving side after bootstrap, as [worker-thread.ts] sets it up: the
    export, here a function (object 1), is registered under token 0. *)
Definition exported : Value := VFunction 1.

Definition servingWorld : World unit :=
  (registerToken exported (Some 0)
     (with_store (with_nextRef 2 (store newWorld)) newWorld)).2.

Definition servingFields : Fields := default newFields (this servingWorld).

(** The calling side after [load]: a handle (proxy 1) for token 0. *)
Definition handleWorld : World unit := (createShadow 0 newWorld).2.

Definition handleFields : Fields := default newFields (this handleWorld).

Definition disposedWorld : World unit := (dispose handleWorld).2.

(** An endpoint with one request in flight: token 1, promise 1. *)
Definition pendingWorld : World unit :=
  (sendAndWait (with_from 0 (message resolve)) newWorld).2.

Definition pendingFields : Fields := default newFields (this pendingWorld).

(** An endpoint on which [setSolid] has marked a plain object (object 1). *)
Definition solidWorld : World unit :=
  (setSolid (VObject 1) (with_store (with_nextRef 2 (store newWorld)) newWorld)).2.

(** An endpoint on which [setSolid] has marked an [Error] instance
    (object 1). *)
Definition solidErrorWorld : World unit :=
  (bind (newError (Some "Error") (Some "boom") None) setSolid newWorld).2.

(** Inbound messages. *)
Definition successReply : Message :=
  with_value (PRaw (VNumber 42)) (with_token 1 (message success)).

Definition failedReply : Message :=
  with_reason (PError (Some "Error") (Some "boom") None) (with_token 1 (message failed)).

Definition strayReply : Message :=
  with_value (PRaw (VNumber 42)) (with_token 5 (message success)).

(** [pendingWorld] after [successReply] has been received, and what it
    posted in answer. *)
Definition repliedWorld : World unit := (onReceive successReply pendingWorld).2.

Definition repliedFields : Fields := default newFields (this repliedWorld).

Definition echo : Message :=
  with_value (PRaw VUndefined) (with_token 1 (message success)).

Definition applyUnknown : Message :=
  with_into 7 (with_token 3 (with_args [] (with_from 99 (message apply_)))).

Definition applyAdd : Message :=
  with_into 9 (with_token 4
    (with_args [PRaw (VNumber 1); PRaw (VNumber 2)] (with_from 0 (message apply_)))).

Definition dropUnknown : Message :=
  with_key (MString "x") false (with_from 99 (message delete_)).

Definition readX : Message :=
  with_key (MString "x") false (with_from 0 (message prepare)).

(** The same read with a destination token and a correlation token. *)
Definition readXInto : Message := with_token 3 (with_into 9 readX).

Definition resolveUnknown : Message := with_from 99 (message resolve).

Definition resolveExport : Message := with_from 0 (message resolve).

Definition constructOne : Message :=
  with_args [PRaw (VNumber 1)] (with_from 0 (message construct)).

Definition applyNothing : Message := with_from 0 (message apply_).

(** The handler of the handle of [handleWorld]. *)
Definition handleSelf : WrapperHandler :=
  {| id := 0; resolvePromise := None; identity := 1 |}.

(** ** Notions the properties are stated with *)

Section Notions.
Context {Heap : Type} `{!Host Heap}.

(** The endpoint has not been disposed. *)
Definition live (w : World Heap) : Prop := is_Some (this w).

(** The token that the next [aquireToken] hands out: the number in the
    cell, which is an unsigned 32-bit integer, plus one; and the endpoint
    after that call. *)
Definition nextToken (f : Fields) : Z := counter f mod 2 ^ 32 + 1.

Definition countedOn (f : Fields) : Fields :=
  with_counter (nextToken f mod 2 ^ 32) f.

(** [n] sequential calls of [aquireToken], oldest first. *)
Fixpoint aquireTokens (n : nat) : M Heap (list Z) :=
  match n with
  | O => ret []
  | S n' =>
      bind aquireToken (λ t, bind (aquireTokens n') (λ ts, ret (t :: ts)))
  end.

(** The tokens a 32-bit counter standing at [c] gives out next. *)
Definition tokensFrom (c : Z) (n : nat) : list Z :=
  (λ k : nat, (c + Z.of_nat k - 1) mod 2 ^ 32 + 1) <$> seq 1 n.

(** [n] calls of the same computation in a row, with their results. *)
Fixpoint repeatM {A} (n : nat) (c : M Heap A) : M Heap (list A) :=
  match n with
  | O => ret []
  | S n' => bind c (λ a, bind (repeatM n' c) (λ l, ret (a :: l)))
  end.

(** The proxy was made through this endpoint: its [revoke] is among the
    callbacks of the endpoint. *)
Definition registered (proxy : Ref) (w : World Heap) : Prop :=
  ∃ f, this w = Some f ∧ proxy ∈ dom (cache w)
       ∧ CbRevoke proxy ∈ disposableCallbacks f.

(** The thrown value is an error object of the given name and message. *)
Definition isError (w : World Heap) (e : Value) (name message : string) : Prop :=
  ∃ stack, errorOf (store w) e
           = Some {| ename := Some name; emessage := Some message; estack := stack |}.

(** What a method other than [dispose] does to the endpoint as a whole: the
    own properties stay, and the disposal callbacks and the cached proxies
    are only added to. *)
Definition advances (w w' : World Heap) : Prop :=
  (∀ f, this w = Some f →
        ∃ f', this w' = Some f' ∧ disposableCallbacks f ⊆ disposableCallbacks f')
  ∧ dom (cache w) ⊆ dom (cache w').

Definition orderly {A} (c : M Heap A) : Prop :=
  ∀ w o w', c w = (o, w') → advances w w'.

(** Object identities are only ever added, and a promise that exists keeps
    the state it has. *)
Definition grows (w w' : World Heap) : Prop :=
  (nextRef (store w) ≤ nextRef (store w'))%positive
  ∧ ∀ q, (q < nextRef (store w))%positive →
         promises (store w') !! q = promises (store w) !! q.

(** The branch of [success] and of [failed] in [onReceive]: [payload] is
    the value or the reason, [mk] fulfils or rejects. *)
Definition settleBranch (payload : Packed) (mk : Value → PromiseState)
    (tok : option Z) : M Heap (Value * bool) :=
  bind (popResolver tok) (λ resolver,
    bind (match resolver with
          | Some p => bind (unpack payload) (λ v, settle p (mk v))
          | None => ret tt
          end)
      (λ _, ret (VUndefined, false))).

(** The computation returns, with a result and in a world that satisfy
    [Q]. *)
Definition returns {A} (c : M Heap A) (w : World Heap)
    (Q : A → World Heap → Prop) : Prop :=
  ∃ a w', c w = (Ret a, w') ∧ Q a w'.

(** [p] is what [Promise.resolve(v)] answers: [v] itself when it is a
    promise, else a promise resolved with [v]. *)
Definition resolvedWith (w : World Heap) (p : Ref) (v : Value) : Prop :=
  (v = VObject p ∧ isPromise (store w) v = true)
  ∨ promises (store w) !! p = Some (Resolved v).

(** An endpoint step that leaves the heap, the proxies and the outbox as
    they are, and the registry of objects too. *)
Definition bookkeeping (w w' : World Heap) : Prop :=
  ∃ f f', this w = Some f ∧ this w' = Some f'
    ∧ key2Obj f' = key2Obj f ∧ obj2Key f' = obj2Key f
    ∧ resolvers f' = resolvers f ∧ solidObjects f' = solidObjects f
    ∧ store w' = store w ∧ outbox w' = outbox w ∧ cache w' = cache w
    ∧ globalSolidObjects w' = globalSolidObjects w.

(** What [unpack] may do to a live endpoint: allocate, post requests, and
    file at most one new pending request, under the next token. *)
Definition unpacked (w : World Heap) (f : Fields) (w' : World Heap) : Prop :=
  ∃ f', this w' = Some f' ∧ grows w w'
    ∧ (∀ q, promises (store w) !! q = Some Pending →
            promises (store w') !! q = Some Pending)
    ∧ (∃ extra, outbox w' = outbox w ++ extra)
    ∧ (resolvers f' = resolvers f
       ∨ resolvers f' = <[nextToken f := nextRef (store w)]> (resolvers f)).

(** The value a packed entry carries as it is: a primitive, or a cloned
    value. *)
Definition carried (p : Packed) : option Value :=
  match p with
  | PRaw x | PValue x => Some x
  | _ => None
  end.

(** What [WrapperHandler.isHandler] answers in a given world. *)
Definition handleIn (w : World Heap) (v : Value) : bool :=
  isReferenceType v
  && match refOf v with
     | Some r => bool_decide (is_Some (cache w !! r))
     | None => false
     end.

(** Whatever the computation does to the world is within [R]. *)
Definition preserves {A} (R : World Heap → World Heap → Prop) (c : M Heap A) : Prop :=
  ∀ w o w', c w = (o, w') → R w w'.

(** A disposed endpoint stays disposed and posts nothing. *)
Definition quiet (w w' : World Heap) : Prop :=
  this w = None → this w' = None ∧ outbox w' = outbox w.

(** No proxy is revoked, no solid mark is set or taken away, and what has
    been posted stays posted. *)
Definition keepsMarks (w w' : World Heap) : Prop :=
  revoked w' = revoked w
  ∧ globalSolidObjects w' = globalSolidObjects w
  ∧ solidObjects <$> this w' = solidObjects <$> this w
  ∧ outbox w `prefix_of` outbox w'.

(** How a trap names the property key [k] in a request: [mk] is the key
    as it is, or, for a symbol, what [fromSymbol] answers for it, with
    [isSymbol] set; [w'] is the world after that. *)
Definition keyed (k : PropertyKey) (w : World Heap) (mk : MKey * bool)
    (w' : World Heap) : Prop :=
  match k with
  | KString s => mk = (MString s, false) ∧ w' = w
  | KNumber n => mk = (MNumber n, false) ∧ w' = w
  | KSymbol sym => fromSymbol sym w = (Ret mk.1, w') ∧ mk.2 = true
  end.

(** The outcome is a returned value. *)
Definition returned {A} (o : Outcome A) : bool :=
  match o with
  | Ret _ => true
  | _ => false
  end.

(** The computation throws an error object of the given name. *)
Definition throwsError {A} (name : string) (c : M Heap A) (w : World Heap) : Prop :=
  ∃ e w' message, c w = (Throw e, w') ∧ isError w' e name message.

End Notions.

(** ** Properties *)

Section Properties.
Context {Heap : Type} `{!Host Heap}.

Local Notation "'let*' x ':=' c 'in' k" := (bind c (λ x, k))
  (at level 10, x binder, c at level 100, k at level 200).
Local Notation "c ;;; k" := (bind c (λ _, k))
  (at level 100, k at level 200, right associativity).

Implicit Types (w : World Heap) (f : Fields).

Local Arguments Z.modulo : simpl never.
Local Arguments Z.pow : simpl never.
Local Arguments Z.add : simpl never.

(** *** Running computations *)

(** A world whose endpoint is live, written out field by field, so that
    the methods compute on it. *)
Ltac expose w Hf :=
  destruct w as [th [nr ns er pr bx hp] gs ca rv ob]; simpl in Hf; subst th.

Ltac engine :=
  unfold pack, unpack, registerToken, storeLocal, resolveLocal, resolveRemote,
    createShadow, WrapperHandler_resolve_shadow, onDispose, sendAndWait,
    aquireToken, send, fromSymbol, toSymbol, newSymbol, box, await, throwError,
    newError, throw, isSolid, setSolid, WrapperHandler_isHandler,
    WrapperHandler_static_get, Promise_resolve, newPromise, alloc, getStore,
    settle, popResolver, resolveKey, try_catch, own, update, bind, ret,
    with_this, with_store, with_cache, with_revoked, with_outbox,
    with_nextRef, with_nextSym, with_errors, with_promises, with_boxed in *;
  cbn in *.

Lemma bind_Ret {A B} (c : M Heap A) (k : A → M Heap B) w a w' :
  c w = (Ret a, w') → bind c k w = k a w'.
Proof. unfold bind. by intros ->. Qed.

Lemma bind_Throw {A B} (c : M Heap A) (k : A → M Heap B) w e w' :
  c w = (Throw e, w') → bind c k w = (Throw e, w').
Proof. unfold bind. by intros ->. Qed.

Lemma bind_Suspend {A B} (c : M Heap A) (k : A → M Heap B) w w' :
  c w = (Suspend, w') → bind c k w = (Suspend, w').
Proof. unfold bind. by intros ->. Qed.

Lemma own_live {A} (proj : Fields → A) w f :
  this w = Some f → own proj w = (Ret (proj f), w).
Proof. unfold own. by intros ->. Qed.

Lemma update_live (upd : Fields → Fields) w f :
  this w = Some f → update upd w = (Ret tt, with_this (Some (upd f)) w).
Proof. unfold update. by intros ->. Qed.

(** *** The token counter *)

Lemma aquireToken_live w f :
  this w = Some f →
  aquireToken w
  = (Ret (nextToken f),
     with_this (Some (countedOn f)) w).
Proof.
  intros Hf. unfold aquireToken.
  rewrite (bind_Ret _ _ _ _ _ (own_live counter _ _ Hf)).
  rewrite (bind_Ret _ _ _ _ _ (update_live _ _ _ Hf)). done.
Qed.

Lemma tokensFrom_S c n :
  tokensFrom c (S n)
  = c mod 2 ^ 32 + 1 :: tokensFrom ((c mod 2 ^ 32 + 1) mod 2 ^ 32) n.
Proof.
  unfold tokensFrom. rewrite <- cons_seq, fmap_cons. f_equal.
  { f_equal. f_equal. lia. }
  rewrite <- fmap_S_seq, <- list_fmap_compose.
  apply list_fmap_ext. intros _ k _. simpl. f_equal.
  rewrite Nat2Z.inj_succ.
  replace ((c mod 2 ^ 32 + 1) mod 2 ^ 32 + Z.of_nat k - 1)
    with ((c mod 2 ^ 32 + 1) mod 2 ^ 32 + (Z.of_nat k - 1)) by lia.
  rewrite Zplus_mod_idemp_l.
  replace (c mod 2 ^ 32 + 1 + (Z.of_nat k - 1)) with (c mod 2 ^ 32 + Z.of_nat k) by lia.
  rewrite Zplus_mod_idemp_l. f_equal. lia.
Qed.

Lemma aquireTokens_live n : ∀ w f,
  this w = Some f →
  ∃ w' f', aquireTokens n w = (Ret (tokensFrom (counter f) n), w')
           ∧ this w' = Some f'.
Proof.
  induction n as [|n IH]; intros w f Hf.
  - exists w, f. done.
  - simpl. rewrite (bind_Ret _ _ _ _ _ (aquireToken_live _ _ Hf)).
    destruct (IH (with_this (Some (countedOn f)) w)
                 (countedOn f) eq_refl)
      as (w' & f' & Hrun & Hf').
    exists w', f'. split; [|done].
    rewrite (bind_Ret _ _ _ _ _ Hrun). simpl. by rewrite tokensFrom_S.
Qed.

Lemma tokensFrom_lookup c n (i : nat) :
  (i < n)%nat → tokensFrom c n !! i = Some ((c + Z.of_nat (S i) - 1) mod 2 ^ 32 + 1).
Proof.
  intros Hi. unfold tokensFrom. rewrite list_lookup_fmap.
  by rewrite (lookup_seq_lt _ _ _ Hi).
Qed.

(** Within one turn of the counter the tokens are pairwise distinct. *)
Lemma tokensFrom_NoDup c n : Z.of_nat n ≤ 2 ^ 32 → NoDup (tokensFrom c n).
Proof.
  intros Hn. apply NoDup_alt. intros i j x Hi Hj.
  assert (i < n)%nat as Hin.
  { apply lookup_lt_Some in Hi. unfold tokensFrom in Hi.
    by rewrite length_fmap, length_seq in Hi. }
  assert (j < n)%nat as Hjn.
  { apply lookup_lt_Some in Hj. unfold tokensFrom in Hj.
    by rewrite length_fmap, length_seq in Hj. }
  rewrite (tokensFrom_lookup _ _ _ Hin) in Hi.
  rewrite (tokensFrom_lookup _ _ _ Hjn) in Hj.
  assert ((c + Z.of_nat (S i) - 1) mod 2 ^ 32 = (c + Z.of_nat (S j) - 1) mod 2 ^ 32)
    as Heq by (simplify_eq; lia).
  pose proof (Z.div_mod (c + Z.of_nat (S i) - 1) (2 ^ 32) ltac:(lia)) as Hdi.
  pose proof (Z.div_mod (c + Z.of_nat (S j) - 1) (2 ^ 32) ltac:(lia)) as Hdj.
  rewrite Heq in Hdi.
  set (qi := (c + Z.of_nat (S i) - 1) `div` 2 ^ 32) in *.
  set (qj := (c + Z.of_nat (S j) - 1) `div` 2 ^ 32) in *.
  assert (Z.of_nat (S i) - Z.of_nat (S j) = 2 ^ 32 * (qi - qj)) as Hd by lia.
  assert (qi - qj = 0) by nia.
  lia.
Qed.

Lemma aquireTokens_distinct_within_wrap w f (n : nat) :
  this w = Some f →
  Z.of_nat n ≤ 2 ^ 32 →
  ∃ ts w', aquireTokens n w = (Ret ts, w') ∧ length ts = n ∧ NoDup ts.
Proof.
  intros Hf Hn.
  destruct (aquireTokens_live n w f Hf) as (w' & f' & Hrun & _).
  exists (tokensFrom (counter f) n), w'. split; [done|]. split.
  - unfold tokensFrom. by rewrite length_fmap, length_seq.
  - by apply tokensFrom_NoDup.
Qed.

(** C9. Token uniqueness fails once the 32-bit counter has wrapped: more
    than [2^32] sequential calls of [aquireToken] on a live endpoint all
    return, and the integers they return are not pairwise distinct. *)
Theorem C9_tokens_repeat_after_wrap w f (n : nat) :
  this w = Some f →
  2 ^ 32 < Z.of_nat n →
  ∃ ts w', aquireTokens n w = (Ret ts, w') ∧ length ts = n ∧ ¬ NoDup ts.
Proof.
  intros Hf Hn.
  destruct (aquireTokens_live n w f Hf) as (w' & f' & Hrun & _).
  exists (tokensFrom (counter f) n), w'. split; [done|]. split.
  { unfold tokensFrom. by rewrite length_fmap, length_seq. }
  intros Hnd.
  assert (0 < n)%nat as H0 by lia.
  assert (Z.to_nat (2 ^ 32) < n)%nat as H1 by lia.
  pose proof (tokensFrom_lookup (counter f) n 0 H0) as L0.
  pose proof (tokensFrom_lookup (counter f) n _ H1) as L1.
  replace ((counter f + Z.of_nat (S (Z.to_nat (2 ^ 32))) - 1) mod 2 ^ 32)
    with ((counter f + Z.of_nat 1 - 1) mod 2 ^ 32) in L1.
  - pose proof (NoDup_lookup _ _ _ _ Hnd L0 L1). lia.
  - replace (counter f + Z.of_nat (S (Z.to_nat (2 ^ 32))) - 1)
      with (counter f + Z.of_nat 1 - 1 + 1 * 2 ^ 32) by lia.
    by rewrite Z.mod_add.
Qed.

(** *** Handles and memoised promises *)

Lemma resolveRemote_cached w f token_ p :
  this w = Some f → key2Obj f !! token_ = Some p →
  resolveRemote token_ false w = (Ret (VObject p), w).
Proof. intros Hf Hp. expose w Hf. engine. by rewrite Hp. Qed.

Lemma repeatM_resolveRemote_cached n w f token_ p :
  this w = Some f → key2Obj f !! token_ = Some p →
  repeatM n (resolveRemote token_ false) w = (Ret (replicate n (VObject p)), w).
Proof.
  intros Hf Hp. induction n as [|n IH]; [done|]. simpl.
  rewrite (bind_Ret _ _ _ _ _ (resolveRemote_cached _ _ _ _ Hf Hp)).
  by rewrite (bind_Ret _ _ _ _ _ IH).
Qed.

(** C10. Value resolution is memoised per token: on a live endpoint the
    first non-shadowed [resolveRemote] of a token returns the promise
    stored under it and changes nothing (so sends nothing), or, when none is
    stored, sends exactly one [resolve] request for the token and stores the
    new promise under it; any number of later non-shadowed calls return that
    same promise and leave the endpoint, and so the outbox, as it is. *)
Theorem C10_resolveRemote_memoised w f token_ :
  this w = Some f →
  ∃ p w' f',
    resolveRemote token_ false w = (Ret (VObject p), w')
    ∧ this w' = Some f' ∧ key2Obj f' !! token_ = Some p
    ∧ match key2Obj f !! token_ with
      | Some q => p = q ∧ w' = w
      | None =>
          ∃ t, outbox w' = outbox w ++ [with_token t (with_from token_ (message resolve))]
      end
    ∧ ∀ n, repeatM n (resolveRemote token_ false) w'
           = (Ret (replicate n (VObject p)), w').
Proof.
  intros Hf. destruct (key2Obj f !! token_) as [q|] eqn:Hq.
  - exists q, w, f. rewrite (resolveRemote_cached _ _ _ _ Hf Hq).
    repeat split; try done.
    intros n. by apply repeatM_resolveRemote_cached with f.
  - expose w Hf. engine. rewrite Hq. cbn.
    eexists _, _, _. split; [reflexivity|]. cbn.
    split; [reflexivity|]. cbn. rewrite lookup_insert_eq.
    split; [done|]. split; [by eexists|].
    intros n. eapply repeatM_resolveRemote_cached; [reflexivity|].
    cbn. by rewrite lookup_insert_eq.
Qed.

(** [createShadow] on a live endpoint: the next object identity becomes a
    proxy for the token, and nothing else moves but the callbacks. *)
Lemma createShadow_live w f token_ :
  this w = Some f →
  ∃ w' f',
    createShadow token_ w = (Ret (VFunction (nextRef (store w))), w')
    ∧ this w' = Some f'
    ∧ nextRef (store w') = Pos.succ (nextRef (store w))
    ∧ cache w'
      = <[nextRef (store w) := {| id := token_; resolvePromise := None;
                                  identity := nextRef (store w) |}]> (cache w)
    ∧ CbRevoke (nextRef (store w)) ∈ disposableCallbacks f'
    ∧ outbox w' = outbox w
    ∧ revoked w' = revoked w
    ∧ promises (store w') = promises (store w)
    ∧ with_disposableCallbacks (disposableCallbacks f) f' = f.
Proof.
  intros Hf. expose w Hf. engine.
  destruct (bool_decide (CbRevoke nr ∈ disposableCallbacks f)) eqn:Hin; cbn.
  - apply bool_decide_eq_true in Hin.
    eexists _, _. split; [reflexivity|]. cbn. repeat split; try done.
    by destruct f.
  - eexists _, _. split; [reflexivity|]. cbn. repeat split; try done.
    + apply elem_of_app. right. by apply list_elem_of_singleton.
    + by destruct f.
Qed.

(** A handle is registered with the endpoint that made it. *)
Lemma createShadow_registered w f token_ :
  this w = Some f →
  ∃ w', createShadow token_ w = (Ret (VFunction (nextRef (store w))), w')
        ∧ registered (nextRef (store w)) w'.
Proof.
  intros Hf.
  destruct (createShadow_live w f token_ Hf) as (w' & f' & Hrun & Hf' & _ & Hc & Hcb & _).
  exists w'. split; [done|].
  exists f'. split; [done|]. split; [|done].
  rewrite Hc, dom_insert_L. set_solver.
Qed.

(** C4, as amended. Handles are not cached per token: on a live endpoint two
    shadowed resolutions of the same token return two distinct proxies, each
    entered in [WrapperHandler.cache] with a handler that carries the
    token. *)
Theorem C4_shadowed_resolution_is_fresh w f token_ :
  this w = Some f →
  ∃ p1 w1 p2 w2,
    resolveRemote token_ true w = (Ret (VFunction p1), w1)
    ∧ resolveRemote token_ true w1 = (Ret (VFunction p2), w2)
    ∧ p1 ≠ p2
    ∧ id <$> cache w2 !! p1 = Some token_
    ∧ id <$> cache w2 !! p2 = Some token_.
Proof.
  intros Hf.
  destruct (createShadow_live w f token_ Hf) as (w1 & f1 & Hrun1 & Hf1 & Hn1 & Hc1 & _).
  destruct (createShadow_live w1 f1 token_ Hf1) as (w2 & f2 & Hrun2 & Hf2 & Hn2 & Hc2 & _).
  exists (nextRef (store w)), w1, (nextRef (store w1)), w2.
  unfold resolveRemote. split; [done|]. split; [done|].
  rewrite Hn1. split; [lia|].
  rewrite Hc2, Hc1, Hn1.
  rewrite lookup_insert_ne by lia. by rewrite !lookup_insert_eq.
Qed.

(** *** Solid values *)

(** C8, as amended. A value that is marked solid and is neither a remote
    handle nor an [Error] instance is packed by value, whatever [clone] is
    and however often it is packed: [pack] answers [{type: 'value', value}]
    and leaves the endpoint as it was. *)
Theorem C8_solid_value_is_cloned w v clone :
  (isSolid v w).1 = Ret true →
  (WrapperHandler_isHandler v w).1 = Ret false →
  errorOf (store w) v = None →
  ∀ n, repeatM n (pack v clone) w = (Ret (replicate n (PValue v)), w).
Proof.
  intros Hsolid Hhandle Herr.
  assert (pack v clone w = (Ret (PValue v), w)) as Hpack.
  { unfold isSolid in Hsolid. destruct (refOf v) as [r|] eqn:Hr; [|done].
    destruct (this w) as [f|] eqn:Hf.
    2: { unfold bind, own, throwError, bind in Hsolid. rewrite Hf in Hsolid. done. }
    expose w Hf.
    destruct v; try done; engine; simplify_eq;
      unfold errorOf in Herr; cbn in Herr; rewrite Herr; cbn;
      destruct clone; cbn; try done;
      rewrite Hsolid; cbn; by rewrite Hhandle. }
  induction n as [|n IH]; [done|]. simpl.
  rewrite (bind_Ret _ _ _ _ _ Hpack). by rewrite (bind_Ret _ _ _ _ _ IH).
Qed.

(** *** The error taxonomy of [resolveLocal] *)

Lemma throwError_isError {A} name message w :
  ∃ e w', @throwError Heap A name message w = (Throw e, w')
          ∧ isError w' e name message ∧ this w' = this w ∧ outbox w' = outbox w.
Proof.
  destruct w as [th [nr ns er pr bx hp] gs ca rv ob]. engine.
  eexists _, _. split; [reflexivity|]. split; [|done].
  exists None. unfold errorOf. cbn. by rewrite lookup_insert_eq.
Qed.

(** A primitive-kind tag and a constructor both ask for the check. *)
Lemma kind_is_truthy v c :
  truthy (TyString (typeOf v)) = true ∧ truthy (TyConstructor c) = true.
Proof. by destruct v. Qed.

Lemma resolveLocal_unknown w f (id_ : option Z) type_ :
  this w = Some f → id_ ≫= (key2Obj f !!.) = None →
  resolveLocal id_ type_ w
  = (if truthy type_ then throwError "ReferenceError" "Invalid Id" else ret VUndefined) w.
Proof.
  intros Hf Hunknown. unfold resolveLocal.
  destruct id_ as [i|]; [|done]. simpl in Hunknown.
  rewrite (bind_Ret _ _ _ _ _ (own_live key2Obj _ _ Hf)).
  by rewrite Hunknown.
Qed.

Lemma resolveLocal_mismatch w f i type_ p result :
  this w = Some f → key2Obj f !! i = Some p →
  settled w p = Ret result →
  ensureType (store w) result type_ = false →
  ∃ e w', resolveLocal (Some i) type_ w = (Throw e, w')
          ∧ isError w' e "TypeError" "Invalid type"
          ∧ this w' = this w ∧ outbox w' = outbox w.
Proof.
  intros Hf Hknown Hsettled Htype.
  destruct (@throwError_isError Value "TypeError" "Invalid type" w)
    as (e & w' & Hthrow & Herr & Hth & Hob).
  exists e, w'. split; [|done].
  unfold resolveLocal.
  rewrite (bind_Ret _ _ _ _ _ (own_live key2Obj _ _ Hf)).
  rewrite Hknown.
  assert (await p w = (Ret result, w)) as Hawait
    by (unfold await; by rewrite Hsettled).
  rewrite (bind_Ret _ _ _ _ _ Hawait).
  unfold getStore at 1. unfold bind at 1. by rewrite Htype.
Qed.

(** Called without an expected kind, as the [prepare], [assign], [delete]
    and [resolve] branches call it, [resolveLocal] rejects every token that
    is bound to a settled value: [ensureType(result, undefined)] is
    [false]. *)
Lemma resolveLocal_without_kind w f i p result :
  this w = Some f → key2Obj f !! i = Some p →
  settled w p = Ret result →
  ∃ e w', resolveLocal (Some i) TyUndefined w = (Throw e, w')
          ∧ isError w' e "TypeError" "Invalid type"
          ∧ this w' = this w ∧ outbox w' = outbox w.
Proof. intros Hf Hknown Hsettled. by eapply resolveLocal_mismatch. Qed.

(** So those four branches throw whenever their source token is bound to a
    settled value. *)
Lemma onReceive_switch_without_kind data w f i p result :
  this w = Some f →
  type data = prepare ∨ type data = assign ∨ type data = delete_ ∨ type data = resolve →
  from data = Some i → key2Obj f !! i = Some p →
  settled w p = Ret result →
  throwsError "TypeError" (onReceive_switch data) w.
Proof.
  intros Hf Htype Hfrom Hknown Hsettled.
  destruct (resolveLocal_without_kind w f i p result Hf Hknown Hsettled)
    as (e & w' & Hthrow & Herr & _).
  exists e, w', "Invalid type". split; [|done].
  unfold onReceive_switch. rewrite Hfrom.
  destruct Htype as [->|[->|[->| ->]]]; by rewrite (bind_Throw _ _ _ _ _ Hthrow).
Qed.

(** C5. The error taxonomy of [resolveLocal] on a live endpoint.  When the
    token is absent or not in the registry, a requested kind check makes it
    throw [ReferenceError('Invalid Id')], and without one it returns
    [undefined] and changes nothing.  When the token is bound to a promise
    that has settled on a value which [ensureType] rejects for the expected
    kind, it throws [TypeError('Invalid type')]. *)
Theorem C5_resolveLocal_errors w f (id_ : option Z) type_ :
  this w = Some f →
  (id_ ≫= (key2Obj f !!.) = None → truthy type_ = true →
   ∃ e w', resolveLocal id_ type_ w = (Throw e, w')
           ∧ isError w' e "ReferenceError" "Invalid Id")
  ∧ (id_ ≫= (key2Obj f !!.) = None → truthy type_ = false →
     resolveLocal id_ type_ w = (Ret VUndefined, w))
  ∧ (∀ p result,
       id_ ≫= (key2Obj f !!.) = Some p →
       settled w p = Ret result →
       ensureType (store w) result type_ = false →
       ∃ e w', resolveLocal id_ type_ w = (Throw e, w')
               ∧ isError w' e "TypeError" "Invalid type").
Proof.
  intros Hf. split; [|split].
  - intros Hunknown Htype.
    destruct (@throwError_isError Value "ReferenceError" "Invalid Id" w)
      as (e & w' & Hthrow & Herr & _).
    exists e, w'. split; [|done].
    by rewrite (resolveLocal_unknown _ _ _ _ Hf Hunknown), Htype.
  - intros Hunknown Htype.
    by rewrite (resolveLocal_unknown _ _ _ _ Hf Hunknown), Htype.
  - intros p result Hknown Hsettled Htype.
    destruct id_ as [i|]; [|done]. simpl in Hknown.
    destruct (resolveLocal_mismatch w f i type_ p result Hf Hknown Hsettled Htype)
      as (e & w' & Hthrow & Herr & _).
    by exists e, w'.
Qed.

(** *** Disposal *)

Lemma forEach_callbacks cbs : ∀ w,
  ∃ w', forEach (λ cb, try_catch (runCallback cb) (λ _, ret tt)) cbs w = (Ret tt, w')
        ∧ this w' = this w ∧ cache w' = cache w
        ∧ revoked w ⊆ revoked w'
        ∧ ∀ p, CbRevoke p ∈ cbs → p ∈ revoked w'.
Proof.
  induction cbs as [|cb cbs IH]; intros w.
  - exists w. repeat split; try done. intros p Hp. by apply elem_of_nil in Hp.
  - assert (∃ w1, try_catch (runCallback cb) (λ _, ret tt) w = (Ret tt, w1)
                  ∧ this w1 = this w ∧ cache w1 = cache w
                  ∧ revoked w ⊆ revoked w1
                  ∧ ∀ p, cb = CbRevoke p → p ∈ revoked w1) as (w1 & Hcb & Ht & Hc & Hr & Hp).
    { destruct w as [th [nr ns er pr bx hp] gs ca rv ob].
      destruct cb as [p|fn].
      - eexists. split; [reflexivity|]. cbn.
        split; [done|]. split; [done|]. split; [set_solver|].
        intros q Hq. injection Hq as ->. set_solver.
      - unfold runCallback, reflectApply, callHost. engine.
        destruct (bool_decide (typeOf fn = "function")); cbn.
        + destruct (Reflect_apply fn VUndefined [] _) as [[v|e] s]; cbn;
            (eexists; split; [reflexivity|]; by cbn).
        + eexists; split; [reflexivity|]; by cbn. }
    destruct (IH w1) as (w' & Hrest & Ht' & Hc' & Hr' & Hp').
    exists w'. simpl. rewrite (bind_Ret _ _ _ _ _ Hcb).
    split; [done|]. split; [congruence|]. split; [congruence|].
    split; [set_solver|].
    intros p Hin. apply elem_of_cons in Hin as [Heq|Hin]; [|by apply Hp'].
    apply Hr'. by apply Hp.
Qed.

Lemma dispose_live w f :
  this w = Some f →
  ∃ w', dispose w = (Ret tt, w') ∧ this w' = None ∧ cache w' = cache w
        ∧ ∀ p, CbRevoke p ∈ disposableCallbacks f → p ∈ revoked w'.
Proof.
  intros Hf. unfold dispose.
  rewrite (bind_Ret _ _ _ _ _ (own_live disposableCallbacks _ _ Hf)).
  destruct (forEach_callbacks (disposableCallbacks f) w) as (w1 & Hrun & _ & Hc & _ & Hp).
  rewrite (bind_Ret _ _ _ _ _ Hrun).
  eexists. split; [reflexivity|]. by cbn.
Qed.

(** Any operation through a revoked proxy throws a [TypeError]. *)
Lemma viaProxy_revoked {A} (obj : Value) trap (ordinary : M Heap A) w proxy self :
  refOf obj = Some proxy → cache w !! proxy = Some self → proxy ∈ revoked w →
  throwsError "TypeError" (viaProxy obj trap ordinary) w.
Proof.
  intros Hr Hc Hrev.
  destruct (@throwError_isError A "TypeError"
              "Cannot perform operation on a proxy that has been revoked" w)
    as (e & w' & Hthrow & Herr & _).
  eexists e, w', _. split; [|done].
  unfold viaProxy. rewrite Hr. cbn. rewrite Hc. cbn.
  by rewrite bool_decide_eq_true_2.
Qed.

(** On a disposed endpoint the solid registry is gone: marking or checking
    an object or function throws, a primitive is not looked up at all. *)
Lemma solid_after_dispose w :
  this w = None →
  (∀ v, isReferenceType v = false →
        setSolid v w = (Ret tt, w) ∧ isSolid v w = (Ret false, w))
  ∧ (∀ v, isReferenceType v = true →
          throwsError "TypeError" (setSolid v) w
          ∧ throwsError "TypeError" (isSolid v) w).
Proof.
  intros Hf. split.
  - intros v Hv. by destruct v.
  - intros v Hv.
    destruct (@throwError_isError (gset positive) "TypeError"
                "Cannot read properties of undefined" w)
      as (e & w' & Hthrow & Herr & _).
    assert (own solidObjects w = (Throw e, w')) as Hown
      by (unfold own; by rewrite Hf).
    split; eexists e, w', _; (split; [|done]);
      destruct v; try done; cbn; by rewrite (bind_Throw _ _ _ _ _ Hown).
Qed.

(** C3, as amended. After [dispose()] every operation on a handle the
    endpoint had made (read, write, delete, invoke, instantiate, resolve)
    throws a [TypeError]; a handle is [registered] from [createShadow] on,
    whatever the endpoint receives in between.  [setSolid] and [isSolid] on the disposed endpoint
    return normally for a value that is not an object or function, and throw
    a [TypeError] for one that is, because [dispose] deleted the solid
    registry with the other own properties. *)
Theorem C3_after_dispose w proxy (h : Value) :
  registered proxy w → refOf h = Some proxy →
  ∃ w', dispose w = (Ret tt, w') ∧ this w' = None
    ∧ (∀ k, throwsError "TypeError" (Proxy_get h k) w')
    ∧ (∀ k v, throwsError "TypeError" (Proxy_set h k v) w')
    ∧ (∀ k, throwsError "TypeError" (Proxy_deleteProperty h k) w')
    ∧ (∀ thisArg_ args_, throwsError "TypeError" (Proxy_apply h thisArg_ args_) w')
    ∧ (∀ args_, throwsError "TypeError" (Proxy_construct h args_) w')
    ∧ throwsError "TypeError" (Proxy_then h) w'
    ∧ (∀ v, isReferenceType v = false →
            setSolid v w' = (Ret tt, w') ∧ isSolid v w' = (Ret false, w'))
    ∧ (∀ v, isReferenceType v = true →
            throwsError "TypeError" (setSolid v) w'
            ∧ throwsError "TypeError" (isSolid v) w').
Proof.
  intros (f & Hf & Hc & Hcb) Hr.
  destruct (dispose_live w f Hf) as (w' & Hrun & Hnone & Hc' & Hrev).
  exists w'. split; [done|]. split; [done|].
  rewrite <- Hc' in Hc. apply elem_of_dom in Hc as [self Hc].
  specialize (Hrev _ Hcb).
  destruct (solid_after_dispose w' Hnone) as [Hprim Href].
  split; [intros; by eapply viaProxy_revoked|].
  split; [intros; by eapply viaProxy_revoked|].
  split; [intros; by eapply viaProxy_revoked|].
  split; [intros; by eapply viaProxy_revoked|].
  split; [intros; by eapply viaProxy_revoked|].
  split; [by eapply viaProxy_revoked|].
  done.
Qed.

(** *** Every method but [dispose] is orderly *)

Lemma advances_refl w : advances w w.
Proof. split; [|done]. intros f Hf. by exists f. Qed.

Lemma advances_trans w1 w2 w3 : advances w1 w2 → advances w2 w3 → advances w1 w3.
Proof.
  intros [Hf12 Hc12] [Hf23 Hc23]. split; [|set_solver].
  intros f1 Hf1. destruct (Hf12 f1 Hf1) as (f2 & Hf2 & Hcb12).
  destruct (Hf23 f2 Hf2) as (f3 & Hf3 & Hcb23).
  exists f3. split; [done|]. set_solver.
Qed.

Lemma advances_live w w' : advances w w' → live w → live w'.
Proof. intros [Hf _] [f Hw]. destruct (Hf f Hw) as (f' & Hf' & _). by exists f'. Qed.

Lemma advances_registered p w w' : advances w w' → registered p w → registered p w'.
Proof.
  intros [Hf Hc] (f & Hw & Hp & Hcb). destruct (Hf f Hw) as (f' & Hf' & Hsub).
  exists f'. split; [done|]. split; [set_solver|]. by apply Hsub.
Qed.

Lemma orderly_ret {A} (a : A) : orderly (@ret Heap A a).
Proof. intros w o w' [= <- <-]. apply advances_refl. Qed.

Lemma orderly_bind {A B} (c : M Heap A) (k : A → M Heap B) :
  orderly c → (∀ a, orderly (k a)) → orderly (bind c k).
Proof.
  intros Hc Hk w o w'. unfold bind.
  destruct (c w) as [[a|e|] w1] eqn:Hrun.
  - intros Hrun'. eapply advances_trans; [by eapply Hc|by eapply Hk].
  - intros [= <- <-]. by eapply Hc.
  - intros [= <- <-]. by eapply Hc.
Qed.

Lemma orderly_try_catch {A} (c : M Heap A) h :
  orderly c → (∀ e, orderly (h e)) → orderly (try_catch c h).
Proof.
  intros Hc Hh w o w'. unfold try_catch.
  destruct (c w) as [[a|e|] w1] eqn:Hrun.
  - intros [= <- <-]. by eapply Hc.
  - intros Hrun'. eapply advances_trans; [by eapply Hc|by eapply Hh].
  - intros [= <- <-]. by eapply Hc.
Qed.

Lemma orderly_mapM {A B} (g : A → M Heap B) l :
  (∀ a, orderly (g a)) → orderly (mapM g l).
Proof.
  intros Hg. induction l as [|a l IH]; simpl.
  - apply orderly_ret.
  - apply orderly_bind; [done|]. intros b.
    apply orderly_bind; [done|]. intros bs. apply orderly_ret.
Qed.

Lemma orderly_forEach {A} (g : A → M Heap unit) l :
  (∀ a, orderly (g a)) → orderly (forEach g l).
Proof.
  intros Hg. induction l as [|a l IH]; simpl.
  - apply orderly_ret.
  - apply orderly_bind; [done|]. by intros _.
Qed.

(** A step that touches neither the own properties nor the cache. *)
Lemma orderly_same {A} (c : M Heap A) :
  (∀ w, this (c w).2 = this w ∧ cache (c w).2 = cache w) → orderly c.
Proof.
  intros Hsame w o w' Hrun. destruct (Hsame w) as [Hth Hca].
  rewrite Hrun in Hth, Hca. simpl in Hth, Hca. split.
  - intros f Hf. exists f. by rewrite Hth.
  - by rewrite Hca.
Qed.

Lemma throwError_same {A} name message w :
  this (@throwError Heap A name message w).2 = this w
  ∧ cache (@throwError Heap A name message w).2 = cache w.
Proof. by destruct w as [th [nr ns er pr bx hp] gs ca rv ob]. Qed.

Lemma orderly_own {A} (proj : Fields → A) : orderly (@own Heap A proj).
Proof.
  apply orderly_same. intros w. unfold own.
  destruct (this w) eqn:Hf; [done|]. rewrite <- Hf. apply throwError_same.
Qed.

(** An update of any own property but the callbacks. *)
Lemma orderly_update upd :
  (∀ f, disposableCallbacks (upd f) = disposableCallbacks f) →
  orderly (@update Heap upd).
Proof.
  intros Hupd w o w'. unfold update. destruct (this w) as [f|] eqn:Hf.
  - intros [= <- <-]. split; [|done].
    intros f0 Hf0. rewrite Hf in Hf0. injection Hf0 as <-.
    eexists. split; [reflexivity|]. by rewrite Hupd.
  - intros Hrun. destruct (@throwError_same unit "TypeError"
                             "Cannot read properties of undefined" w) as [Hth Hca].
    rewrite Hrun in Hth, Hca. simpl in Hth, Hca. split.
    + intros f0 Hf0. congruence.
    + by rewrite Hca.
Qed.

Lemma orderly_onDispose callback : orderly (@onDispose Heap callback).
Proof.
  intros w o w'. unfold onDispose.
  destruct (this w) as [f|] eqn:Hf.
  - rewrite (bind_Ret _ _ _ _ _ (own_live disposableCallbacks _ _ Hf)).
    destruct (bool_decide (callback ∈ disposableCallbacks f)).
    + intros [= <- <-]. apply advances_refl.
    + rewrite (update_live _ _ _ Hf). intros [= <- <-]. split; [|done].
      intros f0 Hf0. rewrite Hf in Hf0. injection Hf0 as <-.
      eexists. split; [reflexivity|]. cbn. set_solver.
  - destruct (@throwError_isError (list Callback) "TypeError"
                "Cannot read properties of undefined" w) as (e & w1 & Hthrow & _).
    destruct (@throwError_same (list Callback) "TypeError"
                "Cannot read properties of undefined" w) as [_ Hca].
    rewrite Hthrow in Hca. simpl in Hca.
    assert (own disposableCallbacks w = (Throw e, w1)) as Hown
      by (unfold own; by rewrite Hf).
    rewrite (bind_Throw _ _ _ _ _ Hown). intros [= <- <-]. split.
    + intros f0 Hf0. congruence.
    + by rewrite Hca.
Qed.

(** An entry put into [WrapperHandler.cache]. *)
Lemma orderly_cache_set proxy (self : WrapperHandler) :
  orderly (λ w : World Heap, (Ret tt, with_cache (<[proxy := self]> (cache w)) w)).
Proof.
  intros w o w' [= <- <-]. split.
  - intros f Hf. by exists f.
  - cbn. rewrite dom_insert_L. set_solver.
Qed.

Lemma orderly_callHost (h : Store Heap → Completion * Store Heap) :
  orderly (callHost h).
Proof.
  apply orderly_same. intros w. unfold callHost.
  by destruct (h (store w)) as [[v|e] s].
Qed.

Lemma orderly_settle p st : orderly (@settle Heap p st).
Proof.
  apply orderly_same. intros w. unfold settle.
  by destruct (promises (store w) !! p) as [[]|].
Qed.

Lemma orderly_Promise_all vs : orderly (@Promise_all Heap vs).
Proof.
  apply orderly_same. intros w. unfold Promise_all.
  destruct (firstThrow _); [done|]. by destruct (allRet _).
Qed.

Create HintDb keeps discriminated.
#[local] Hint Resolve orderly_ret orderly_own orderly_onDispose
  orderly_cache_set orderly_callHost orderly_settle orderly_Promise_all : keeps.

(** Follows the structure of a method down to its primitive steps. *)
Ltac keeps :=
  repeat first
    [ solve [auto with keeps]
    | apply orderly_bind; [|intros ?]
    | apply orderly_try_catch; [|intros ?]
    | apply orderly_mapM; intros ?
    | solve [apply orderly_update; intros ?; reflexivity]
    | match goal with
      | |- orderly (match ?x with _ => _ end) => destruct x
      end
    | solve [apply orderly_same; intros [? [? ? ? ? ? ?] ? ? ? ?]; by split] ].

Lemma orderly_throwError {A} name message :
  orderly (@throwError Heap A name message).
Proof. apply orderly_same. intros w. apply throwError_same. Qed.
#[local] Hint Resolve orderly_throwError : keeps.

Lemma orderly_aquireToken : orderly (@aquireToken Heap).
Proof. unfold aquireToken. keeps. Qed.
#[local] Hint Resolve orderly_aquireToken : keeps.

Lemma orderly_send data : orderly (@send Heap data).
Proof. unfold send. keeps. Qed.
#[local] Hint Resolve orderly_send : keeps.

Lemma orderly_newPromise st : orderly (@newPromise Heap st).
Proof. unfold newPromise, alloc. keeps. Qed.
#[local] Hint Resolve orderly_newPromise : keeps.

Lemma orderly_sendAndWait data : orderly (@sendAndWait Heap data).
Proof. unfold sendAndWait. keeps. Qed.
#[local] Hint Resolve orderly_sendAndWait : keeps.

Lemma orderly_createShadow t : orderly (@createShadow Heap t).
Proof. unfold createShadow, WrapperHandler_resolve_shadow, alloc. keeps. Qed.
#[local] Hint Resolve orderly_createShadow : keeps.

Lemma orderly_resolveRemote t shadowed : orderly (@resolveRemote Heap t shadowed).
Proof. unfold resolveRemote. keeps. Qed.
#[local] Hint Resolve orderly_resolveRemote : keeps.

Lemma orderly_toSymbol k : orderly (@toSymbol Heap k).
Proof. unfold toSymbol, newSymbol. keeps. Qed.
#[local] Hint Resolve orderly_toSymbol : keeps.

Lemma orderly_fromSymbol sym : orderly (@fromSymbol Heap sym).
Proof. unfold fromSymbol. keeps. Qed.
#[local] Hint Resolve orderly_fromSymbol : keeps.

Lemma orderly_unpack v : orderly (@unpack Heap v).
Proof. unfold unpack, newError. keeps. Qed.
#[local] Hint Resolve orderly_unpack : keeps.

Lemma orderly_isHandler v : orderly (@WrapperHandler_isHandler Heap v).
Proof. unfold WrapperHandler_isHandler. keeps. Qed.
#[local] Hint Resolve orderly_isHandler : keeps.

Lemma orderly_unpackAll src : orderly (@unpackAll Heap src).
Proof. unfold unpackAll. keeps. Qed.
#[local] Hint Resolve orderly_unpackAll : keeps.

Lemma orderly_resolveLocal id_ type_ :
  orderly (@resolveLocal Heap _ id_ type_).
Proof. unfold resolveLocal, await, getStore, box, alloc. cbv zeta. keeps. Qed.
#[local] Hint Resolve orderly_resolveLocal : keeps.

Lemma orderly_resolveKey data : orderly (@resolveKey Heap data).
Proof. unfold resolveKey. keeps. Qed.
#[local] Hint Resolve orderly_resolveKey : keeps.

Lemma orderly_popResolver t : orderly (@popResolver Heap t).
Proof. unfold popResolver. keeps. Qed.
#[local] Hint Resolve orderly_popResolver : keeps.

Lemma orderly_storeLocal id_ obj : orderly (@storeLocal Heap id_ obj).
Proof. unfold storeLocal, Promise_resolve, getStore. keeps. Qed.
#[local] Hint Resolve orderly_storeLocal : keeps.

Lemma orderly_registerToken obj t : orderly (@registerToken Heap obj t).
Proof. unfold registerToken, WrapperHandler_static_get. keeps. Qed.
#[local] Hint Resolve orderly_registerToken : keeps.

Lemma orderly_isSolid obj : orderly (@isSolid Heap obj).
Proof. unfold isSolid. keeps. Qed.
#[local] Hint Resolve orderly_isSolid : keeps.

Lemma orderly_setSolid obj : orderly (@setSolid Heap obj).
Proof. unfold setSolid. keeps. Qed.

Lemma orderly_pack v clone : orderly (@pack Heap v clone).
Proof. unfold pack, getStore. keeps. Qed.
#[local] Hint Resolve orderly_pack : keeps.

Lemma orderly_onReceive_switch data :
  orderly (@onReceive_switch Heap _ data).
Proof.
  unfold onReceive_switch, reflectGet, reflectSet, reflectDeleteProperty,
    reflectApply, reflectConstruct.
  keeps.
Qed.
#[local] Hint Resolve orderly_onReceive_switch : keeps.

Lemma orderly_onReceive data : orderly (@onReceive Heap _ data).
Proof. unfold onReceive, onReceive_try, onReceive_catch. keeps. Qed.

Lemma orderly_viaProxy {A} obj trap (ordinary : M Heap A) :
  (∀ r self, orderly (trap r self)) → orderly ordinary →
  orderly (viaProxy obj trap ordinary).
Proof.
  intros Htrap Hord w o w'. unfold viaProxy.
  destruct (refOf obj ≫= _) as [[r self]|]; [|by apply Hord].
  destruct (bool_decide (r ∈ revoked w)); [|by apply Htrap].
  by apply orderly_throwError.
Qed.

Lemma orderly_messageKey k : orderly (@messageKey Heap k).
Proof. unfold messageKey. keeps. Qed.
#[local] Hint Resolve orderly_messageKey : keeps.

(** The operations on a handle are orderly too. *)
Lemma orderly_Proxy obj :
  (∀ k, orderly (@Proxy_get Heap _ obj k))
  ∧ (∀ k v, orderly (@Proxy_set Heap _ obj k v))
  ∧ (∀ k, orderly (@Proxy_deleteProperty Heap _ obj k))
  ∧ (∀ thisArg_ args_, orderly (@Proxy_apply Heap _ obj thisArg_ args_))
  ∧ (∀ args_, orderly (@Proxy_construct Heap _ obj args_))
  ∧ orderly (@Proxy_then Heap obj).
Proof.
  unfold Proxy_get, Proxy_set, Proxy_deleteProperty, Proxy_apply, Proxy_construct,
    Proxy_then.
  assert (∀ self promise, orderly (@memoise Heap self promise)) as Hmemo.
  { intros self promise w o w' [= <- <-]. split.
    - intros f Hf. by exists f.
    - cbn. by rewrite dom_fmap_L. }
  assert (orderly (@baseTypeMixin_then Heap obj)) as Hthen.
  { unfold baseTypeMixin_then, WrapperHandler_static_get, WrapperHandler_resolve,
      newError.
    keeps. }
  split; [|split; [|split; [|split; [|split]]]]; intros;
    (apply orderly_viaProxy; [intros|]);
    unfold WrapperHandler_get, WrapperHandler_set, WrapperHandler_deleteProperty,
      WrapperHandler_apply, WrapperHandler_construct,
      reflectGet, reflectSet, reflectDeleteProperty, reflectApply, reflectConstruct;
    keeps.
Qed.

(** The handles of an endpoint stay registered with it whatever it
    receives. *)
Lemma registered_onReceive proxy data w o w' :
  registered proxy w → onReceive data w = (o, w') → registered proxy w'.
Proof.
  intros Hreg Hrun. eapply advances_registered; [|done].
  by eapply orderly_onReceive.
Qed.

(** *** What the methods do on a live endpoint *)

Lemma returns_bind {A B} (c : M Heap A) (k : A → M Heap B) w Q :
  returns c w (λ a w1, returns (k a) w1 Q) → returns (bind c k) w Q.
Proof.
  intros (a & w1 & Hc & b & w2 & Hk & HQ). exists b, w2.
  by rewrite (bind_Ret _ _ _ _ _ Hc).
Qed.

Lemma returns_mono {A} (c : M Heap A) w (Q Q' : A → World Heap → Prop) :
  returns c w Q → (∀ a w', Q a w' → Q' a w') → returns c w Q'.
Proof. intros (a & w' & Hc & HQ) Himp. exists a, w'. auto. Qed.

Lemma returns_ret {A} (a : A) w (Q : A → World Heap → Prop) :
  Q a w → returns (ret a) w Q.
Proof. intros HQ. by exists a, w. Qed.

Lemma returns_own {A} (proj : Fields → A) w f (Q : A → World Heap → Prop) :
  this w = Some f → Q (proj f) w → returns (own proj) w Q.
Proof. intros Hf HQ. exists (proj f), w. by rewrite (own_live _ _ _ Hf). Qed.

Lemma returns_update upd w f (Q : unit → World Heap → Prop) :
  this w = Some f → Q tt (with_this (Some (upd f)) w) → returns (update upd) w Q.
Proof. intros Hf HQ. eexists _, _. by rewrite (update_live _ _ _ Hf). Qed.

Lemma grows_refl w : grows w w.
Proof. split; [lia|done]. Qed.

Lemma grows_trans w1 w2 w3 : grows w1 w2 → grows w2 w3 → grows w1 w3.
Proof.
  intros [Hn1 Hp1] [Hn2 Hp2]. split; [lia|].
  intros q Hq. rewrite Hp2 by lia. by apply Hp1.
Qed.

Lemma send_live data w f :
  this w = Some f →
  send data w = (Ret tt, with_outbox (outbox w ++ [data]) w).
Proof.
  intros Hf. unfold send. by rewrite (bind_Ret _ _ _ _ _ (own_live port _ _ Hf)).
Qed.

Lemma newPromise_spec st w :
  returns (newPromise st) w (λ p w',
    this w' = this w ∧ outbox w' = outbox w ∧ cache w' = cache w
    ∧ grows w w' ∧ promises (store w') !! p = Some st
    ∧ p = nextRef (store w)).
Proof.
  destruct w as [th [nr ns er pr bx hp] gs ca rv ob].
  eexists _, _. split; [reflexivity|]. cbn. repeat split; try done.
  - cbn. lia.
  - intros q Hq. cbn in *. by rewrite lookup_insert_ne by lia.
  - by rewrite lookup_insert_eq.
Qed.

Lemma Promise_resolve_spec v w :
  returns (Promise_resolve v) w (λ p w',
    this w' = this w ∧ outbox w' = outbox w ∧ cache w' = cache w
    ∧ grows w w' ∧ resolvedWith w' p v).
Proof.
  assert (returns (newPromise (Resolved v)) w (λ p w',
            this w' = this w ∧ outbox w' = outbox w ∧ cache w' = cache w
            ∧ grows w w' ∧ resolvedWith w' p v)) as Hnew.
  { eapply returns_mono; [apply newPromise_spec|].
    intros p w' (? & ? & ? & ? & ? & ?).
    do 4 (split; [done|]). unfold resolvedWith. by right. }
  unfold Promise_resolve.
  apply returns_bind. exists (store w), w. split; [done|].
  destruct v; try exact Hnew.
  destruct (isPromise (store w) (VObject r)) eqn:Hp; [|exact Hnew].
  apply returns_ret. do 3 (split; [done|]). split; [apply grows_refl|].
  unfold resolvedWith. by left.
Qed.

Lemma storeLocal_spec i v w f :
  this w = Some f →
  returns (storeLocal (Some i) v) w (λ _ w',
    ∃ p f', this w' = Some f'
      ∧ key2Obj f' = <[i := p]> (key2Obj f)
      ∧ resolvedWith w' p v
      ∧ (∀ r, refOf v = Some r → obj2Key f' !! r = Some i)
      ∧ resolvers f' = resolvers f
      ∧ outbox w' = outbox w ∧ cache w' = cache w ∧ grows w w').
Proof.
  intros Hf. unfold storeLocal.
  apply returns_bind, (returns_own _ _ _ _ Hf).
  apply returns_bind.
  eapply returns_mono; [apply Promise_resolve_spec|].
  intros p w1 (Hf1 & Hob & Hca & Hgr & Hres). cbn beta.
  rewrite Hf in Hf1.
  apply returns_bind, (returns_update _ _ _ _ Hf1).
  destruct (refOf v) as [r|] eqn:Hr.
  - eapply returns_bind, returns_own; [reflexivity|].
    eapply returns_update; [reflexivity|].
    exists p. eexists. split; [reflexivity|]. cbn.
    do 2 (split; [done|]). split; [|done].
    intros ? [= <-]. by rewrite lookup_insert_eq.
  - apply returns_ret. exists p. eexists. split; [reflexivity|]. by cbn.
Qed.

Lemma bookkeeping_refl w f : this w = Some f → bookkeeping w w.
Proof. intros Hf. by exists f, f. Qed.

Lemma fromSymbol_spec sym w f :
  this w = Some f →
  returns (fromSymbol sym) w (λ _ w', bookkeeping w w').
Proof.
  intros Hf. destruct sym as [k|u].
  - apply returns_ret. by eapply bookkeeping_refl.
  - expose w Hf. unfold returns, fromSymbol, aquireToken, own, update, bind, ret. cbn.
    destruct (sym2Key f !! SymUnique u); cbn;
      (eexists _, _; split; [reflexivity|]; eexists _, _; by cbn).
Qed.

Lemma isSolid_live v w f :
  this w = Some f →
  ∃ b, isSolid v w = (Ret b, w).
Proof.
  intros Hf. unfold isSolid. destruct (refOf v) as [r|]; [|by eexists].
  rewrite (bind_Ret _ _ _ _ _ (own_live solidObjects _ _ Hf)). by eexists.
Qed.

(** [pack] changes the world only through [fromSymbol] and
    [registerToken]. *)
Lemma pack_via (R : World Heap → Prop) v clone w f :
  this w = Some f → R w →
  (∀ sym, returns (fromSymbol sym) w (λ _ w', R w')) →
  (isReferenceType v = true → returns (registerToken v None) w (λ _ w', R w')) →
  returns (pack v clone) w (λ _ w', R w').
Proof.
  intros Hf Hrefl Hsym Hregister.
  assert (isReferenceType v = true → returns
            (bind getStore (λ s,
               match errorOf s v with
               | Some e => ret (PError (ename e) (emessage e) (estack e))
               | None =>
                   bind (if clone then ret true
                         else bind (isSolid v) (λ sol,
                                if sol then bind (WrapperHandler_isHandler v) (λ h, ret (negb h))
                                else ret false))
                     (λ byValue : bool,
                        if byValue then ret (PValue v)
                        else bind (isSolid v) (λ sol,
                               bind (registerToken v None) (λ k,
                                 ret (PToken (if sol : bool then solid else shadow) k))))
               end)) w (λ _ w', R w')) as Hobj.
  { intros Href. specialize (Hregister Href).
    apply returns_bind. eexists _, _. split; [reflexivity|]. cbn beta.
    destruct (errorOf (store w) v); [by apply returns_ret|].
    assert (∀ byValue : bool, returns
              (if byValue then ret (PValue v)
               else bind (isSolid v) (λ sol,
                      bind (registerToken v None) (λ k,
                        ret (PToken (if sol : bool then solid else shadow) k))))
              w (λ _ w', R w')) as Hrest.
    { intros [|]; [by apply returns_ret|].
      destruct (isSolid_live v w f Hf) as [b Hb].
      apply returns_bind. exists b, w. split; [done|].
      apply returns_bind. eapply returns_mono; [by eapply Hregister|].
      intros k w' Hbk. by apply returns_ret. }
    apply returns_bind. destruct clone.
    { apply returns_ret. apply (Hrest true). }
    destruct (isSolid_live v w f Hf) as [b Hb].
    apply returns_bind. exists b, w. split; [done|].
    destruct b.
    - apply returns_bind. eexists _, _. split; [reflexivity|].
      apply returns_ret. apply Hrest.
    - apply returns_ret. apply (Hrest false). }
  destruct v; try (by apply returns_ret); try exact (Hobj eq_refl).
  unfold pack. apply returns_bind.
  eapply returns_mono; [by apply Hsym|].
  intros k w' Hbk. by apply returns_ret.
Qed.

(** [pack] of a value that needs no new token: a primitive, a symbol, a
    handle, or an object that is in the registry already. *)
Lemma pack_registered v clone w f :
  this w = Some f →
  (∀ r, refOf v = Some r → is_Some (cache w !! r) ∨ is_Some (obj2Key f !! r)) →
  returns (pack v clone) w (λ _ w', bookkeeping w w').
Proof.
  intros Hf Hreg.
  assert (bookkeeping w w) as Hrefl by by eapply bookkeeping_refl.
  apply (pack_via _ _ _ _ f); try done.
  { intros sym. by apply (fromSymbol_spec _ _ f). }
  intros Href. unfold registerToken. apply returns_bind.
  eexists _, _. split; [reflexivity|]. cbn beta.
  destruct (refOf v) as [r|] eqn:Hr; [|by destruct v].
  rewrite Href. cbn.
  destruct (cache w !! r) as [h|] eqn:Hc; cbn.
  { by apply returns_ret. }
  destruct (Hreg r eq_refl) as [[? ?]|[i Hi]]; [congruence|].
  apply returns_bind, (returns_own _ _ _ _ Hf). cbn. rewrite Hi.
  by apply returns_ret.
Qed.

Lemma registerToken_total v w f :
  this w = Some f →
  returns (registerToken v None) w (λ _ w', live w' ∧ outbox w' = outbox w).
Proof.
  intros Hf. unfold registerToken. apply returns_bind.
  eexists _, _. split; [reflexivity|]. cbn beta.
  destruct (if isReferenceType v then refOf v ≫= (cache w !!.) else None).
  { apply returns_ret. split; [by exists f|done]. }
  apply returns_bind, (returns_own _ _ _ _ Hf).
  destruct (refOf v ≫= (obj2Key f !!.)).
  { apply returns_ret. split; [by exists f|done]. }
  apply returns_bind. eexists _, _. split; [by apply aquireToken_live|].
  apply returns_bind.
  eapply returns_mono; [by eapply storeLocal_spec|].
  intros _ w' (p & f' & Hf' & _ & _ & _ & _ & Hob & _).
  apply returns_ret. split; [by exists f'|done].
Qed.

(** [pack] always answers on a live endpoint, and sends nothing. *)
Lemma pack_total v clone w f :
  this w = Some f →
  returns (pack v clone) w (λ _ w', live w' ∧ outbox w' = outbox w).
Proof.
  intros Hf. apply (pack_via _ _ _ _ f); try done.
  - split; [by exists f|done].
  - intros sym. eapply returns_mono; [by apply (fromSymbol_spec _ _ f)|].
    intros _ w' (f1 & f' & _ & Hf' & _ & _ & _ & _ & _ & Hob & _).
    split; [by exists f'|done].
  - intros _. by apply (registerToken_total _ _ f).
Qed.

(** *** The dispatcher *)

Lemma onReceive_switch_live data w f o w1 :
  this w = Some f → onReceive_switch data w = (o, w1) → ∃ f1, this w1 = Some f1.
Proof.
  intros Hf Hrun.
  assert (live w1) as [f1 Hf1]; [|by exists f1].
  eapply advances_live; [by eapply orderly_onReceive_switch|by exists f].
Qed.

(** C6. Failure propagation in the dispatcher: when the branch of an
    inbound message throws [e] on a live endpoint, [onReceive] catches it.
    With a correlation token the endpoint posts exactly one more message,
    [failed] with that token and [pack(e)] as the reason; without one it
    posts nothing and is left as the failing branch left it. *)
Theorem C6_failure_propagation data w f e w1 :
  this w = Some f →
  onReceive_switch data w = (Throw e, w1) →
  match token data with
  | Some t =>
      ∃ packed w2,
        pack e false w1 = (Ret packed, w2) ∧ outbox w2 = outbox w1
        ∧ onReceive data w
          = (Ret tt,
             with_outbox (outbox w1 ++ [with_reason packed (with_token t (message failed))]) w2)
  | None => onReceive data w = (Ret tt, w1)
  end.
Proof.
  intros Hf Hswitch.
  destruct (onReceive_switch_live _ _ _ _ _ Hf Hswitch) as [f1 Hf1].
  assert (onReceive_try data w = (Throw e, w1)) as Htry.
  { unfold onReceive_try. by rewrite (bind_Throw _ _ _ _ _ Hswitch). }
  unfold onReceive, try_catch. rewrite Htry. unfold onReceive_catch.
  destruct (token data) as [t|]; [|done].
  destruct (pack_total e false w1 f1 Hf1) as (packed & w2 & Hpack & [f2 Hf2] & Hob).
  exists packed, w2. split; [done|]. split; [done|].
  rewrite (bind_Ret _ _ _ _ _ Hpack). rewrite (send_live _ _ _ Hf2).
  by rewrite Hob.
Qed.

Lemma resolvedWith_settled w p v :
  resolvedWith w p v → thenable w v = false → settled w p = Ret v.
Proof.
  intros [[-> Hp]|Hp] Hthen.
  - unfold thenable in Hthen. simpl in *. rewrite Hp in Hthen. done.
  - unfold settled. by rewrite Hp, Hthen.
Qed.

(** The order of the common tail.  When the branch of an inbound message
    that carries a destination token returns a value, the dispatcher stores
    the value under that token first, posting nothing, and only then packs
    and posts the [success] reply; when the reply is posted, and afterwards,
    the token is bound in the registry to a promise resolved with the value,
    so that a later lookup of the token finds it. *)
Lemma result_stored_before_reply data w f v clone w1 i :
  this w = Some f →
  into data = Some i →
  onReceive_switch data w = (Ret (v, clone), w1) →
  ∃ w2 f2 p,
    storeLocal (Some i) v w1 = (Ret tt, w2)
    ∧ this w2 = Some f2 ∧ key2Obj f2 !! i = Some p ∧ resolvedWith w2 p v
    ∧ outbox w2 = outbox w1
    ∧ ∃ w3 f3,
        this w3 = Some f3 ∧ key2Obj f3 !! i = Some p ∧ resolvedWith w3 p v
        ∧ (thenable w3 v = false → settled w3 p = Ret v)
        ∧ match token data with
          | Some t =>
              ∃ packed,
                pack v clone w2 = (Ret packed, w3) ∧ outbox w3 = outbox w1
                ∧ onReceive data w
                  = (Ret tt,
                     with_outbox (outbox w1 ++ [with_value packed (with_token t (message success))]) w3)
          | None => w3 = w2 ∧ onReceive data w = (Ret tt, w2)
          end.
Proof.
  intros Hf Hinto Hswitch.
  destruct (onReceive_switch_live _ _ _ _ _ Hf Hswitch) as [f1 Hf1].
  destruct (storeLocal_spec i v w1 f1 Hf1)
    as ([] & w2 & Hstore & p & f2 & Hf2 & Hk2o & Hres & Ho2k & _ & Hob & Hca & _).
  exists w2, f2, p. split; [done|]. split; [done|].
  split; [by rewrite Hk2o, lookup_insert_eq|]. split; [done|]. split; [done|].
  unfold onReceive, try_catch, onReceive_try.
  rewrite (bind_Ret _ _ _ _ _ Hswitch). cbn [fst snd]. rewrite Hinto.
  rewrite (bind_Ret _ _ _ _ _ Hstore).
  destruct (token data) as [t|].
  - destruct (pack_registered v clone w2 f2 Hf2)
      as (packed & w3 & Hpack & f2' & f3 & Hf2' & Hf3 & Hk & _ & _ & _ & Hst & Hob3 & _).
    { intros r Hr. right. rewrite (Ho2k r Hr). by eexists. }
    rewrite Hf2 in Hf2'. injection Hf2' as <-.
    assert (resolvedWith w3 p v) as Hres3.
    { unfold resolvedWith in *. by rewrite Hst. }
    exists w3, f3. split; [done|].
    split; [by rewrite Hk, Hk2o, lookup_insert_eq|]. split; [done|].
    split; [by apply resolvedWith_settled|].
    exists packed. split; [done|]. split; [congruence|].
    rewrite (bind_Ret _ _ _ _ _ Hpack). rewrite (send_live _ _ _ Hf3).
    by rewrite Hob3, Hob.
  - exists w2, f2. split; [done|].
    split; [by rewrite Hk2o, lookup_insert_eq|]. split; [done|].
    split; [by apply resolvedWith_settled|]. done.
Qed.

(** An error object is packed as its three fields, and packing it changes
    nothing. *)
Lemma pack_thrown_error w e err clone :
  errorOf (store w) e = Some err →
  pack e clone w = (Ret (PError (ename err) (emessage err) (estack err)), w).
Proof.
  intros Herr. destruct err as [name message stack].
  destruct e; try done; unfold pack, bind, getStore; by rewrite Herr.
Qed.

(** C2. The dispatcher stores no result for a read, a write, a deletion
    or a resolution of a registered object.  The [prepare], [assign],
    [delete] and [resolve] branches look their source token up with
    [resolveLocal(data.from)], without an expected kind, and
    [ensureType(result, undefined)] is [false] for every value.  So when the
    source token of such a message is bound to a promise that has settled on
    a value, on a live endpoint, the branch throws [TypeError('Invalid
    type')] before anything is computed; the store under the destination
    token is skipped, the own properties of the endpoint, its registry among
    them, are what they were, and the one message posted, when the request
    carries a correlation token, is [failed] with that error.  A later
    message that names the destination token as its source finds what was
    there before, which for an unused token is nothing. *)
Theorem C2_read_result_is_not_stored data w f i p result :
  this w = Some f →
  type data = prepare ∨ type data = assign ∨ type data = delete_ ∨ type data = resolve →
  from data = Some i → key2Obj f !! i = Some p →
  settled w p = Ret result →
  ∃ e w1 stack w',
    onReceive_switch data w = (Throw e, w1)
    ∧ errorOf (store w1) e
      = Some {| ename := Some "TypeError"; emessage := Some "Invalid type";
                estack := stack |}
    ∧ onReceive data w = (Ret tt, w')
    ∧ this w' = Some f
    ∧ outbox w'
      = outbox w ++ match token data with
                    | Some t =>
                        [with_reason
                           (PError (Some "TypeError") (Some "Invalid type") stack)
                           (with_token t (message failed))]
                    | None => []
                    end.
Proof.
  intros Hf Htype Hfrom Hknown Hsettled.
  destruct (resolveLocal_without_kind w f i p result Hf Hknown Hsettled)
    as (e & w1 & Hlocal & [stack Herr] & Hth & Hob).
  assert (onReceive_switch data w = (Throw e, w1)) as Hswitch.
  { unfold onReceive_switch. rewrite Hfrom.
    destruct Htype as [->|[->|[->| ->]]]; by rewrite (bind_Throw _ _ _ _ _ Hlocal). }
  assert (onReceive_try data w = (Throw e, w1)) as Htry.
  { unfold onReceive_try. by rewrite (bind_Throw _ _ _ _ _ Hswitch). }
  assert (this w1 = Some f) as Hf1 by congruence.
  exists e, w1, stack.
  unfold onReceive, try_catch. rewrite Htry. unfold onReceive_catch.
  destruct (token data) as [t|].
  - rewrite (bind_Ret _ _ _ _ _ (pack_thrown_error w1 e _ false Herr)).
    rewrite (send_live _ _ _ Hf1). eexists. split; [done|]. split; [done|].
    split; [reflexivity|]. split; [done|]. cbn. by rewrite Hob.
  - exists w1. split; [done|]. split; [done|]. split; [done|].
    split; [done|]. by rewrite Hob, app_nil_r.
Qed.

(** *** Request correlation *)

Lemma sendAndWait_spec data w f :
  this w = Some f →
  ∃ w',
    sendAndWait data w = (Ret (nextRef (store w)), w')
    ∧ this w' = Some (with_resolvers
                        (<[nextToken f := nextRef (store w)]> (resolvers f))
                        (countedOn f))
    ∧ promises (store w') = <[nextRef (store w) := Pending]> (promises (store w))
    ∧ nextRef (store w') = Pos.succ (nextRef (store w))
    ∧ outbox w' = outbox w ++ [with_token (nextToken f) data]
    ∧ cache w' = cache w.
Proof.
  intros Hf. expose w Hf.
  unfold sendAndWait, newPromise, alloc, try_catch, aquireToken, send, own,
    update, bind, ret. cbn.
  eexists. split; [reflexivity|]. by cbn.
Qed.

Lemma unpacked_refl w f : this w = Some f → unpacked w f w.
Proof.
  intros Hf. exists f. split; [done|]. split; [apply grows_refl|].
  split; [done|]. split; [|by left]. exists []. by rewrite app_nil_r.
Qed.

Lemma unpack_spec v w f :
  this w = Some f → returns (unpack v) w (λ _ w', unpacked w f w').
Proof.
  intros Hf. destruct v as [x|kind k|k|x|name message stack].
  - apply returns_ret. by apply unpacked_refl.
  - unfold unpack, resolveRemote. destruct (bool_decide (kind = shadow)).
    + destruct (createShadow_live w f k Hf)
        as (w' & f' & Hrun & Hf' & Hn & _ & _ & Hob & _ & Hpr & Hsame).
      eexists _, w'. split; [done|]. exists f'. split; [done|].
      split. { split; [lia|]. intros q _. by rewrite Hpr. }
      split. { intros q. by rewrite Hpr. }
      split. { exists []. by rewrite app_nil_r. }
      left. by rewrite <- Hsame.
    + apply returns_bind, (returns_own _ _ _ _ Hf).
      destruct (key2Obj f !! k) as [p|].
      { apply returns_ret. by apply unpacked_refl. }
      destruct (sendAndWait_spec (with_from k (message resolve)) w f Hf)
        as (w' & Hrun & Hf' & Hpr & Hn & Hob & _).
      apply returns_bind. eexists _, w'. split; [done|].
      eapply returns_bind, returns_own; [done|].
      eapply returns_bind, returns_update; [done|].
      apply returns_ret. eexists. split; [reflexivity|]. cbn.
      split. { split; cbn; [lia|]. intros q Hq. rewrite Hpr. by rewrite lookup_insert_ne by lia. }
      split. { intros q Hq. cbn. rewrite Hpr.
               destruct (decide (nextRef (store w) = q)) as [->|Hne];
                 [by rewrite lookup_insert_eq|by rewrite lookup_insert_ne]. }
      split; [by eexists|]. by right.
  - destruct k as [s|n].
    { apply returns_bind, returns_ret, returns_ret. by apply unpacked_refl. }
    expose w Hf. unfold returns, unpack, toSymbol, newSymbol, own, update, bind, ret. cbn.
    destruct (key2Sym f !! n); cbn;
      (eexists _, _; split; [reflexivity|]; eexists; split; [reflexivity|];
       cbn; repeat split; try done; try lia; try (by left);
       exists []; by rewrite app_nil_r).
  - apply returns_ret. by apply unpacked_refl.
  - expose w Hf. unfold returns, unpack, newError. cbn.
    eexists _, _; split; [reflexivity|]; eexists; split; [reflexivity|].
    cbn. repeat split; try done; try (cbn; lia); try (by left).
    exists []; by rewrite app_nil_r.
Qed.

Lemma settle_frame p st w :
  ∃ w', settle p st w = (Ret tt, w')
        ∧ this w' = this w ∧ outbox w' = outbox w
        ∧ nextRef (store w') = nextRef (store w)
        ∧ (∀ q, q ≠ p → promises (store w') !! q = promises (store w) !! q)
        ∧ (promises (store w) !! p = Some Pending → promises (store w') !! p = Some st)
        ∧ (promises (store w) !! p ≠ Some Pending →
           promises (store w') !! p = promises (store w) !! p).
Proof.
  unfold settle. destruct (promises (store w) !! p) as [[| |]|] eqn:Hp;
    (eexists; split; [reflexivity|]); cbn; repeat split; try done.
  - intros q Hq. by rewrite lookup_insert_ne.
  - intros _. by rewrite lookup_insert_eq.
Qed.

Lemma popResolver_live t w f :
  this w = Some f →
  popResolver (Some t) w
  = match resolvers f !! t with
    | Some p =>
        (Ret (Some p), with_this (Some (with_resolvers (delete t (resolvers f)) f)) w)
    | None => (Ret None, w)
    end.
Proof.
  intros Hf. expose w Hf. unfold popResolver, own, update, bind, ret. cbn.
  by destruct (resolvers f !! t).
Qed.

Lemma onReceive_switch_success data :
  type data = success →
  onReceive_switch data = settleBranch (value data) Resolved (token data).
Proof. intros Ht. unfold onReceive_switch. by rewrite Ht. Qed.

Lemma onReceive_switch_failed data :
  type data = failed →
  onReceive_switch data = settleBranch (reason data) Rejected (token data).
Proof. intros Ht. unfold onReceive_switch. by rewrite Ht. Qed.

Lemma settleBranch_spec payload (mk : Value → PromiseState) tok w f :
  this w = Some f →
  match tok ≫= (λ t, (t,.) <$> resolvers f !! t) with
  | None => settleBranch payload mk tok w = (Ret (VUndefined, false), w)
  | Some (t, p) =>
      ∃ x w1 w1',
        unpack payload (with_this (Some (with_resolvers (delete t (resolvers f)) f)) w)
        = (Ret x, w1)
        ∧ unpacked (with_this (Some (with_resolvers (delete t (resolvers f)) f)) w)
            (with_resolvers (delete t (resolvers f)) f) w1
        ∧ settle p (mk x) w1 = (Ret tt, w1')
        ∧ settleBranch payload mk tok w = (Ret (VUndefined, false), w1')
  end.
Proof.
  intros Hf. unfold settleBranch. destruct tok as [t|]; [|done]. cbn.
  pose proof (popResolver_live t w f Hf) as Hpop.
  destruct (resolvers f !! t) as [p|] eqn:Hp; cbn.
  - destruct (unpack_spec payload
                (with_this (Some (with_resolvers (delete t (resolvers f)) f)) w)
                (with_resolvers (delete t (resolvers f)) f) eq_refl)
      as (x & w1 & Hrun & Hun).
    destruct (settle_frame p (mk x) w1) as (w1' & Hsettle & _).
    exists x, w1, w1'. do 3 (split; [done|]).
    rewrite (bind_Ret _ _ _ _ _ Hpop). cbn beta iota.
    assert (bind (unpack payload) (λ v, settle p (mk v))
              (with_this (Some (with_resolvers (delete t (resolvers f)) f)) w)
            = (Ret tt, w1')) as Hinner
      by by rewrite (bind_Ret _ _ _ _ _ Hrun).
    by rewrite (bind_Ret _ _ _ _ _ Hinner).
  - by rewrite (bind_Ret _ _ _ _ _ Hpop).
Qed.

(** After a branch that computed nothing: the optional store under the
    destination token, then the optional reply. *)
Lemma onReceive_finish data w w1 f1 :
  onReceive_switch data w = (Ret (VUndefined, false), w1) →
  this w1 = Some f1 →
  ∃ w2 f2,
    this w2 = Some f2 ∧ resolvers f2 = resolvers f1
    ∧ outbox w2 = outbox w1 ∧ grows w1 w2
    ∧ onReceive data w
      = (Ret tt,
         match token data with
         | Some t =>
             with_outbox
               (outbox w2 ++ [with_value (PRaw VUndefined) (with_token t (message success))]) w2
         | None => w2
         end).
Proof.
  intros Hswitch Hf1.
  assert (∃ w2 f2,
            this w2 = Some f2 ∧ resolvers f2 = resolvers f1
            ∧ outbox w2 = outbox w1 ∧ grows w1 w2
            ∧ match into data with
              | Some i => storeLocal (Some i) VUndefined
              | None => ret tt
              end w1 = (Ret tt, w2)) as (w2 & f2 & Hf2 & Hrs & Hob & Hgr & Hstore).
  { destruct (into data) as [i|].
    - destruct (storeLocal_spec i VUndefined w1 f1 Hf1)
        as ([] & w2 & Hstore & p & f2 & Hf2 & _ & _ & _ & Hrs & Hob & _ & Hgr).
      by exists w2, f2.
    - exists w1, f1. do 3 (split; [done|]). split; [apply grows_refl|done]. }
  exists w2, f2. do 4 (split; [done|]).
  unfold onReceive, try_catch, onReceive_try.
  rewrite (bind_Ret _ _ _ _ _ Hswitch). cbn [fst snd].
  rewrite (bind_Ret _ _ _ _ _ Hstore).
  destruct (token data) as [t|]; [|done].
  unfold pack. unfold bind at 1, ret at 1.
  by rewrite (send_live _ _ _ Hf2).
Qed.

Lemma settlement payload (mk : Value → PromiseState) data w f t p :
  this w = Some f →
  onReceive_switch data = settleBranch payload mk (token data) →
  token data = Some t →
  resolvers f !! t = Some p →
  promises (store w) !! p = Some Pending →
  (p < nextRef (store w))%positive →
  ∃ x w' f',
    (unpack payload (with_this (Some (with_resolvers (delete t (resolvers f)) f)) w)).1
    = Ret x
    ∧ onReceive data w = (Ret tt, w') ∧ this w' = Some f'
    ∧ promises (store w') !! p = Some (mk x)
    ∧ resolvers f' !! t ≠ Some p
    ∧ (nextToken f ≠ t → resolvers f' !! t = None).
Proof.
  intros Hf Hsw Htok Hp Hpending Halloc.
  pose proof (settleBranch_spec payload mk (token data) w f Hf) as Hspec.
  rewrite Htok in Hspec. cbn in Hspec. rewrite Hp in Hspec. cbn in Hspec.
  destruct Hspec as (x & w1 & w1' & Hrun & Hun & Hsettle & Hbranch).
  destruct Hun as (f1 & Hf1 & [Hn1 _] & Hpend1 & _ & Hrs1).
  unfold nextToken in *. cbn in Hn1, Hpend1, Hrs1.
  destruct (settle_frame p (mk x) w1) as (w1'' & Hsettle' & Hth & _ & Hn & _ & Hset & _).
  rewrite Hsettle in Hsettle'. injection Hsettle' as <-.
  rewrite Hf1 in Hth. rewrite <- Htok, <- Hsw in Hbranch.
  destruct (onReceive_finish data w w1' f1 Hbranch Hth)
    as (w2 & f2 & Hf2 & Hrs2 & _ & [_ Hkeep] & Hrecv).
  rewrite Htok in Hrecv.
  exists x. eexists _, f2. split; [by rewrite Hrun|]. split; [exact Hrecv|].
  split; [done|]. cbn. split.
  { rewrite Hkeep by lia. apply Hset. by apply Hpend1. }
  rewrite Hrs2. destruct Hrs1 as [->| ->].
  - rewrite lookup_delete_eq. done.
  - destruct (decide (counter f mod 2 ^ 32 + 1 = t)) as [->|Hne].
    + rewrite lookup_insert_eq. split; [|done]. intros [= Heq]. lia.
    + rewrite lookup_insert_ne by done. rewrite lookup_delete_eq. done.
Qed.

Lemma no_settlement payload (mk : Value → PromiseState) data w f :
  this w = Some f →
  onReceive_switch data = settleBranch payload mk (token data) →
  token data ≫= (resolvers f !!.) = None →
  ∃ w' f',
    onReceive data w = (Ret tt, w') ∧ this w' = Some f'
    ∧ resolvers f' = resolvers f
    ∧ ∀ q, (q < nextRef (store w))%positive →
           promises (store w') !! q = promises (store w) !! q.
Proof.
  intros Hf Hsw Hnone.
  pose proof (settleBranch_spec payload mk (token data) w f Hf) as Hspec.
  replace (token data ≫= (λ t, (t,.) <$> resolvers f !! t)) with (@None (Z * Ref))
    in Hspec.
  2: { destruct (token data) as [t|]; [|done]. cbn in *. by rewrite Hnone. }
  rewrite <- Hsw in Hspec.
  destruct (onReceive_finish data w w f Hspec Hf)
    as (w2 & f2 & Hf2 & Hrs2 & _ & [_ Hkeep] & Hrecv).
  eexists _, f2. split; [exact Hrecv|].
  by destruct (token data).
Qed.

(** C7. Request correlation on a live endpoint [w].  [sendAndWait] files
    the new, pending promise under the token it acquires and posts the
    message with that token.  A [success] (or [failed]) message whose token
    has a pending entry removes the entry, unpacks the value (or reason) and
    resolves (or rejects) the promise of the entry with it; the entry is
    gone afterwards.  A [success] or [failed] message whose token has no
    entry, as a duplicate or a stray reply has, settles nothing: the table
    and every existing promise are as before. *)
Theorem C7_request_correlation w f :
  this w = Some f →
  (∀ data, ∃ t w1 f1,
      sendAndWait data w = (Ret (nextRef (store w)), w1) ∧ this w1 = Some f1
      ∧ resolvers f1 !! t = Some (nextRef (store w))
      ∧ promises (store w1) !! nextRef (store w) = Some Pending
      ∧ (nextRef (store w) < nextRef (store w1))%positive
      ∧ outbox w1 = outbox w ++ [with_token t data])
  ∧ (∀ data t p,
       token data = Some t → resolvers f !! t = Some p →
       promises (store w) !! p = Some Pending →
       (p < nextRef (store w))%positive →
       (type data = success →
        ∃ x w' f',
          (unpack (value data)
             (with_this (Some (with_resolvers (delete t (resolvers f)) f)) w)).1 = Ret x
          ∧ onReceive data w = (Ret tt, w') ∧ this w' = Some f'
          ∧ promises (store w') !! p = Some (Resolved x)
          ∧ resolvers f' !! t ≠ Some p
          ∧ (nextToken f ≠ t → resolvers f' !! t = None))
       ∧ (type data = failed →
          ∃ x w' f',
            (unpack (reason data)
               (with_this (Some (with_resolvers (delete t (resolvers f)) f)) w)).1 = Ret x
            ∧ onReceive data w = (Ret tt, w') ∧ this w' = Some f'
            ∧ promises (store w') !! p = Some (Rejected x)
            ∧ resolvers f' !! t ≠ Some p
            ∧ (nextToken f ≠ t → resolvers f' !! t = None)))
  ∧ (∀ data,
       type data = success ∨ type data = failed →
       token data ≫= (resolvers f !!.) = None →
       ∃ w' f',
         onReceive data w = (Ret tt, w') ∧ this w' = Some f'
         ∧ resolvers f' = resolvers f
         ∧ ∀ q, (q < nextRef (store w))%positive →
                promises (store w') !! q = promises (store w) !! q).
Proof.
  intros Hf. split; [|split].
  - intros data.
    destruct (sendAndWait_spec data w f Hf) as (w1 & Hrun & Hf1 & Hpr & Hn & Hob & _).
    eexists _, w1, _. split; [done|]. split; [done|]. cbn.
    split; [by rewrite lookup_insert_eq|].
    split; [by rewrite Hpr, lookup_insert_eq|]. split; [lia|done].
  - intros data t p Htok Hp Hpending Halloc. split; intros Htype.
    + by apply settlement; [|apply onReceive_switch_success|..].
    + by apply settlement; [|apply onReceive_switch_failed|..].
  - intros data [Htype|Htype] Hnone.
    + by eapply no_settlement; [|apply onReceive_switch_success|].
    + by eapply no_settlement; [|apply onReceive_switch_failed|].
Qed.

(** C1. A [success] or [failed] message is not terminal when it carries a
    correlation token: on a live endpoint the dispatcher, after settling
    what there is to settle, always posts a [success] message of its own
    with the same token and the packed [undefined]. *)
Theorem C1_reply_is_answered data w f t :
  this w = Some f →
  type data = success ∨ type data = failed →
  token data = Some t →
  ∃ w' extra,
    onReceive data w = (Ret tt, w')
    ∧ outbox w'
      = outbox w ++ extra
        ++ [with_value (PRaw VUndefined) (with_token t (message success))].
Proof.
  intros Hf Htype Htok.
  assert (∃ payload mk, onReceive_switch data = settleBranch payload mk (token data))
    as (payload & mk & Hsw).
  { destruct Htype as [Htype|Htype]; eexists _, _;
      [by apply onReceive_switch_success|by apply onReceive_switch_failed]. }
  pose proof (settleBranch_spec payload mk (token data) w f Hf) as Hspec.
  rewrite <- Hsw in Hspec.
  destruct (token data ≫= (λ t, (t,.) <$> resolvers f !! t)) as [[t' p]|].
  - destruct Hspec as (x & w1 & w1' & Hrun & Hun & Hsettle & Hbranch).
    destruct Hun as (f1 & Hf1 & _ & _ & [extra Hob1] & _). cbn in Hob1.
    destruct (settle_frame p (mk x) w1) as (w1'' & Hsettle' & Hth & Hob' & _).
    rewrite Hsettle in Hsettle'. injection Hsettle' as <-.
    rewrite Hf1 in Hth.
    destruct (onReceive_finish data w w1' f1 Hbranch Hth)
      as (w2 & f2 & _ & _ & Hob2 & _ & Hrecv).
    rewrite Htok in Hrecv.
    eexists _, extra. split; [exact Hrecv|]. cbn.
    by rewrite Hob2, Hob', Hob1, <- app_assoc.
  - destruct (onReceive_finish data w w f Hspec Hf)
      as (w2 & f2 & _ & _ & Hob2 & _ & Hrecv).
    rewrite Htok in Hrecv.
    eexists _, []. split; [exact Hrecv|]. cbn. by rewrite Hob2.
Qed.

(** *** What the dispatcher cannot do *)

Lemma returned_bind {A B} (c : M Heap A) (k : A → M Heap B) w :
  (∀ a w1, c w = (Ret a, w1) → returned (k a w1).1 = false) →
  returned (bind c k w).1 = false.
Proof.
  intros Hk. unfold bind. destruct (c w) as [[a|e|] w1] eqn:Hrun; [|done..].
  by apply Hk.
Qed.

Lemma returned_throwError {A} name message w :
  returned (@throwError Heap A name message w).1 = false.
Proof. done. Qed.

(** Without an expected kind [resolveLocal] answers [undefined] for a token
    it does not know, and nothing else. *)
Lemma resolveLocal_without_kind_returns id_ w v w' :
  resolveLocal id_ TyUndefined w = (Ret v, w') →
  v = VUndefined ∧ w' = w ∧ ∀ f, this w = Some f → id_ ≫= (key2Obj f !!.) = None.
Proof.
  unfold resolveLocal. destruct id_ as [i|]; cbn.
  2: { intros [= <- <-]. done. }
  destruct (this w) as [f|] eqn:Hf.
  2: { unfold bind, own. rewrite Hf. done. }
  rewrite (bind_Ret _ _ _ _ _ (own_live key2Obj _ _ Hf)).
  destruct (key2Obj f !! i) as [p|] eqn:Hp.
  - unfold bind, await, getStore. destruct (settled w p); done.
  - intros [= <- <-]. split; [done|]. split; [done|].
    by intros f0 [= <-].
Qed.

(** X1. The [prepare], [assign] and [delete] branches of the dispatcher
    never complete: whatever the message and the endpoint, the branch throws
    or waits.  A source token that is bound is rejected by [resolveLocal],
    which is called without an expected kind, and for one that is not bound
    the [Reflect] operation is handed [undefined]. *)
Theorem dispatch_get_set_delete_never_return data w :
  type data = prepare ∨ type data = assign ∨ type data = delete_ →
  returned (onReceive_switch data w).1 = false.
Proof.
  intros Htype. unfold onReceive_switch.
  destruct Htype as [->|[->| ->]]; apply returned_bind;
    intros v w1 Hlocal;
    apply resolveLocal_without_kind_returns in Hlocal as (-> & -> & _).
  - apply returned_bind. intros k w1 _. by apply returned_bind.
  - apply returned_bind. intros vs w1 _.
    apply returned_bind. intros k w2 _. by apply returned_bind.
  - apply returned_bind. intros k w1 _. by apply returned_bind.
Qed.

(** X2. The [resolve] branch never hands out a stored value.  On a live
    endpoint it returns [undefined], to be cloned, for a source token that
    is absent or not bound, and changes nothing; for a bound source token
    it throws or waits. *)
Theorem dispatch_resolve_yields_undefined data w f :
  this w = Some f →
  type data = resolve →
  match from data ≫= (key2Obj f !!.) with
  | None => onReceive_switch data w = (Ret (VUndefined, true), w)
  | Some p => returned (onReceive_switch data w).1 = false
  end.
Proof.
  intros Hf Htype. unfold onReceive_switch. rewrite Htype.
  destruct (from data ≫= (key2Obj f !!.)) as [p|] eqn:Hfrom.
  - apply returned_bind. intros v w1 Hlocal.
    apply resolveLocal_without_kind_returns in Hlocal as (_ & _ & Hnone).
    rewrite (Hnone f Hf) in Hfrom. done.
  - by rewrite (bind_Ret _ _ _ _ _
                  (resolveLocal_unknown _ _ _ TyUndefined Hf Hfrom)).
Qed.

(** *** Unpacking arguments *)

Lemma mapM_unpack_carried src xs w :
  Forall2 (λ p x, carried p = Some x) src xs →
  mapM unpack src w = (Ret xs, w).
Proof.
  induction 1 as [|p x src xs Hp _ IH]; [done|]. simpl.
  assert (unpack p w = (Ret x, w)) as Hun.
  { destruct p; simpl in Hp; try done; by injection Hp as ->. }
  rewrite (bind_Ret _ _ _ _ _ Hun). by rewrite (bind_Ret _ _ _ _ _ IH).
Qed.

Lemma mapM_isHandler xs w :
  mapM WrapperHandler_isHandler xs w = (Ret (handleIn w <$> xs), w).
Proof.
  induction xs as [|x xs IH]; [done|]. simpl.
  unfold bind at 1. unfold WrapperHandler_isHandler at 1.
  by rewrite (bind_Ret _ _ _ _ _ IH).
Qed.

Lemma thenable_handleIn w x : thenable w x = false → handleIn w x = false.
Proof.
  unfold thenable, handleIn. destruct (refOf x) as [r|]; [|by rewrite andb_false_r].
  intros [_ ->]%orb_false_elim. by rewrite andb_false_r.
Qed.

Lemma awaited_plain w x : thenable w x = false → awaited w x = Ret x.
Proof.
  intros Hx. unfold awaited. destruct x; try by rewrite Hx.
  destruct (isPromise (store w) (VObject r)) eqn:Hp; [|by rewrite Hx].
  unfold thenable in Hx. simpl in *. by rewrite Hp in Hx.
Qed.

Lemma Promise_all_settled (g : Value → Value) xs w :
  Forall (λ x, awaited w x = Ret (g x)) xs →
  Promise_all xs w = (Ret (g <$> xs), w).
Proof.
  intros Hxs. unfold Promise_all.
  assert (firstThrow (map (awaited w) xs) = None
          ∧ allRet (map (awaited w) xs) = Some (g <$> xs)) as [-> ->]; [|done].
  induction Hxs as [|x xs Hx _ [IH1 IH2]]; [done|]. simpl.
  rewrite Hx. by rewrite IH1, IH2.
Qed.

(** Entries that are no handles are awaited in place. *)
Lemma unpackAll_tail_plain w xs :
  Forall (λ x, thenable w x = false) xs →
  zip_with (λ (h : bool) x, if h then VUndefined else x) (handleIn w <$> xs) xs = xs
  ∧ zip_with (λ (h : bool) (xr : Value * Value), if h then xr.1 else xr.2)
      (handleIn w <$> xs) (zip xs ((λ x : Value, x) <$> xs)) = xs.
Proof.
  induction 1 as [|x xs Hx _ [IH1 IH2]]; [done|].
  rewrite !fmap_cons. cbn [zip_with zip].
  rewrite (thenable_handleIn _ _ Hx). split; f_equal; [exact IH1|exact IH2].
Qed.

Lemma unpackAll_carried src xs w :
  Forall2 (λ p x, carried p = Some x) src xs →
  Forall (λ x, thenable w x = false) xs →
  unpackAll src w = (Ret xs, w).
Proof.
  intros Hsrc Hxs. unfold unpackAll.
  rewrite (bind_Ret _ _ _ _ _ (mapM_unpack_carried _ _ _ Hsrc)).
  rewrite (bind_Ret _ _ _ _ _ (mapM_isHandler _ _)).
  destruct (unpackAll_tail_plain w xs Hxs) as [Hwait Hres].
  rewrite Hwait.
  assert (Promise_all xs w = (Ret ((λ x : Value, x) <$> xs), w)) as Hall.
  { apply (Promise_all_settled (λ x, x)). eapply Forall_impl; [exact Hxs|].
    intros x Hx. by apply awaited_plain. }
  rewrite (bind_Ret _ _ _ _ _ Hall). unfold ret. by rewrite Hres.
Qed.

(** X3. An [apply] request whose source token is bound to a function and
    whose [thisArg] and arguments are carried by value calls that function
    once, with the receiver and the arguments in the order of the message;
    what the branch returns or throws is what the call returns or throws. *)
Theorem dispatch_apply_calls_function data w f i p fn args_ thisArg_ xs :
  this w = Some f →
  type data = apply_ → from data = Some i → args data = Some args_ →
  key2Obj f !! i = Some p → settled w p = Ret fn → typeOf fn = "function" →
  Forall2 (λ p x, carried p = Some x) (thisArg data :: args_) (thisArg_ :: xs) →
  Forall (λ x, thenable w x = false) (thisArg_ :: xs) →
  onReceive_switch data w
  = bind (callHost (Reflect_apply fn thisArg_ xs)) (λ v, ret (v, false)) w.
Proof.
  intros Hf Htype Hfrom Hargs Hp Hfn Hkind Hsrc Hxs.
  unfold onReceive_switch. rewrite Htype, Hfrom, Hargs.
  assert (resolveLocal (Some i) (TyString "function") w = (Ret fn, w)) as Hlocal.
  { unfold resolveLocal.
    rewrite (bind_Ret _ _ _ _ _ (own_live key2Obj _ _ Hf)). rewrite Hp.
    assert (await p w = (Ret fn, w)) as Hawait by (unfold await; by rewrite Hfn).
    rewrite (bind_Ret _ _ _ _ _ Hawait).
    unfold getStore at 1. unfold bind at 1. unfold ensureType.
    rewrite (bool_decide_eq_true_2 _ Hkind). simpl.
    by destruct fn. }
  rewrite (bind_Ret _ _ _ _ _ Hlocal).
  rewrite (bind_Ret _ _ _ _ _ (unpackAll_carried _ _ _ Hsrc Hxs)).
  simpl. unfold reflectApply. by rewrite (bool_decide_eq_true_2 _ Hkind).
Qed.

(** X4. A [construct] request whose source token is bound to a function
    and whose arguments are carried by value instantiates that function
    once, with the arguments in the order of the message. *)
Theorem dispatch_construct_calls_constructor data w f i p fn args_ xs :
  this w = Some f →
  type data = construct → from data = Some i → args data = Some args_ →
  key2Obj f !! i = Some p → settled w p = Ret fn →
  typeOf fn = "function" → instanceOf (store w) fn CtorFunction = true →
  Forall2 (λ p x, carried p = Some x) args_ xs →
  Forall (λ x, thenable w x = false) xs →
  onReceive_switch data w
  = bind (callHost (Reflect_construct fn xs)) (λ v, ret (v, false)) w.
Proof.
  intros Hf Htype Hfrom Hargs Hp Hfn Hkind Hinst Hsrc Hxs.
  unfold onReceive_switch. rewrite Htype, Hfrom, Hargs.
  assert (resolveLocal (Some i) (TyConstructor CtorFunction) w = (Ret fn, w)) as Hlocal.
  { unfold resolveLocal.
    rewrite (bind_Ret _ _ _ _ _ (own_live key2Obj _ _ Hf)). rewrite Hp.
    assert (await p w = (Ret fn, w)) as Hawait by (unfold await; by rewrite Hfn).
    rewrite (bind_Ret _ _ _ _ _ Hawait).
    unfold getStore at 1. unfold bind at 1. unfold ensureType.
    rewrite Hinst. simpl. by destruct fn. }
  rewrite (bind_Ret _ _ _ _ _ Hlocal).
  rewrite (bind_Ret _ _ _ _ _ (unpackAll_carried _ _ _ Hsrc Hxs)).
  unfold reflectConstruct. by rewrite (bool_decide_eq_true_2 _ Hkind).
Qed.

(** X5. A call request without an argument list is refused before
    anything is unpacked or called: when the source token of an [apply] or
    [construct] request is bound to a function and the message has no
    [args], the branch throws [TypeError('Arguments are not defined.')] and
    does nothing else. *)
Theorem dispatch_call_without_arguments data w f i p fn :
  this w = Some f →
  from data = Some i → key2Obj f !! i = Some p → settled w p = Ret fn →
  typeOf fn = "function" →
  args data = None →
  type data = apply_
  ∨ (type data = construct ∧ instanceOf (store w) fn CtorFunction = true) →
  onReceive_switch data w = throwError "TypeError" "Arguments are not defined." w.
Proof.
  intros Hf Hfrom Hp Hfn Hkind Hargs Htype.
  assert (await p w = (Ret fn, w)) as Hawait by (unfold await; by rewrite Hfn).
  unfold onReceive_switch.
  destruct Htype as [->|[-> Hinst]]; rewrite Hfrom, Hargs.
  - assert (resolveLocal (Some i) (TyString "function") w = (Ret fn, w)) as Hlocal.
    { unfold resolveLocal.
      rewrite (bind_Ret _ _ _ _ _ (own_live key2Obj _ _ Hf)). rewrite Hp.
      rewrite (bind_Ret _ _ _ _ _ Hawait).
      unfold getStore at 1. unfold bind at 1. unfold ensureType.
      rewrite (bool_decide_eq_true_2 _ Hkind). simpl. by destruct fn. }
    by rewrite (bind_Ret _ _ _ _ _ Hlocal).
  - assert (resolveLocal (Some i) (TyConstructor CtorFunction) w = (Ret fn, w)) as Hlocal.
    { unfold resolveLocal.
      rewrite (bind_Ret _ _ _ _ _ (own_live key2Obj _ _ Hf)). rewrite Hp.
      rewrite (bind_Ret _ _ _ _ _ Hawait).
      unfold getStore at 1. unfold bind at 1. unfold ensureType.
      rewrite Hinst. simpl. by destruct fn. }
    by rewrite (bind_Ret _ _ _ _ _ Hlocal).
Qed.

Lemma mapM_unpack_shadows ks : ∀ w f,
  this w = Some f →
  ∃ hs w' f',
    mapM unpack (PToken shadow <$> ks) w = (Ret hs, w') ∧ this w' = Some f'
    ∧ outbox w' = outbox w
    ∧ resolvers f' = resolvers f ∧ key2Obj f' = key2Obj f
    ∧ (nextRef (store w) ≤ nextRef (store w'))%positive
    ∧ (∀ r, (r < nextRef (store w))%positive → cache w' !! r = cache w !! r)
    ∧ Forall2 (λ h k, ∃ r, h = VFunction r ∧ (nextRef (store w) ≤ r)%positive
                           ∧ id <$> cache w' !! r = Some k) hs ks.
Proof.
  induction ks as [|k ks IH]; intros w f Hf.
  - exists [], w, f. by repeat split.
  - destruct (createShadow_live w f k Hf)
      as (w1 & f1 & Hrun & Hf1 & Hn1 & Hc1 & _ & Hob1 & _ & _ & Hsame).
    destruct (IH w1 f1 Hf1) as (hs & w' & f' & Hrest & Hf' & Hob & Hrs & Hk2o & Hn & Hc & Hhs).
    exists (VFunction (nextRef (store w)) :: hs), w', f'.
    rewrite fmap_cons. simpl.
    assert (unpack (PToken shadow k) w = (Ret (VFunction (nextRef (store w))), w1)) as Hun
      by exact Hrun.
    rewrite (bind_Ret _ _ _ _ _ Hun). rewrite (bind_Ret _ _ _ _ _ Hrest).
    split; [done|]. split; [done|]. split; [congruence|].
    split; [by rewrite Hrs, <- Hsame|]. split; [by rewrite Hk2o, <- Hsame|].
    split; [lia|]. split.
    { intros r Hr. rewrite Hc by lia. rewrite Hc1. by rewrite lookup_insert_ne by lia. }
    constructor.
    + exists (nextRef (store w)). split; [done|]. split; [lia|].
      rewrite Hc by lia. rewrite Hc1. by rewrite lookup_insert_eq.
    + eapply Forall2_impl; [exact Hhs|].
      intros h k' (r & -> & Hr & Hid). exists r. split; [done|]. split; [lia|done].
Qed.

(** Entries that are handles are left out of the wait and kept. *)
Lemma unpackAll_tail_handles w hs :
  Forall (λ h, handleIn w h = true) hs →
  zip_with (λ (h : bool) x, if h then VUndefined else x) (handleIn w <$> hs) hs
  = (λ _, VUndefined) <$> hs
  ∧ zip_with (λ (h : bool) (xr : Value * Value), if h then xr.1 else xr.2)
      (handleIn w <$> hs)
      (zip hs ((λ x : Value, x) <$> ((λ _ : Value, VUndefined) <$> hs))) = hs.
Proof.
  induction 1 as [|h hs Hh _ [IH1 IH2]]; [done|].
  rewrite !fmap_cons. cbn [zip_with zip].
  rewrite Hh. split; f_equal; [exact IH1|exact IH2].
Qed.

(** X6. Shadow tokens are unpacked to handles and are not waited for:
    on a live endpoint [unpackAll] of shadow tokens returns at once, one
    handle per token in the order given, each cached with a handler for its
    token, and posts nothing. *)
Theorem unpackAll_shadow_tokens_not_awaited w f ks :
  this w = Some f →
  ∃ hs w',
    unpackAll (PToken shadow <$> ks) w = (Ret hs, w')
    ∧ outbox w' = outbox w
    ∧ Forall2 (λ h k, ∃ r, h = VFunction r ∧ id <$> cache w' !! r = Some k) hs ks.
Proof.
  intros Hf.
  destruct (mapM_unpack_shadows ks w f Hf)
    as (hs & w' & f' & Hrun & _ & Hob & _ & _ & _ & _ & Hhs).
  exists hs, w'. split; [|split; [done|]].
  - unfold unpackAll. rewrite (bind_Ret _ _ _ _ _ Hrun).
    rewrite (bind_Ret _ _ _ _ _ (mapM_isHandler _ _)).
    assert (Forall (λ h, handleIn w' h = true) hs) as Hall.
    { clear -Hhs.
      induction Hhs as [|h k hs ks (r & -> & _ & Hid) _ IH]; constructor; [|exact IH].
      unfold handleIn. simpl. destruct (cache w' !! r); [|done].
      apply bool_decide_eq_true_2. by eexists. }
    destruct (unpackAll_tail_handles w' hs Hall) as [Hwait Hres].
    rewrite Hwait.
    assert (Promise_all ((λ _, VUndefined) <$> hs) w'
            = (Ret ((λ x : Value, x) <$> ((λ _ : Value, VUndefined) <$> hs)), w')) as Hpa.
    { apply (Promise_all_settled (λ x, x)). apply Forall_fmap. by apply Forall_true. }
    rewrite (bind_Ret _ _ _ _ _ Hpa). unfold ret. by rewrite Hres.
  - eapply Forall2_impl; [exact Hhs|].
    intros h k (r & -> & _ & Hid). by exists r.
Qed.

(** X7. A solid token is resolved to its value before it is used.  When
    the token is bound to a promise that has settled on a value,
    [unpackAll] returns that value in its place and changes nothing.  When
    the token is not bound yet, [unpackAll] posts one [resolve] request for
    it, files the pending promise under the token and waits. *)
Theorem unpackAll_solid_token_is_awaited w f k :
  this w = Some f →
  match key2Obj f !! k with
  | Some p =>
      ∀ v, settled w p = Ret v → cache w !! p = None →
           unpackAll [PToken solid k] w = (Ret [v], w)
  | None =>
      cache w !! nextRef (store w) = None →
      ∃ w' f',
        unpackAll [PToken solid k] w = (Suspend, w') ∧ this w' = Some f'
        ∧ outbox w'
          = outbox w ++ [with_token (nextToken f)
                           (with_from k (message resolve))]
        ∧ key2Obj f' !! k = Some (nextRef (store w))
        ∧ promises (store w') !! nextRef (store w) = Some Pending
  end.
Proof.
  intros Hf. destruct (key2Obj f !! k) as [p|] eqn:Hk.
  - intros v Hv Hc.
    expose w Hf. simpl in Hc.
    unfold unpackAll, mapM, Promise_all, unpack.
    change (bool_decide (solid = shadow)) with false.
    engine. rewrite Hk. cbn. rewrite Hc. cbn.
    assert (is_Some (pr !! p)) as Hpr.
    { unfold settled in Hv. cbn in Hv. destruct (pr !! p); [by eexists|done]. }
    rewrite (bool_decide_eq_true_2 _ Hpr). by rewrite Hv.
  - intros Hc. expose w Hf. simpl in Hc.
    unfold unpackAll, mapM, Promise_all, unpack.
    change (bool_decide (solid = shadow)) with false.
    engine. rewrite Hk. cbn.
    rewrite Hc. cbn. rewrite lookup_insert_eq. cbn.
    unfold settled. cbn. rewrite lookup_insert_eq. cbn.
    eexists _, _. split; [reflexivity|]. cbn.
    split; [reflexivity|]. split; [done|].
    split; cbn; by rewrite lookup_insert_eq.
Qed.

(** *** Round trips *)

(** X8. A symbol turned into a key is found again under that key: on a
    live endpoint whose tables agree on the symbol, [toSymbol] of what
    [fromSymbol] answers is the symbol itself, and [toSymbol] changes
    nothing. *)
Theorem fromSymbol_toSymbol w f sym :
  this w = Some f →
  (∀ k, sym2Key f !! sym = Some k → key2Sym f !! k = Some sym) →
  ∃ k w1, fromSymbol sym w = (Ret k, w1) ∧ toSymbol k w1 = (Ret sym, w1).
Proof.
  intros Hf Hagree. destruct sym as [s|u].
  { by exists (MString s), w. }
  expose w Hf. engine.
  destruct (sym2Key f !! SymUnique u) as [k|] eqn:Hk; cbn.
  - eexists _, _. split; [reflexivity|]. cbn. by rewrite (Hagree k eq_refl).
  - eexists _, _. split; [reflexivity|]. cbn. by rewrite lookup_insert_eq.
Qed.

(** X9. A key turned into a symbol gives the same key back: on a live
    endpoint whose tables agree on the key, [fromSymbol] of what [toSymbol]
    answers is the key, and [fromSymbol] changes nothing.  A string key
    names a registered symbol and uses no table. *)
Theorem toSymbol_fromSymbol w f k :
  this w = Some f →
  (∀ n sym, k = MNumber n → key2Sym f !! n = Some sym →
            sym2Key f !! sym = Some n ∧ ∃ u, sym = SymUnique u) →
  ∃ sym w1, toSymbol k w = (Ret sym, w1) ∧ fromSymbol sym w1 = (Ret k, w1).
Proof.
  intros Hf Hagree. destruct k as [s|n].
  { by exists (SymFor s), w. }
  expose w Hf. engine.
  destruct (key2Sym f !! n) as [sym|] eqn:Hn; cbn.
  - destruct (Hagree n sym eq_refl Hn) as [Hsym [u ->]].
    eexists _, _. split; [reflexivity|]. cbn. by rewrite Hsym.
  - eexists _, _. split; [reflexivity|]. cbn. by rewrite lookup_insert_eq.
Qed.

(** X10. An [Error] crosses the wire with its name, message and stack: it
    is packed as an error entry without a change to the sender, whatever
    [clone] is, and whichever endpoint unpacks the entry gets a new error
    object with the same three fields, which packs to the same entry. *)
Theorem pack_unpack_error w e name message stack clone :
  errorOf (store w) e
  = Some {| ename := name; emessage := Some message; estack := stack |} →
  pack e clone w = (Ret (PError name (Some message) stack), w)
  ∧ ∀ w2 : World Heap, ∃ e' w3,
      unpack (PError name (Some message) stack) w2 = (Ret e', w3)
      ∧ errorOf (store w3) e'
        = Some {| ename := name; emessage := Some message; estack := stack |}
      ∧ this w3 = this w2 ∧ outbox w3 = outbox w2
      ∧ ∀ clone', pack e' clone' w3 = (Ret (PError name (Some message) stack), w3).
Proof.
  intros Herr. split.
  - destruct e; try done; unfold pack, bind, getStore; by rewrite Herr.
  - intros [th [nr ns er pr bx hp] gs ca rv ob].
    eexists _, _. split; [reflexivity|]. cbn.
    split. { unfold errorOf. cbn. by rewrite lookup_insert_eq. }
    split; [done|]. split; [done|].
    intros clone'. unfold pack, bind, getStore, errorOf. cbn.
    by rewrite lookup_insert_eq.
Qed.

(** X11. A handle is packed as the token it stands for.  On a live
    endpoint whose next object identity is not in use, the handle that
    [unpack] makes for a shadow token is packed as that shadow token again,
    and packing it registers nothing and changes nothing. *)
Theorem handle_packs_to_its_token w f k :
  this w = Some f →
  errors (store w) !! nextRef (store w) = None →
  nextRef (store w) ∉ solidObjects f →
  nextRef (store w) ∉ globalSolidObjects w →
  ∃ h w1, unpack (PToken shadow k) w = (Ret h, w1)
          ∧ pack h false w1 = (Ret (PToken shadow k), w1).
Proof.
  intros Hf Herr Hsol Hgsol. expose w Hf. simpl in *.
  unfold unpack. change (bool_decide (shadow = shadow)) with true.
  engine.
  assert (∀ cbs, pack (VFunction nr) false
            {| this := Some (with_disposableCallbacks cbs f);
               store := {| nextRef := Pos.succ nr; nextSym := ns; errors := er;
                           promises := pr; boxed := bx; heap := hp |};
               globalSolidObjects := gs;
               cache := <[nr := {| id := k; resolvePromise := None; identity := nr |}]> ca;
               revoked := rv; outbox := ob |}
          = (Ret (PToken shadow k),
             {| this := Some (with_disposableCallbacks cbs f);
                store := {| nextRef := Pos.succ nr; nextSym := ns; errors := er;
                            promises := pr; boxed := bx; heap := hp |};
                globalSolidObjects := gs;
                cache := <[nr := {| id := k; resolvePromise := None; identity := nr |}]> ca;
                revoked := rv; outbox := ob |})) as Hpack.
  { intros cbs. unfold errorOf. engine. rewrite Herr. cbn.
    rewrite (bool_decide_eq_false_2 _ Hsol), (bool_decide_eq_false_2 _ Hgsol). cbn.
    rewrite lookup_insert_eq. cbn.
    by rewrite (bool_decide_eq_false_2 _ Hsol), (bool_decide_eq_false_2 _ Hgsol). }
  destruct (bool_decide (CbRevoke nr ∈ disposableCallbacks f)); cbn.
  - eexists _, _. split; [reflexivity|].
    specialize (Hpack (disposableCallbacks f)). by destruct f.
  - eexists _, _. split; [reflexivity|]. apply Hpack.
Qed.

(** X12. An object keeps the token it was given.  On a live endpoint
    [registerToken] of an object or function answers a token, and every
    later [registerToken] of the same value answers that token again,
    whatever token is proposed, and changes nothing. *)
Theorem registerToken_keeps_token w f obj tok :
  this w = Some f →
  isReferenceType obj = true →
  ∃ k w1, registerToken obj tok w = (Ret k, w1)
          ∧ ∀ tok', registerToken obj tok' w1 = (Ret k, w1).
Proof.
  intros Hf Href.
  assert (∃ r, refOf obj = Some r) as [r Hr] by (destruct obj; try done; by eexists).
  assert (∀ w0 f0 i tok', this w0 = Some f0 → cache w0 !! r = None →
            obj2Key f0 !! r = Some i → registerToken obj tok' w0 = (Ret i, w0))
    as Hknown.
  { intros w0 f0 i tok' Hf0 Hc0 Hi. unfold registerToken.
    unfold bind at 1. unfold WrapperHandler_static_get. rewrite Href, Hr. cbn.
    rewrite Hc0. rewrite (bind_Ret _ _ _ _ _ (own_live obj2Key _ _ Hf0)).
    cbn. by rewrite Hi. }
  destruct (cache w !! r) as [h|] eqn:Hc.
  { exists (id h), w.
    assert (∀ tok', registerToken obj tok' w = (Ret (id h), w)) as Hhandle.
    { intros tok'. unfold registerToken. unfold bind at 1.
      unfold WrapperHandler_static_get. rewrite Href, Hr. cbn. by rewrite Hc. }
    split; [apply Hhandle|exact Hhandle]. }
  destruct (obj2Key f !! r) as [i|] eqn:Hi.
  { exists i, w. split; [by eapply Hknown|]. intros tok'. by eapply Hknown. }
  assert (∃ i w0 f0, match tok with
                     | None => aquireToken
                     | Some t => ret t
                     end w = (Ret i, w0)
                     ∧ this w0 = Some f0 ∧ cache w0 = cache w)
    as (i & w0 & f0 & Htok & Hf0 & Hc0).
  { destruct tok as [t|].
    - by exists t, w, f.
    - eexists _, _, _. split; [by apply aquireToken_live|]. by cbn. }
  destruct (storeLocal_spec i obj w0 f0 Hf0)
    as ([] & w1 & Hstore & p & f1 & Hf1 & _ & _ & Ho2k & _ & _ & Hc1 & _).
  exists i, w1. split.
  - unfold registerToken. unfold bind at 1.
    unfold WrapperHandler_static_get. rewrite Href, Hr. cbn. rewrite Hc.
    rewrite (bind_Ret _ _ _ _ _ (own_live obj2Key _ _ Hf)). cbn. rewrite Hi.
    rewrite (bind_Ret _ _ _ _ _ Htok). by rewrite (bind_Ret _ _ _ _ _ Hstore).
  - intros tok'. eapply Hknown; [done| |by apply Ho2k]. by rewrite Hc1, Hc0.
Qed.

(** X13. What is stored under a token is found under it.  On a live
    endpoint, after [storeLocal] of an allocated object or function that is
    no thenable, [resolveLocal] of the token with the kind of the value
    returns the value itself and changes nothing. *)
Theorem storeLocal_resolveLocal w f i v :
  this w = Some f →
  isReferenceType v = true →
  thenable w v = false →
  (∀ r, refOf v = Some r → (r < nextRef (store w))%positive) →
  ∃ w1, storeLocal (Some i) v w = (Ret tt, w1)
        ∧ resolveLocal (Some i) (TyString (typeOf v)) w1 = (Ret v, w1).
Proof.
  intros Hf Href Hthen Halloc.
  destruct (storeLocal_spec i v w f Hf)
    as ([] & w1 & Hstore & p & f1 & Hf1 & Hk2o & Hres & _ & _ & _ & Hc1 & [_ Hkeep]).
  exists w1. split; [done|].
  assert (thenable w1 v = false) as Hthen1.
  { unfold thenable in *. destruct (refOf v) as [r|]; [|done].
    rewrite Hc1. rewrite Hkeep; [done|]. by apply Halloc. }
  unfold resolveLocal.
  rewrite (bind_Ret _ _ _ _ _ (own_live key2Obj _ _ Hf1)).
  rewrite Hk2o, lookup_insert_eq.
  assert (await p w1 = (Ret v, w1)) as Hawait.
  { unfold await. by rewrite (resolvedWith_settled _ _ _ Hres Hthen1). }
  rewrite (bind_Ret _ _ _ _ _ Hawait).
  unfold getStore at 1. unfold bind at 1. unfold ensureType.
  rewrite bool_decide_eq_true_2 by done. simpl. by rewrite Href.
Qed.

(** *** How an object is packed *)

Lemma storeLocal_frame i v w f :
  this w = Some f →
  ∃ w1 f1, storeLocal (Some i) v w = (Ret tt, w1) ∧ this w1 = Some f1
           ∧ errors (store w1) = errors (store w)
           ∧ solidObjects f1 = solidObjects f
           ∧ globalSolidObjects w1 = globalSolidObjects w.
Proof.
  intros Hf. expose w Hf. unfold isPromise. engine.
  destruct v; cbn; try (eexists _, _; split; [reflexivity|]; by cbn).
  destruct (bool_decide (is_Some (pr !! r))); cbn;
    eexists _, _; (split; [reflexivity|]); by cbn.
Qed.

(** X14. An object that the endpoint has not seen is packed by
    reference.  On a live endpoint, [pack] of an object or function that is
    no [Error], no handle, not solid and not registered takes the next
    token, binds the token to the object in both directions, so that a
    request of the remote for the token finds the object, posts nothing,
    and answers a shadow token; packing the object again answers the same
    token and changes nothing. *)
Theorem pack_registers_object w f obj r :
  this w = Some f →
  refOf obj = Some r →
  errorOf (store w) obj = None →
  cache w !! r = None →
  r ∉ solidObjects f → r ∉ globalSolidObjects w →
  obj2Key f !! r = None →
  ∃ w1 f1 p,
    pack obj false w = (Ret (PToken shadow (nextToken f)), w1)
    ∧ this w1 = Some f1
    ∧ key2Obj f1 !! (nextToken f) = Some p
    ∧ resolvedWith w1 p obj
    ∧ obj2Key f1 !! r = Some (nextToken f)
    ∧ outbox w1 = outbox w
    ∧ pack obj false w1 = (Ret (PToken shadow (nextToken f)), w1).
Proof.
  intros Hf Hr Herr Hc Hsol Hgsol Hnew.
  assert (isReferenceType obj = true) as Href by by destruct obj.
  assert (∀ w0 f0, this w0 = Some f0 → errorOf (store w0) obj = None →
            solidObjects f0 = solidObjects f →
            globalSolidObjects w0 = globalSolidObjects w →
            pack obj false w0
            = bind (registerToken obj None) (λ k, ret (PToken shadow k)) w0) as Hpack.
  { intros w0 f0 Hf0 Herr0 Hso0 Hgs0.
    assert (isSolid obj w0 = (Ret false, w0)) as Hns.
    { unfold isSolid. rewrite Hr.
      rewrite (bind_Ret _ _ _ _ _ (own_live solidObjects _ _ Hf0)).
      rewrite Hso0, Hgs0.
      by rewrite (bool_decide_eq_false_2 _ Hsol), (bool_decide_eq_false_2 _ Hgsol). }
    assert (pack obj false w0
            = bind getStore (λ s,
                match errorOf s obj with
                | Some e => ret (PError (ename e) (emessage e) (estack e))
                | None =>
                    bind (bind (isSolid obj) (λ sol,
                            if sol then bind (WrapperHandler_isHandler obj) (λ h, ret (negb h))
                            else ret false))
                      (λ byValue : bool,
                         if byValue then ret (PValue obj)
                         else bind (isSolid obj) (λ sol,
                                bind (registerToken obj None) (λ k,
                                  ret (PToken (if sol : bool then solid else shadow) k))))
                end) w0) as -> by by destruct obj.
    unfold getStore at 1. unfold bind at 1. rewrite Herr0.
    unfold bind at 1. rewrite (bind_Ret _ _ _ _ _ Hns). unfold ret at 1.
    by rewrite (bind_Ret _ _ _ _ _ Hns). }
  rewrite (Hpack w f Hf Herr eq_refl eq_refl).
  assert (registerToken obj None w
          = bind aquireToken (λ i, bind (storeLocal (Some i) obj) (λ _, ret i)) w) as Hreg.
  { unfold registerToken. unfold bind at 1. unfold WrapperHandler_static_get.
    rewrite Href, Hr. cbn. rewrite Hc.
    rewrite (bind_Ret _ _ _ _ _ (own_live obj2Key _ _ Hf)). cbn. by rewrite Hnew. }
  destruct (storeLocal_spec (nextToken f) obj
              (with_this (Some (countedOn f)) w)
              _ eq_refl)
    as ([] & w1 & Hstore & p & f1 & Hf1 & Hk2o & Hres & Ho2k & _ & Hob & Hc1 & _).
  assert (registerToken obj None w = (Ret (nextToken f), w1)) as Hrun.
  { rewrite Hreg. rewrite (bind_Ret _ _ _ _ _ (aquireToken_live _ _ Hf)).
    by rewrite (bind_Ret _ _ _ _ _ Hstore). }
  exists w1, f1, p. split; [by rewrite (bind_Ret _ _ _ _ _ Hrun)|].
  split; [done|]. split; [by rewrite Hk2o, lookup_insert_eq|].
  split; [done|]. split; [by apply Ho2k|]. split; [done|].
  destruct (storeLocal_frame (nextToken f) obj
              (with_this (Some (countedOn f)) w)
              _ eq_refl)
    as (w1' & f1' & Hstore' & Hf1' & Her & Hso & Hgs).
  rewrite Hstore in Hstore'. injection Hstore' as <-.
  rewrite Hf1 in Hf1'. injection Hf1' as <-.
  rewrite (Hpack w1 f1 Hf1); [|unfold errorOf in *; by rewrite Her|done|done].
  assert (registerToken obj None w1 = (Ret (nextToken f), w1)) as Hknown.
  { unfold registerToken. unfold bind at 1. unfold WrapperHandler_static_get.
    rewrite Href, Hr. cbn. rewrite Hc1. cbn. rewrite Hc.
    rewrite (bind_Ret _ _ _ _ _ (own_live obj2Key _ _ Hf1)). cbn.
    by rewrite (Ho2k r Hr). }
  by rewrite (bind_Ret _ _ _ _ _ Hknown).
Qed.

(** X15. The solid mark decides how an object travels.  On a live
    endpoint, after [setSolid] of an object or function that is no [Error],
    [isSolid] answers [true] and [pack] answers the value itself, to be
    cloned, or, for a handle, a solid token with the handle's token; marking
    posts nothing, and marking again changes nothing. *)
Theorem setSolid_then_pack w f obj r :
  this w = Some f →
  refOf obj = Some r →
  errorOf (store w) obj = None →
  ∃ w1,
    setSolid obj w = (Ret tt, w1)
    ∧ outbox w1 = outbox w
    ∧ isSolid obj w1 = (Ret true, w1)
    ∧ pack obj false w1
      = (Ret match cache w !! r with
             | Some self => PToken solid (id self)
             | None => PValue obj
             end, w1)
    ∧ setSolid obj w1 = (Ret tt, w1).
Proof.
  intros Hf Hr Herr.
  assert (isReferenceType obj = true) as Href by by destruct obj.
  set (f1 := with_solidObjects ({[r]} ∪ solidObjects f) f).
  set (w1 := with_this (Some f1) w).
  assert (this w1 = Some f1) as Hf1 by done.
  assert (∀ w0 f0, this w0 = Some f0 →
            setSolid obj w0
            = (Ret tt, with_this (Some (with_solidObjects ({[r]} ∪ solidObjects f0) f0)) w0))
    as Hset.
  { intros w0 f0 Hf0. unfold setSolid. rewrite Hr.
    rewrite (bind_Ret _ _ _ _ _ (own_live solidObjects _ _ Hf0)).
    by rewrite (update_live _ _ _ Hf0). }
  assert (isSolid obj w1 = (Ret true, w1)) as Hsolid.
  { unfold isSolid. rewrite Hr.
    rewrite (bind_Ret _ _ _ _ _ (own_live solidObjects _ _ Hf1)). cbn.
    rewrite (bool_decide_eq_true_2 (r ∈ {[r]} ∪ solidObjects f)) by set_solver.
    done. }
  exists w1. split; [by apply Hset|]. split; [done|]. split; [done|]. split.
  - assert (pack obj false w1
            = bind getStore (λ s,
                match errorOf s obj with
                | Some e => ret (PError (ename e) (emessage e) (estack e))
                | None =>
                    bind (bind (isSolid obj) (λ sol,
                            if sol then bind (WrapperHandler_isHandler obj) (λ h, ret (negb h))
                            else ret false))
                      (λ byValue : bool,
                         if byValue then ret (PValue obj)
                         else bind (isSolid obj) (λ sol,
                                bind (registerToken obj None) (λ k,
                                  ret (PToken (if sol : bool then solid else shadow) k))))
                end) w1) as -> by by destruct obj.
    unfold getStore at 1. unfold bind at 1.
    change (store w1) with (store w). rewrite Herr.
    unfold bind at 1. rewrite (bind_Ret _ _ _ _ _ Hsolid).
    unfold bind at 1. unfold WrapperHandler_isHandler at 1.
    rewrite Href, Hr. change (cache w1) with (cache w). cbn [andb].
    destruct (cache w !! r) as [self|] eqn:Hc.
    + rewrite bool_decide_eq_true_2 by by eexists. unfold ret at 1. cbn [negb].
      rewrite (bind_Ret _ _ _ _ _ Hsolid).
      unfold registerToken. unfold bind at 1. unfold bind at 1.
      unfold WrapperHandler_static_get. rewrite Href, Hr.
      change (cache w1) with (cache w). cbn. by rewrite Hc.
    + rewrite bool_decide_eq_false_2 by by intros [? ?]. done.
  - rewrite (Hset w1 f1 Hf1). unfold w1, f1, with_this, with_solidObjects. cbn.
    by rewrite (assoc_L (∪)), union_idemp_L.
Qed.

(** *** The traps of a handle *)

Lemma messageKey_keyed k w f :
  this w = Some f →
  ∃ mk w1 f1,
    messageKey k w = (Ret mk, w1) ∧ keyed k w mk w1
    ∧ this w1 = Some f1 ∧ outbox w1 = outbox w.
Proof.
  intros Hf. destruct k as [s|n|sym].
  - by exists (MString s, false), w, f.
  - by exists (MNumber n, false), w, f.
  - destruct (fromSymbol_spec sym w f Hf)
      as (k' & w1 & Hrun & f0 & f1 & _ & Hf1 & _ & _ & _ & _ & _ & Hob & _).
    exists (k', true), w1, f1. split; [|done].
    unfold messageKey. by rewrite (bind_Ret _ _ _ _ _ Hrun).
Qed.

Lemma mapM_pack_total args_ : ∀ w f,
  this w = Some f →
  returns (mapM (λ arg, pack arg false) args_) w (λ ps w',
    live w' ∧ outbox w' = outbox w ∧ length ps = length args_).
Proof.
  induction args_ as [|a args_ IH]; intros w f Hf.
  - apply returns_ret. split; [by exists f|done].
  - simpl. apply returns_bind.
    eapply returns_mono; [by apply (pack_total _ _ _ f)|].
    intros p w1 [[f1 Hf1] Hob1]. cbn beta.
    apply returns_bind.
    eapply returns_mono; [by apply (IH _ f1)|].
    intros ps w2 (Hlive & Hob2 & Hlen). cbn beta.
    apply returns_ret. split; [done|]. split; [congruence|]. simpl. by rewrite Hlen.
Qed.

(** Posting a request and answering with a handle for its result. *)
Lemma forward_spec msg t w f :
  this w = Some f →
  ∃ h w', bind (send msg) (λ _, resolveRemote t true) w = (Ret (VFunction h), w')
          ∧ outbox w' = outbox w ++ [msg]
          ∧ id <$> cache w' !! h = Some t.
Proof.
  intros Hf. rewrite (bind_Ret _ _ _ _ _ (send_live msg _ _ Hf)).
  destruct (createShadow_live (with_outbox (outbox w ++ [msg]) w) f t Hf)
    as (w' & f' & Hrun & _ & _ & Hc & _ & Hob & _).
  eexists _, w'. split; [exact Hrun|]. split; [done|].
  rewrite Hc. by rewrite lookup_insert_eq.
Qed.

(** X16. Reading a property through a handle does not wait.  For a key
    that the wrapped function does not have, the [get] trap on a live
    endpoint takes the next token, turns a symbol key into what
    [fromSymbol] answers for it, and posts exactly one [prepare] request:
    the handle's token as source, that key with [isSymbol] set for a symbol
    and the given key otherwise, the new token as destination, and no
    correlation token.  It returns a new handle for the new token. *)
Theorem get_trap_posts_prepare w f self k :
  this w = Some f →
  targetHas k = false →
  ∃ mk w1 h w',
    keyed k (with_this (Some (countedOn f)) w) mk w1
    ∧ WrapperHandler_get self k w = (Ret (VFunction h), w')
    ∧ outbox w'
      = outbox w ++ [with_into (nextToken f)
                       (with_key mk.1 mk.2 (with_from (id self) (message prepare)))]
    ∧ id <$> cache w' !! h = Some (nextToken f).
Proof.
  intros Hf Hhas. unfold WrapperHandler_get. rewrite Hhas.
  rewrite (bind_Ret _ _ _ _ _ (aquireToken_live _ _ Hf)).
  destruct (messageKey_keyed k (with_this (Some (countedOn f)) w) _ eq_refl)
    as (mk & w1 & f1 & Hkey & Hkeyed & Hf1 & Hob).
  rewrite (bind_Ret _ _ _ _ _ Hkey).
  destruct (forward_spec
              (with_into (nextToken f)
                 (with_key mk.1 mk.2 (with_from (id self) (message prepare))))
              (nextToken f) w1 f1 Hf1) as (h & w' & Hrun & Hob' & Hid).
  exists mk, w1, h, w'. split; [done|]. split; [exact Hrun|].
  split; [by rewrite Hob', Hob|done].
Qed.

(** X17. Calling or instantiating through a handle does not wait
    either.  On a live endpoint the [apply] trap takes the next token,
    packs the receiver and then the arguments, one after the other in
    their order, and posts exactly one [apply] request: the handle's token
    as source, what [pack] answered for the receiver and for each argument,
    the new token as destination, and no correlation token.  The
    [construct] trap does the same without a receiver.  Both return a new
    handle for the new token. *)
Theorem call_traps_post_one_request w f self thisArg_ args_ :
  this w = Some f →
  (∃ packedThis w1 packedArgs w2 h w',
     pack thisArg_ false (with_this (Some (countedOn f)) w) = (Ret packedThis, w1)
     ∧ mapM (λ arg, pack arg false) args_ w1 = (Ret packedArgs, w2)
     ∧ length packedArgs = length args_
     ∧ WrapperHandler_apply self thisArg_ args_ w = (Ret (VFunction h), w')
     ∧ outbox w'
       = outbox w ++ [with_into (nextToken f)
                        (with_args packedArgs (with_thisArg packedThis
                          (with_from (id self) (message apply_))))]
     ∧ id <$> cache w' !! h = Some (nextToken f))
  ∧ (∃ packedArgs w2 h w',
       mapM (λ arg, pack arg false) args_ (with_this (Some (countedOn f)) w)
       = (Ret packedArgs, w2)
       ∧ length packedArgs = length args_
       ∧ WrapperHandler_construct self args_ w = (Ret (VFunction h), w')
       ∧ outbox w'
         = outbox w ++ [with_into (nextToken f)
                          (with_args packedArgs (with_from (id self) (message construct)))]
       ∧ id <$> cache w' !! h = Some (nextToken f)).
Proof.
  intros Hf. split.
  - unfold WrapperHandler_apply.
    rewrite (bind_Ret _ _ _ _ _ (aquireToken_live _ _ Hf)).
    destruct (pack_total thisArg_ false
                (with_this (Some (countedOn f)) w)
                _ eq_refl)
      as (packedThis & w1 & Hthis & [f1 Hf1] & Hob1).
    rewrite (bind_Ret _ _ _ _ _ Hthis).
    destruct (mapM_pack_total args_ w1 f1 Hf1)
      as (packedArgs & w2 & Hargs & [f2 Hf2] & Hob2 & Hlen).
    rewrite (bind_Ret _ _ _ _ _ Hargs).
    destruct (forward_spec
                (with_into (nextToken f)
                   (with_args packedArgs (with_thisArg packedThis
                      (with_from (id self) (message apply_)))))
                (nextToken f) w2 f2 Hf2) as (h & w' & Hrun & Hob' & Hid).
    exists packedThis, w1, packedArgs, w2, h, w'.
    split; [done|]. split; [done|]. split; [done|]. split; [exact Hrun|].
    split; [by rewrite Hob', Hob2, Hob1|done].
  - unfold WrapperHandler_construct.
    rewrite (bind_Ret _ _ _ _ _ (aquireToken_live _ _ Hf)).
    destruct (mapM_pack_total args_
                (with_this (Some (countedOn f)) w)
                _ eq_refl)
      as (packedArgs & w2 & Hargs & [f2 Hf2] & Hob2 & Hlen).
    rewrite (bind_Ret _ _ _ _ _ Hargs).
    destruct (forward_spec
                (with_into (nextToken f)
                   (with_args packedArgs (with_from (id self) (message construct))))
                (nextToken f) w2 f2 Hf2) as (h & w' & Hrun & Hob' & Hid).
    exists packedArgs, w2, h, w'.
    split; [done|]. split; [done|]. split; [exact Hrun|].
    split; [by rewrite Hob', Hob2|done].
Qed.

(** X18. Writing and deleting through a handle.  For a key that the
    wrapped function has, the [set] and [deleteProperty] traps answer
    [false] and do nothing.  For any other key, on a live endpoint, they
    post exactly one request and answer [true] without waiting for the
    remote: [assign] with the handle's token as source, the key (what
    [fromSymbol] answers, for a symbol) and what [pack] answers for the
    value, or [delete] with the source and the key; the request carries
    neither a correlation token nor a destination. *)
Theorem write_traps_post_one_request w f self k v :
  this w = Some f →
  if targetHas k
  then WrapperHandler_set self k v w = (Ret (VBoolean false), w)
       ∧ WrapperHandler_deleteProperty self k w = (Ret (VBoolean false), w)
  else ∃ mk w1,
         keyed k w mk w1
         ∧ (∃ packed w2,
              pack v false w1 = (Ret packed, w2)
              ∧ WrapperHandler_set self k v w
                = (Ret (VBoolean true),
                   with_outbox
                     (outbox w ++ [with_value packed
                                     (with_key mk.1 mk.2
                                        (with_from (id self) (message assign)))]) w2))
         ∧ WrapperHandler_deleteProperty self k w
           = (Ret (VBoolean true),
              with_outbox
                (outbox w ++ [with_key mk.1 mk.2
                                (with_from (id self) (message delete_))]) w1).
Proof.
  intros Hf. unfold WrapperHandler_set, WrapperHandler_deleteProperty.
  destruct (targetHas k); [done|].
  destruct (messageKey_keyed k w f Hf) as (mk & w1 & f1 & Hkey & Hkeyed & Hf1 & Hob).
  exists mk, w1. split; [done|]. split.
  - destruct (pack_total v false w1 f1 Hf1) as (packed & w2 & Hpack & [f2 Hf2] & Hob2).
    exists packed, w2. split; [done|].
    rewrite (bind_Ret _ _ _ _ _ Hkey). rewrite (bind_Ret _ _ _ _ _ Hpack).
    rewrite (bind_Ret _ _ _ _ _ (send_live _ _ _ Hf2)).
    unfold ret. by rewrite Hob2, Hob.
  - rewrite (bind_Ret _ _ _ _ _ Hkey).
    rewrite (bind_Ret _ _ _ _ _ (send_live _ _ _ Hf1)).
    unfold ret. by rewrite Hob.
Qed.

(** *** What a dispatch is made of

    Every method that a dispatch or a handle operation runs is made of
    steps of four kinds: a change to the heap or to the proxy cache, an
    update of an own table that leaves [solidObjects] alone, a message
    posted by a live endpoint, and nothing at all.  A relation that
    contains these steps and is reflexive and transitive therefore holds
    between the worlds before and after. *)

Section Frame.
Variable R : World Heap → World Heap → Prop.
Hypothesis R_refl : ∀ w, R w w.
Hypothesis R_trans : ∀ w1 w2 w3, R w1 w2 → R w2 w3 → R w1 w3.
Hypothesis R_heap : ∀ w s c, R w (with_cache c (with_store s w)).
Hypothesis R_tables : ∀ w f f',
  this w = Some f → solidObjects f' = solidObjects f → R w (with_this (Some f') w).
Hypothesis R_post : ∀ w f m,
  this w = Some f → R w (with_outbox (outbox w ++ [m]) w).

Lemma preserves_ret {A} (a : A) : preserves R (@ret Heap A a).
Proof. intros w o w' [= <- <-]. apply R_refl. Qed.

Lemma preserves_bind {A B} (c : M Heap A) (k : A → M Heap B) :
  preserves R c → (∀ a, preserves R (k a)) → preserves R (bind c k).
Proof.
  intros Hc Hk w o w'. unfold bind.
  destruct (c w) as [[a|e|] w1] eqn:Hrun.
  - intros Hrun'. eapply R_trans; [by eapply Hc|by eapply Hk].
  - intros [= <- <-]. by eapply Hc.
  - intros [= <- <-]. by eapply Hc.
Qed.

Lemma preserves_try_catch {A} (c : M Heap A) h :
  preserves R c → (∀ e, preserves R (h e)) → preserves R (try_catch c h).
Proof.
  intros Hc Hh w o w'. unfold try_catch.
  destruct (c w) as [[a|e|] w1] eqn:Hrun.
  - intros [= <- <-]. by eapply Hc.
  - intros Hrun'. eapply R_trans; [by eapply Hc|by eapply Hh].
  - intros [= <- <-]. by eapply Hc.
Qed.

Lemma preserves_mapM {A B} (g : A → M Heap B) l :
  (∀ a, preserves R (g a)) → preserves R (mapM g l).
Proof.
  intros Hg. induction l as [|a l IH]; simpl.
  - apply preserves_ret.
  - apply preserves_bind; [done|]. intros b.
    apply preserves_bind; [done|]. intros bs. apply preserves_ret.
Qed.

(** A step on the heap and the cache only. *)
Lemma preserves_heap {A} (c : M Heap A) :
  (∀ w, this (c w).2 = this w
        ∧ globalSolidObjects (c w).2 = globalSolidObjects w
        ∧ revoked (c w).2 = revoked w
        ∧ outbox (c w).2 = outbox w) →
  preserves R c.
Proof.
  intros Hsame w o w' Hrun. destruct (Hsame w) as (Hth & Hgs & Hrv & Hob).
  rewrite Hrun in Hth, Hgs, Hrv, Hob. simpl in *.
  replace w' with (with_cache (cache w') (with_store (store w') w)); [apply R_heap|].
  destruct w, w'. simpl in *. by subst.
Qed.

Lemma throwError_heap {A} name message w :
  this (@throwError Heap A name message w).2 = this w
  ∧ globalSolidObjects (@throwError Heap A name message w).2 = globalSolidObjects w
  ∧ revoked (@throwError Heap A name message w).2 = revoked w
  ∧ outbox (@throwError Heap A name message w).2 = outbox w.
Proof. by destruct w as [th [nr ns er pr bx hp] gs ca rv ob]. Qed.

Lemma preserves_throwError {A} name message :
  preserves R (@throwError Heap A name message).
Proof. apply preserves_heap. intros w. apply throwError_heap. Qed.

Lemma preserves_own {A} (proj : Fields → A) : preserves R (@own Heap A proj).
Proof.
  apply preserves_heap. intros w. unfold own.
  destruct (this w) eqn:Hf; [done|]. rewrite <- Hf. apply throwError_heap.
Qed.

Lemma preserves_update upd :
  (∀ f, solidObjects (upd f) = solidObjects f) → preserves R (@update Heap upd).
Proof.
  intros Hupd w o w'. unfold update. destruct (this w) as [f|] eqn:Hf.
  - intros [= <- <-]. by eapply R_tables.
  - intros Hrun. by eapply preserves_throwError.
Qed.

Lemma preserves_send data : preserves R (@send Heap data).
Proof.
  intros w o w'. unfold send. destruct (this w) as [f|] eqn:Hf.
  - rewrite (bind_Ret _ _ _ _ _ (own_live port _ _ Hf)).
    intros [= <- <-]. by eapply R_post.
  - unfold bind, own. rewrite Hf.
    destruct (throwError "TypeError" "Cannot read properties of undefined" w)
      as [[a|e|] w1] eqn:Hthrow; try done;
      intros [= <- <-]; by eapply (@preserves_throwError Port).
Qed.

Lemma preserves_callHost (h : Store Heap → Completion * Store Heap) :
  preserves R (callHost h).
Proof.
  apply preserves_heap. intros w. unfold callHost.
  by destruct (h (store w)) as [[v|e] s].
Qed.

Lemma preserves_settle p st : preserves R (@settle Heap p st).
Proof.
  apply preserves_heap. intros w. unfold settle.
  by destruct (promises (store w) !! p) as [[]|].
Qed.

Lemma preserves_Promise_all vs : preserves R (@Promise_all Heap vs).
Proof.
  apply preserves_heap. intros w. unfold Promise_all.
  destruct (firstThrow _); [done|]. by destruct (allRet _).
Qed.

Create HintDb frames discriminated.
#[local] Hint Resolve preserves_ret preserves_own preserves_throwError
  preserves_send preserves_callHost preserves_settle preserves_Promise_all : frames.

Ltac frames :=
  repeat first
    [ solve [auto with frames]
    | apply preserves_bind; [|intros ?]
    | apply preserves_try_catch; [|intros ?]
    | apply preserves_mapM; intros ?
    | solve [apply preserves_update; intros ?; reflexivity]
    | match goal with
      | |- preserves _ (match ?x with _ => _ end) => destruct x
      end
    | solve [apply preserves_heap; intros [? [? ? ? ? ? ?] ? ? ? ?]; by repeat split] ].

Lemma preserves_aquireToken : preserves R (@aquireToken Heap).
Proof. unfold aquireToken. frames. Qed.
#[local] Hint Resolve preserves_aquireToken : frames.

Lemma preserves_newPromise st : preserves R (@newPromise Heap st).
Proof. unfold newPromise, alloc. frames. Qed.
#[local] Hint Resolve preserves_newPromise : frames.

Lemma preserves_sendAndWait data : preserves R (@sendAndWait Heap data).
Proof. unfold sendAndWait. frames. Qed.
#[local] Hint Resolve preserves_sendAndWait : frames.

Lemma preserves_onDispose callback : preserves R (@onDispose Heap callback).
Proof. unfold onDispose. frames. Qed.
#[local] Hint Resolve preserves_onDispose : frames.

Lemma preserves_createShadow t : preserves R (@createShadow Heap t).
Proof. unfold createShadow, WrapperHandler_resolve_shadow, alloc. frames. Qed.
#[local] Hint Resolve preserves_createShadow : frames.

Lemma preserves_resolveRemote t shadowed :
  preserves R (@resolveRemote Heap t shadowed).
Proof. unfold resolveRemote. frames. Qed.
#[local] Hint Resolve preserves_resolveRemote : frames.

Lemma preserves_toSymbol k : preserves R (@toSymbol Heap k).
Proof. unfold toSymbol, newSymbol. frames. Qed.
#[local] Hint Resolve preserves_toSymbol : frames.

Lemma preserves_fromSymbol sym : preserves R (@fromSymbol Heap sym).
Proof. unfold fromSymbol. frames. Qed.
#[local] Hint Resolve preserves_fromSymbol : frames.

Lemma preserves_unpack v : preserves R (@unpack Heap v).
Proof. unfold unpack, newError. frames. Qed.
#[local] Hint Resolve preserves_unpack : frames.

Lemma preserves_isHandler v : preserves R (@WrapperHandler_isHandler Heap v).
Proof. unfold WrapperHandler_isHandler. frames. Qed.
#[local] Hint Resolve preserves_isHandler : frames.

Lemma preserves_unpackAll src : preserves R (@unpackAll Heap src).
Proof. unfold unpackAll. frames. Qed.
#[local] Hint Resolve preserves_unpackAll : frames.

Lemma preserves_resolveLocal id_ type_ :
  preserves R (@resolveLocal Heap _ id_ type_).
Proof. unfold resolveLocal, await, getStore, box, alloc. cbv zeta. frames. Qed.
#[local] Hint Resolve preserves_resolveLocal : frames.

Lemma preserves_resolveKey data : preserves R (@resolveKey Heap data).
Proof. unfold resolveKey. frames. Qed.
#[local] Hint Resolve preserves_resolveKey : frames.

Lemma preserves_popResolver t : preserves R (@popResolver Heap t).
Proof. unfold popResolver. frames. Qed.
#[local] Hint Resolve preserves_popResolver : frames.

Lemma preserves_storeLocal id_ obj : preserves R (@storeLocal Heap id_ obj).
Proof. unfold storeLocal, Promise_resolve, getStore. frames. Qed.
#[local] Hint Resolve preserves_storeLocal : frames.

Lemma preserves_registerToken obj t : preserves R (@registerToken Heap obj t).
Proof. unfold registerToken, WrapperHandler_static_get. frames. Qed.
#[local] Hint Resolve preserves_registerToken : frames.

Lemma preserves_isSolid obj : preserves R (@isSolid Heap obj).
Proof. unfold isSolid. frames. Qed.
#[local] Hint Resolve preserves_isSolid : frames.

Lemma preserves_pack v clone : preserves R (@pack Heap v clone).
Proof. unfold pack, getStore. frames. Qed.
#[local] Hint Resolve preserves_pack : frames.

Lemma preserves_onReceive_switch data :
  preserves R (@onReceive_switch Heap _ data).
Proof.
  unfold onReceive_switch, reflectGet, reflectSet, reflectDeleteProperty,
    reflectApply, reflectConstruct.
  frames.
Qed.
#[local] Hint Resolve preserves_onReceive_switch : frames.

Lemma preserves_onReceive_try data : preserves R (@onReceive_try Heap _ data).
Proof. unfold onReceive_try. frames. Qed.

Lemma preserves_onReceive_catch data e :
  preserves R (@onReceive_catch Heap data e).
Proof. unfold onReceive_catch. frames. Qed.

Lemma preserves_onReceive data : preserves R (@onReceive Heap _ data).
Proof.
  unfold onReceive. apply preserves_try_catch;
    [apply preserves_onReceive_try|intros e; apply preserves_onReceive_catch].
Qed.

End Frame.

(** *** After disposal *)

Lemma quiet_steps :
  (∀ w : World Heap, quiet w w)
  ∧ (∀ w1 w2 w3 : World Heap, quiet w1 w2 → quiet w2 w3 → quiet w1 w3)
  ∧ (∀ (w : World Heap) s c, quiet w (with_cache c (with_store s w)))
  ∧ (∀ (w : World Heap) f f',
       this w = Some f → solidObjects f' = solidObjects f →
       quiet w (with_this (Some f') w))
  ∧ (∀ (w : World Heap) f m,
       this w = Some f → quiet w (with_outbox (outbox w ++ [m]) w)).
Proof.
  unfold quiet. split; [done|]. split.
  { intros w1 w2 w3 H12 H23 Hn. destruct (H12 Hn) as [Hn2 Hob2].
    destruct (H23 Hn2) as [Hn3 Hob3]. split; [done|congruence]. }
  split; [done|]. split; intros w f ? Hf; congruence.
Qed.

Lemma quiet_preserved {A} (c : M Heap A) w :
  (∀ R, (∀ w, R w w) → (∀ w1 w2 w3, R w1 w2 → R w2 w3 → R w1 w3) →
        (∀ w s ca, R w (with_cache ca (with_store s w))) →
        (∀ w f f', this w = Some f → solidObjects f' = solidObjects f →
                   R w (with_this (Some f') w)) →
        (∀ w f m, this w = Some f → R w (with_outbox (outbox w ++ [m]) w)) →
        preserves R c) →
  this w = None → this (c w).2 = None ∧ outbox (c w).2 = outbox w.
Proof.
  intros Hc Hn. destruct quiet_steps as (H1 & H2 & H3 & H4 & H5).
  specialize (Hc quiet H1 H2 H3 H4 H5 w). destruct (c w) as [o w'].
  by apply (Hc o w').
Qed.

Lemma send_disposed data w :
  this w = None → returned (send data w).1 = false.
Proof. intros Hn. unfold send, bind, own. by rewrite Hn. Qed.

(** X19. A disposed endpoint is silent.  Whatever message it receives,
    it stays disposed and posts nothing; and when the message carries a
    correlation token the dispatch does not complete, since the reply that
    the [try] block and the [catch] block both end with cannot be posted. *)
Theorem disposed_endpoint_is_silent data w :
  this w = None →
  this (onReceive data w).2 = None
  ∧ outbox (onReceive data w).2 = outbox w
  ∧ (is_Some (token data) → returned (onReceive data w).1 = false).
Proof.
  intros Hn.
  destruct (quiet_preserved (onReceive data) w) as [Hth Hob]; [|done|].
  { intros R ? ? ? ? ?. by apply preserves_onReceive. }
  split; [done|]. split; [done|]. intros [t Ht].
  assert (∀ v clone w1, this w1 = None →
            returned (bind (pack v clone)
                        (λ packed, send (with_value packed (with_token t (message success))))
                        w1).1 = false) as Hreply.
  { intros v clone w1 Hn1. apply returned_bind. intros packed w2 Hpack.
    apply send_disposed.
    destruct (quiet_preserved (pack v clone) w1) as [Hth2 _]; [|done|].
    { intros R ? ? ? ? ?. by apply preserves_pack. }
    by rewrite Hpack in Hth2. }
  assert (returned (onReceive_try data w).1 = false) as Htry.
  { unfold onReceive_try. rewrite Ht. apply returned_bind. intros vc w1 Hswitch.
    destruct (quiet_preserved (onReceive_switch data) w) as [Hn1 _]; [|done|].
    { intros R ? ? ? ? ?. by apply preserves_onReceive_switch. }
    rewrite Hswitch in Hn1. simpl in Hn1.
    apply returned_bind. intros [] w2 Hstore.
    apply Hreply.
    destruct (into data) as [i|].
    - destruct (quiet_preserved (storeLocal (Some i) vc.1) w1) as [Hn2 _]; [|done|].
      { intros R ? ? ? ? ?. by apply preserves_storeLocal. }
      by rewrite Hstore in Hn2.
    - by injection Hstore as <-. }
  unfold onReceive, try_catch.
  destruct (quiet_preserved (onReceive_try data) w) as [Hn1 _]; [|done|].
  { intros R ? ? ? ? ?. by apply preserves_onReceive_try. }
  destruct (onReceive_try data w) as [[[]|e|] w1]; [done| |done].
  simpl in Hn1. unfold onReceive_catch. rewrite Ht.
  apply returned_bind. intros packed w2 Hpack. apply send_disposed.
  destruct (quiet_preserved (pack e false) w1) as [Hth2 _]; [|done|].
  { intros R ? ? ? ? ?. by apply preserves_pack. }
  by rewrite Hpack in Hth2.
Qed.

(** X20. [dispose] cannot be repeated: on a live endpoint it returns,
    whatever its callbacks do, and a second [dispose] throws a [TypeError],
    the set of callbacks being gone with the other own properties. *)
Theorem dispose_twice_throws w f :
  this w = Some f →
  ∃ w1, dispose w = (Ret tt, w1) ∧ throwsError "TypeError" dispose w1.
Proof.
  intros Hf. destruct (dispose_live w f Hf) as (w1 & Hrun & Hn & _).
  exists w1. split; [done|].
  destruct (@throwError_isError (list Callback) "TypeError"
              "Cannot read properties of undefined" w1)
    as (e & w2 & Hthrow & Herr & _).
  exists e, w2. eexists. split; [|exact Herr].
  unfold dispose.
  assert (own disposableCallbacks w1 = (Throw e, w2)) as Hown
    by (unfold own; by rewrite Hn).
  by rewrite (bind_Throw _ _ _ _ _ Hown).
Qed.

(** X21. On a disposed endpoint [sendAndWait] does not throw: what is
    thrown inside the executor rejects the promise.  It returns a new
    promise that is rejected with a [TypeError], and posts nothing. *)
Theorem sendAndWait_disposed_rejects data w :
  this w = None →
  ∃ p e w',
    sendAndWait data w = (Ret p, w')
    ∧ promises (store w') !! p = Some (Rejected e)
    ∧ (∃ message, isError w' e "TypeError" message)
    ∧ this w' = None ∧ outbox w' = outbox w.
Proof.
  intros Hn. destruct w as [th [nr ns er pr bx hp] gs ca rv ob].
  simpl in Hn. subst th.
  unfold sendAndWait, newPromise, alloc, try_catch, aquireToken, own.
  engine. rewrite lookup_insert_eq. cbn.
  eexists _, _, _. split; [reflexivity|]. cbn.
  split; [by rewrite lookup_insert_eq|].
  split; [|done]. eexists. exists None. unfold errorOf. cbn.
  by rewrite lookup_insert_eq.
Qed.

(** *** What a dispatch leaves alone *)

Lemma keepsMarks_steps :
  (∀ w : World Heap, keepsMarks w w)
  ∧ (∀ w1 w2 w3 : World Heap, keepsMarks w1 w2 → keepsMarks w2 w3 → keepsMarks w1 w3)
  ∧ (∀ (w : World Heap) s c, keepsMarks w (with_cache c (with_store s w)))
  ∧ (∀ (w : World Heap) f f',
       this w = Some f → solidObjects f' = solidObjects f →
       keepsMarks w (with_this (Some f') w))
  ∧ (∀ (w : World Heap) f m,
       this w = Some f → keepsMarks w (with_outbox (outbox w ++ [m]) w)).
Proof.
  unfold keepsMarks. split; [done|]. split.
  { intros w1 w2 w3 (? & ? & ? & ?) (? & ? & ? & ?).
    split; [congruence|]. split; [congruence|]. split; [congruence|].
    by etrans. }
  split; [done|]. split.
  - intros w f f' Hf Hso. cbn. rewrite Hf. cbn. by rewrite Hso.
  - intros w f m Hf. cbn. do 3 (split; [done|]). by apply prefix_app_r.
Qed.

(** X22. Receiving a message revokes no proxy and sets or clears no solid
    mark, of the endpoint's or of the module's, and it never takes back
    what was posted: the outbox before is a prefix of the outbox after. *)
Theorem onReceive_keeps_marks data w :
  revoked (onReceive data w).2 = revoked w
  ∧ globalSolidObjects (onReceive data w).2 = globalSolidObjects w
  ∧ solidObjects <$> this (onReceive data w).2 = solidObjects <$> this w
  ∧ outbox w `prefix_of` outbox (onReceive data w).2.
Proof.
  destruct keepsMarks_steps as (H1 & H2 & H3 & H4 & H5).
  pose proof (preserves_onReceive keepsMarks H1 H2 H3 H4 H5 data w) as Hkeep.
  destruct (onReceive data w) as [o w']. by apply (Hkeep o w').
Qed.

(** *** Awaiting a handle *)

Lemma resolveRemote_unbound w f t :
  this w = Some f → key2Obj f !! t = None →
  ∃ w' f', resolveRemote t false w = (Ret (VObject (nextRef (store w))), w')
           ∧ this w' = Some f' ∧ key2Obj f' !! t = Some (nextRef (store w))
           ∧ outbox w' = outbox w ++ [with_token (nextToken f)
                                        (with_from t (message resolve))]
           ∧ cache w' = cache w ∧ revoked w' = revoked w.
Proof.
  intros Hf Ht. expose w Hf. engine. rewrite Ht. cbn.
  eexists _, _. split; [reflexivity|]. cbn. split; [reflexivity|].
  cbn. by rewrite lookup_insert_eq.
Qed.

Lemma newPromise_run st w :
  ∃ w', newPromise st w = (Ret (nextRef (store w)), w')
        ∧ this w' = this w ∧ outbox w' = outbox w ∧ cache w' = cache w
        ∧ revoked w' = revoked w
        ∧ nextRef (store w') = Pos.succ (nextRef (store w))
        ∧ promises (store w') !! nextRef (store w) = Some st.
Proof.
  destruct w as [th [nr ns er pr bx hp] gs ca rv ob].
  eexists. split; [reflexivity|]. cbn. by rewrite lookup_insert_eq.
Qed.

(** An operation through a proxy that is not revoked is the trap's. *)
Lemma viaProxy_live {A} (obj : Value) trap (ordinary : M Heap A) w r self :
  refOf obj = Some r → cache w !! r = Some self → r ∉ revoked w →
  viaProxy obj trap ordinary w = trap r self w.
Proof.
  intros Hr Hc Hrev. unfold viaProxy. rewrite Hr. cbn. rewrite Hc. cbn.
  by rewrite (bool_decide_eq_false_2 _ Hrev).
Qed.

(** [then] on a handle whose handler has its promise already. *)
Lemma Proxy_then_memoised w h r self p :
  refOf h = Some r → cache w !! r = Some self → r ∉ revoked w →
  resolvePromise self = Some p →
  Proxy_then h w = bind (newPromise Pending) (λ q, ret (VObject q)) w.
Proof.
  intros Hr Hc Hrev Hmemo.
  assert (isReferenceType h = true) as Href by by destruct h.
  unfold Proxy_then. rewrite (viaProxy_live _ _ _ _ _ _ Hr Hc Hrev).
  unfold baseTypeMixin_then.
  assert (WrapperHandler_static_get h w = (Ret (Some self), w)) as Hget.
  { unfold WrapperHandler_static_get. rewrite Href, Hr. cbn. by rewrite Hc. }
  rewrite (bind_Ret _ _ _ _ _ Hget).
  unfold WrapperHandler_resolve. rewrite Hmemo. done.
Qed.

Lemma repeatM_then_memoised h r self p n : ∀ w,
  refOf h = Some r → cache w !! r = Some self → r ∉ revoked w →
  resolvePromise self = Some p →
  ∃ qs wn,
    repeatM n (Proxy_then h) w = (Ret (VObject <$> qs), wn)
    ∧ outbox wn = outbox w ∧ this wn = this w ∧ cache wn = cache w
    ∧ Forall (λ q, (nextRef (store w) ≤ q)%positive) qs ∧ NoDup qs.
Proof.
  induction n as [|n IH]; intros w Hr Hc Hrev Hmemo.
  { exists [], w. repeat split; try done; constructor. }
  destruct (newPromise_run Pending w) as (w1 & Hnew & Hth & Hob & Hca & Hrv & Hn & _).
  destruct (IH w1 Hr) as (qs & wn & Hrest & Hob' & Hth' & Hca' & Hqs & Hnd).
  { by rewrite Hca. } { by rewrite Hrv. } { done. }
  exists (nextRef (store w) :: qs), wn. simpl.
  assert (Proxy_then h w = (Ret (VObject (nextRef (store w))), w1)) as Hthen.
  { rewrite (Proxy_then_memoised _ _ _ _ _ Hr Hc Hrev Hmemo).
    by rewrite (bind_Ret _ _ _ _ _ Hnew). }
  rewrite (bind_Ret _ _ _ _ _ Hthen). rewrite (bind_Ret _ _ _ _ _ Hrest).
  split; [done|]. split; [congruence|]. split; [congruence|]. split; [congruence|].
  split.
  - constructor; [lia|]. eapply Forall_impl; [exact Hqs|]. intros q Hq. simpl in Hq. lia.
  - constructor; [|done]. intros Hin.
    rewrite Forall_forall in Hqs. specialize (Hqs _ Hin). simpl in Hqs. lia.
Qed.

(** X23. Awaiting a handle asks the remote at most once.  The first
    [then] on a live handle whose handler has no promise yet calls
    [resolveRemote] for the handler's token, which posts one [resolve]
    request unless the token is bound already, notes the promise in the
    handler, where every proxy of the handler finds it, and returns a new
    pending promise.  Every later [then], on this handle or on another
    proxy of the same handler, posts nothing, leaves the endpoint and the
    cache as they are, and returns a new promise each time. *)
Theorem handle_resolution_is_memoised w f h r self :
  this w = Some f →
  refOf h = Some r → cache w !! r = Some self → r ∉ revoked w →
  resolvePromise self = None →
  ∃ p q w1 f1,
    Proxy_then h w = (Ret (VObject q), w1)
    ∧ promises (store w1) !! q = Some Pending
    ∧ this w1 = Some f1 ∧ key2Obj f1 !! id self = Some p
    ∧ outbox w1
      = outbox w ++ match key2Obj f !! id self with
                    | Some _ => []
                    | None => [with_token (nextToken f)
                                 (with_from (id self) (message resolve))]
                    end
    ∧ (∀ r' self',
         cache w !! r' = Some self' → identity self' = identity self →
         cache w1 !! r'
         = Some {| id := id self'; resolvePromise := Some (VObject p);
                   identity := identity self' |})
    ∧ ∀ h' r' self' n,
        refOf h' = Some r' → cache w !! r' = Some self' →
        identity self' = identity self → r' ∉ revoked w →
        ∃ qs wn,
          repeatM n (Proxy_then h') w1 = (Ret (VObject <$> qs), wn)
          ∧ NoDup (q :: qs)
          ∧ outbox wn = outbox w1 ∧ this wn = this w1 ∧ cache wn = cache w1.
Proof.
  intros Hf Hr Hc Hrev Hmemo.
  assert (isReferenceType h = true) as Href by by destruct h.
  assert (∃ p w' f',
            resolveRemote (id self) false w = (Ret (VObject p), w')
            ∧ this w' = Some f' ∧ key2Obj f' !! id self = Some p
            ∧ cache w' = cache w ∧ revoked w' = revoked w
            ∧ outbox w'
              = outbox w ++ match key2Obj f !! id self with
                            | Some _ => []
                            | None => [with_token (nextToken f)
                                         (with_from (id self) (message resolve))]
                            end) as (p & w' & f' & Hrun & Hf' & Hbound & Hc' & Hrev' & Hob).
  { destruct (key2Obj f !! id self) as [p0|] eqn:Hq.
    - exists p0, w, f. rewrite (resolveRemote_cached _ _ _ _ Hf Hq).
      by rewrite app_nil_r.
    - destruct (resolveRemote_unbound w f (id self) Hf Hq)
        as (w' & f' & ? & ? & ? & ? & ? & ?).
      by exists (nextRef (store w)), w', f'. }
  set (noted := λ h0 : WrapperHandler,
         if bool_decide (identity h0 = identity self)
         then {| id := id h0; resolvePromise := Some (VObject p);
                 identity := identity h0 |}
         else h0).
  set (w2 := with_cache (noted <$> cache w') w').
  destruct (newPromise_run Pending w2) as (w1 & Hnew & Hth & Hob1 & Hca1 & Hrv1 & Hn1 & Hq).
  assert (∀ r' self', cache w !! r' = Some self' → identity self' = identity self →
            cache w1 !! r'
            = Some {| id := id self'; resolvePromise := Some (VObject p);
                      identity := identity self' |}) as Hshared.
  { intros r' self' Hc0 Hid. rewrite Hca1. unfold w2. cbn.
    rewrite lookup_fmap, Hc', Hc0. cbn. unfold noted.
    by rewrite (bool_decide_eq_true_2 _ Hid). }
  exists p, (nextRef (store w2)), w1, f'.
  split; [|split; [done|split; [by rewrite Hth|split; [done|split; [|split; [done|]]]]]].
  - unfold Proxy_then. rewrite (viaProxy_live _ _ _ _ _ _ Hr Hc Hrev).
    unfold baseTypeMixin_then.
    assert (WrapperHandler_static_get h w = (Ret (Some self), w)) as Hget.
    { unfold WrapperHandler_static_get. rewrite Href, Hr. cbn. by rewrite Hc. }
    rewrite (bind_Ret _ _ _ _ _ Hget).
    assert (WrapperHandler_resolve self w = (Ret (VObject p), w2)) as Hres.
    { unfold WrapperHandler_resolve. rewrite Hmemo.
      by rewrite (bind_Ret _ _ _ _ _ Hrun). }
    rewrite (bind_Ret _ _ _ _ _ Hres). by rewrite (bind_Ret _ _ _ _ _ Hnew).
  - by rewrite Hob1.
  - intros h' r' self' n Hr' Hc0 Hid Hrev0.
    destruct (repeatM_then_memoised h' r' _ (VObject p) n w1 Hr' (Hshared _ _ Hc0 Hid))
      as (qs & wn & Hrest & ? & ? & ? & Hqs & Hnd); [|done|].
    { rewrite Hrv1. unfold w2. cbn. by rewrite Hrev'. }
    exists qs, wn. split; [done|]. split; [|done].
    constructor; [|done]. intros Hin.
    rewrite Forall_forall in Hqs. specialize (Hqs _ Hin). cbv beta in Hqs. lia.
Qed.

(** *** Tokens before the counter wraps *)

(** X24. Tokens before the counter wraps.  Up to [2^32] calls of
    [aquireToken] on a live endpoint, one straight after the other with
    nothing else touching the counter in between (the peer thread, which
    shares the cell, takes no token meanwhile), return pairwise distinct
    tokens, each from [1] to [2^32]: the call number [i + 1] returns the
    number in the cell at the start, advanced by [i] modulo [2^32], plus
    one.  So the bootstrap token [0] is never handed out, and [4294967296],
    which no [Uint32] cell holds, is handed out when the cell holds
    [4294967295]. *)
Theorem tokens_distinct_until_wrap w f (n : nat) :
  this w = Some f →
  Z.of_nat n ≤ 2 ^ 32 →
  ∃ ts w', aquireTokens n w = (Ret ts, w')
           ∧ length ts = n ∧ NoDup ts
           ∧ Forall (λ t, 1 ≤ t ≤ 2 ^ 32) ts
           ∧ ∀ i : nat, (i < n)%nat →
               ts !! i = Some ((counter f + Z.of_nat i) mod 2 ^ 32 + 1).
Proof.
  intros Hf Hn.
  destruct (aquireTokens_live n w f Hf) as (w' & f' & Hrun & _).
  exists (tokensFrom (counter f) n), w'. split; [done|]. split; [|split; [|split]].
  - unfold tokensFrom. by rewrite length_fmap, length_seq.
  - by apply tokensFrom_NoDup.
  - unfold tokensFrom. apply Forall_fmap, Forall_true. intros k. simpl.
    pose proof (Z.mod_pos_bound (counter f + Z.of_nat k - 1) (2 ^ 32) ltac:(lia)). lia.
  - intros i Hi. rewrite (tokensFrom_lookup _ _ _ Hi).
    do 3 f_equal. lia.
Qed.

(** *** [solid()] *)

Context `{!HostAssign Heap}.

(** X25. [solid] of a value that is no object or function is that value,
    and nothing happens.  [solid] of an object or function that is no
    handle is a new object, marked solid for every endpoint, so that a live
    endpoint packs it by value; the endpoint's own tables, the proxies and
    the outbox are as before.  (The next object identity is taken to be
    unused, and the copying of the properties to complete.) *)
Theorem makeSolid_clones_plain_value w f source :
  this w = Some f →
  (isReferenceType source = false → makeSolid source w = (Ret source, w))
  ∧ ∀ r s1 v,
      refOf source = Some r → cache w !! r = None →
      cache w !! nextRef (store w) = None →
      Object_assign (VObject (nextRef (store w))) source
        (with_nextRef (Pos.succ (nextRef (store w))) (store w)) = (Normal v, s1) →
      errors s1 !! nextRef (store w) = None →
      ∃ w1,
        makeSolid source w = (Ret (VObject (nextRef (store w))), w1)
        ∧ this w1 = Some f ∧ outbox w1 = outbox w ∧ cache w1 = cache w
        ∧ isSolid (VObject (nextRef (store w))) w1 = (Ret true, w1)
        ∧ pack (VObject (nextRef (store w))) false w1
          = (Ret (PValue (VObject (nextRef (store w)))), w1).
Proof.
  intros Hf. split.
  { intros Hprim. unfold makeSolid. by rewrite Hprim. }
  intros r s1 v Hr Hc Hfresh Hassign Herr.
  assert (isReferenceType source = true) as Href by by destruct source.
  expose w Hf. simpl in *.
  unfold makeSolid, callHost. rewrite Href. engine. rewrite Hr. cbn.
  rewrite Hc. cbn. rewrite andb_false_r. cbn. rewrite Hassign. cbn.
  eexists. split; [reflexivity|]. cbn.
  do 3 (split; [done|]).
  assert (bool_decide (nr ∈ solidObjects f) || bool_decide (nr ∈ {[nr]} ∪ gs) = true)
    as Hsolid.
  { rewrite (bool_decide_eq_true_2 (nr ∈ {[nr]} ∪ gs)) by set_solver.
    by rewrite orb_true_r. }
  split; [by rewrite Hsolid|].
  unfold errorOf. cbn. rewrite Herr. cbn. rewrite Hsolid. cbn.
  by rewrite Hfresh.
Qed.

(** X26. [solid] of a handle that is not solid yet is a new proxy for the
    same token, registered for disposal and marked solid in the endpoint,
    so that the endpoint packs it as a solid token, which the remote
    resolves to a value before use; nothing is posted.  [solid] of a handle
    that is solid already is the handle itself. *)
Theorem makeSolid_handle w f h r self :
  this w = Some f →
  refOf h = Some r → cache w !! r = Some self →
  (isSolid h w = (Ret true, w) → makeSolid h w = (Ret h, w))
  ∧ (isSolid h w = (Ret false, w) →
     errors (store w) !! nextRef (store w) = None →
     ∃ w1 f1,
       makeSolid h w = (Ret (VFunction (nextRef (store w))), w1)
       ∧ this w1 = Some f1
       ∧ cache w1 !! nextRef (store w) = Some self
       ∧ CbRevoke (nextRef (store w)) ∈ disposableCallbacks f1
       ∧ outbox w1 = outbox w
       ∧ isSolid (VFunction (nextRef (store w))) w1 = (Ret true, w1)
       ∧ pack (VFunction (nextRef (store w))) false w1
         = (Ret (PToken solid (id self)), w1)).
Proof.
  intros Hf Hr Hc.
  assert (isReferenceType h = true) as Href by by destruct h.
  assert (∀ b, isSolid h w = (Ret b, w) →
            makeSolid h w
            = (if b then ret h
               else bind (WrapperHandler_resolve_shadow self)
                      (λ proxy, bind (setSolid proxy) (λ _, ret proxy))) w) as Hstep.
  { intros b Hb. unfold makeSolid. rewrite Href. cbn [negb].
    assert (WrapperHandler_isHandler h w = (Ret true, w)) as Hhandle.
    { unfold WrapperHandler_isHandler. rewrite Href, Hr, Hc. by cbn. }
    rewrite (bind_Ret _ _ _ _ _ Hhandle). cbn [negb].
    assert (WrapperHandler_static_get h w = (Ret (Some self), w)) as Hget.
    { unfold WrapperHandler_static_get. rewrite Href, Hr. cbn. by rewrite Hc. }
    rewrite (bind_Ret _ _ _ _ _ Hget).
    by rewrite (bind_Ret _ _ _ _ _ Hb). }
  split.
  { intros Hsol. by rewrite (Hstep true Hsol). }
  intros Hsol Herr. rewrite (Hstep false Hsol). clear Hstep Hsol.
  expose w Hf. simpl in *. engine.
  assert (bool_decide (nr ∈ {[nr]} ∪ solidObjects f) = true) as Hsolid
    by (apply bool_decide_eq_true_2; set_solver).
  destruct (bool_decide (CbRevoke nr ∈ disposableCallbacks f)) eqn:Hin; cbn.
  - apply bool_decide_eq_true in Hin.
    eexists _, _. split; [reflexivity|]. cbn.
    split; [reflexivity|]. split; [by rewrite lookup_insert_eq|].
    split; [done|]. split; [done|]. rewrite Hsolid. cbn. split; [done|].
    unfold errorOf. cbn. rewrite Herr. cbn. rewrite Hsolid. cbn.
    rewrite lookup_insert_eq. cbn. rewrite Hsolid. cbn.
    by rewrite lookup_insert_eq.
  - eexists _, _. split; [reflexivity|]. cbn.
    split; [reflexivity|]. split; [by rewrite lookup_insert_eq|].
    split. { apply elem_of_app. right. by apply list_elem_of_singleton. }
    split; [done|]. rewrite Hsolid. cbn. split; [done|].
    unfold errorOf. cbn. rewrite Herr. cbn. rewrite Hsolid. cbn.
    rewrite lookup_insert_eq. cbn. rewrite Hsolid. cbn.
    by rewrite lookup_insert_eq.
Qed.

End Properties.

(** ** The properties on the sample endpoints *)

(** C1 at [successReply], the reply to the request in flight on
    [pendingWorld]: the endpoint answers it with a [success] of its own. *)
Lemma C1_reply_is_answered_witness :
  ∃ w' extra,
    onReceive successReply pendingWorld = (Ret tt, w')
    ∧ outbox w'
      = outbox pendingWorld ++ extra
        ++ [with_value (PRaw VUndefined) (with_token 1 (message success))].
Proof.
  apply (C1_reply_is_answered successReply pendingWorld pendingFields 1).
  - vm_compute. reflexivity.
  - left. reflexivity.
  - reflexivity.
Defined.

(** What [pendingWorld] posts on receiving [successReply] is [echo], and a
    peer that has nothing pending under token 1 posts [echo] back on
    receiving it: the two endpoints pass it to and fro without end. *)
Lemma echo_is_echoed :
  last (outbox repliedWorld) = Some echo
  ∧ outbox (onReceive echo newWorld).2 = [echo]
  ∧ outbox (onReceive echo repliedWorld).2 = outbox repliedWorld ++ [echo].
Proof. vm_compute. repeat split. Qed.

(** At [applyUnknown] the source token is not registered: the branch throws,
    a [failed] reply is posted, and nothing is stored under the destination
    token 7. *)
Lemma failed_branch_stores_nothing :
  (onReceive applyUnknown newWorld).1 = Ret tt
  ∧ type <$> outbox (onReceive applyUnknown newWorld).2 = [failed]
  ∧ (this (onReceive applyUnknown newWorld).2 ≫= λ f, key2Obj f !! 7) = None.
Proof. vm_compute. repeat split. Qed.

(** [applyAdd] on the serving side: the sum 3 is stored under token 9
    before the reply is posted. *)
Lemma result_stored_before_reply_witness :
  ∃ w2 f2 p,
    storeLocal (Some 9) (VNumber 3) (onReceive_switch applyAdd servingWorld).2
    = (Ret tt, w2)
    ∧ this w2 = Some f2 ∧ key2Obj f2 !! 9 = Some p
    ∧ resolvedWith w2 p (VNumber 3)
    ∧ outbox w2 = outbox (onReceive_switch applyAdd servingWorld).2.
Proof.
  destruct (result_stored_before_reply applyAdd servingWorld servingFields
              (VNumber 3) false (onReceive_switch applyAdd servingWorld).2 9)
    as (w2 & f2 & p & H1 & H2 & H3 & H4 & H5 & _).
  - vm_compute. reflexivity.
  - reflexivity.
  - vm_compute. reflexivity.
  - exists w2, f2, p. repeat split; assumption.
Defined.

(** C2 at [readXInto] on the serving side, where the export is registered
    under token 0: the request to read [x] of it into token 9 is answered
    with [failed], and token 9 stays unbound. *)
Lemma C2_read_result_is_not_stored_witness :
  ∃ w',
    onReceive readXInto servingWorld = (Ret tt, w')
    ∧ this w' = Some servingFields
    ∧ key2Obj servingFields !! 9 = None
    ∧ ∃ stack,
        outbox w'
        = [with_reason (PError (Some "TypeError") (Some "Invalid type") stack)
             (with_token 3 (message failed))].
Proof.
  assert (this servingWorld = Some servingFields) as Hf by (vm_compute; reflexivity).
  assert (key2Obj servingFields !! 0 = Some 2%positive) as Hknown
    by (vm_compute; reflexivity).
  assert (settled servingWorld 2%positive = Ret exported) as Hsettled
    by (vm_compute; reflexivity).
  destruct (C2_read_result_is_not_stored readXInto servingWorld servingFields 0
              2%positive exported Hf (or_introl eq_refl) eq_refl Hknown Hsettled)
    as (e & w1 & stack & w' & _ & _ & Hrun & Hth & Hob).
  exists w'. split; [exact Hrun|]. split; [exact Hth|].
  split; [vm_compute; reflexivity|]. exists stack. exact Hob.
Defined.

(** C3 as stated fails on [disposedWorld]: [setSolid] and [isSolid] of an
    object throw. *)
Lemma C3_solid_on_disposed_raises :
  (dispose handleWorld).1 = Ret tt
  ∧ this disposedWorld = None
  ∧ (∃ e, (setSolid exported disposedWorld).1 = Throw e)
  ∧ (∃ e, (isSolid exported disposedWorld).1 = Throw e).
Proof. vm_compute. repeat split; eexists; reflexivity. Qed.

(** C3, as amended, at the handle of [handleWorld]. *)
Lemma C3_after_dispose_witness :
  registered 1 handleWorld
  ∧ ∃ w', dispose handleWorld = (Ret tt, w') ∧ this w' = None
          ∧ throwsError "TypeError" (Proxy_get (VFunction 1) (KString "x")) w'
          ∧ throwsError "TypeError" (Proxy_then (VFunction 1)) w'
          ∧ setSolid (VNumber 1) w' = (Ret tt, w').
Proof.
  assert (registered 1 handleWorld) as Hreg.
  { exists handleFields. split; [vm_compute; reflexivity|]. split.
    - apply elem_of_dom. exists handleSelf.
      vm_compute. reflexivity.
    - vm_compute. constructor. }
  split; [exact Hreg|].
  destruct (C3_after_dispose handleWorld 1 (VFunction 1) Hreg eq_refl)
    as (w' & H1 & H2 & H3 & _ & _ & _ & _ & H4 & H5 & _).
  exists w'. split; [exact H1|]. split; [exact H2|]. split; [apply H3|].
  split; [exact H4|]. apply (H5 (VNumber 1)). reflexivity.
Defined.

(** C4 as stated fails on a fresh endpoint: two shadowed resolutions of
    token 0 give two different proxies. *)
Lemma C4_two_resolutions_two_handles :
  ∃ h1 h2,
    (resolveRemote 0 true newWorld).1 = Ret h1
    ∧ (resolveRemote 0 true (resolveRemote 0 true newWorld).2).1 = Ret h2
    ∧ h1 ≠ h2.
Proof.
  exists (VFunction 1), (VFunction 2). vm_compute.
  repeat split. discriminate.
Qed.

(** C4, as amended, on a fresh endpoint. *)
Lemma C4_shadowed_resolution_is_fresh_witness :
  ∃ p1 w1 p2 w2,
    resolveRemote 0 true newWorld = (Ret (VFunction p1), w1)
    ∧ resolveRemote 0 true w1 = (Ret (VFunction p2), w2)
    ∧ p1 ≠ p2
    ∧ id <$> cache w2 !! p1 = Some 0
    ∧ id <$> cache w2 !! p2 = Some 0.
Proof.
  apply (C4_shadowed_resolution_is_fresh newWorld newFields 0). reflexivity.
Defined.

(** C5 at an unknown token with and without a kind, and at the bootstrap
    token, which holds a function, with the kind ['number']. *)
Lemma C5_resolveLocal_errors_witness :
  (∃ e w', resolveLocal (Some 99) (TyString "function") newWorld = (Throw e, w')
           ∧ isError w' e "ReferenceError" "Invalid Id")
  ∧ resolveLocal (Some 99) TyUndefined newWorld = (Ret VUndefined, newWorld)
  ∧ (∃ e w', resolveLocal (Some 0) (TyString "number") servingWorld = (Throw e, w')
             ∧ isError w' e "TypeError" "Invalid type").
Proof.
  split; [|split].
  - apply (C5_resolveLocal_errors newWorld newFields (Some 99) (TyString "function") eq_refl);
      reflexivity.
  - apply (C5_resolveLocal_errors newWorld newFields (Some 99) TyUndefined eq_refl);
      reflexivity.
  - assert (this servingWorld = Some servingFields) as Hf by (vm_compute; reflexivity).
    apply (proj2 (proj2 (C5_resolveLocal_errors servingWorld servingFields (Some 0)
                           (TyString "number") Hf)) 2%positive (VFunction 1));
      vm_compute; reflexivity.
Defined.

(** C6 at [applyUnknown], which carries a correlation token, and at
    [dropUnknown], which carries none. *)
Lemma C6_failure_propagation_witness :
  (∃ packed w2,
     pack (VObject 1) false (onReceive_switch applyUnknown newWorld).2 = (Ret packed, w2)
     ∧ outbox w2 = outbox (onReceive_switch applyUnknown newWorld).2
     ∧ onReceive applyUnknown newWorld
       = (Ret tt,
          with_outbox
            (outbox (onReceive_switch applyUnknown newWorld).2
             ++ [with_reason packed (with_token 3 (message failed))]) w2))
  ∧ onReceive dropUnknown newWorld
    = (Ret tt, (onReceive_switch dropUnknown newWorld).2).
Proof.
  split.
  - apply (C6_failure_propagation applyUnknown newWorld newFields (VObject 1)
             (onReceive_switch applyUnknown newWorld).2 eq_refl).
    vm_compute. reflexivity.
  - apply (C6_failure_propagation dropUnknown newWorld newFields (VObject 1)
             (onReceive_switch dropUnknown newWorld).2 eq_refl).
    vm_compute. reflexivity.
Defined.

(** C7 on [pendingWorld]: the reply with token 1 fulfils promise 1 with 42
    and removes the entry; a reply with token 5 settles nothing; and the
    same reply received once more leaves the promise as it is. *)
Lemma C7_request_correlation_witness :
  (∃ w' f',
     onReceive successReply pendingWorld = (Ret tt, w') ∧ this w' = Some f'
     ∧ promises (store w') !! 1%positive = Some (Resolved (VNumber 42))
     ∧ resolvers f' !! 1 = None)
  ∧ (∃ w' f',
       onReceive strayReply pendingWorld = (Ret tt, w') ∧ this w' = Some f'
       ∧ resolvers f' = resolvers pendingFields
       ∧ promises (store w') !! 1%positive = Some Pending)
  ∧ (∃ w' f',
       onReceive successReply repliedWorld = (Ret tt, w') ∧ this w' = Some f'
       ∧ resolvers f' = resolvers repliedFields
       ∧ promises (store w') !! 1%positive = Some (Resolved (VNumber 42))).
Proof.
  assert (this pendingWorld = Some pendingFields) as Hf by (vm_compute; reflexivity).
  destruct (C7_request_correlation pendingWorld pendingFields Hf) as (_ & Hsettle & Hstray).
  split; [|split].
  - destruct (Hsettle successReply 1 1%positive) as [Hsuccess _];
      try (vm_compute; reflexivity).
    destruct (Hsuccess eq_refl) as (x & w' & f' & Hx & Hrun & Hf' & Hp & _ & Hgone).
    vm_compute in Hx. injection Hx as <-.
    exists w', f'. repeat split; try assumption.
    apply Hgone. vm_compute. discriminate.
  - destruct (Hstray strayReply) as (w' & f' & Hrun & Hf' & Hrs & Hkeep).
    + left. reflexivity.
    + vm_compute. reflexivity.
    + exists w', f'. repeat split; try assumption.
      rewrite Hkeep; vm_compute; reflexivity.
  - assert (this repliedWorld = Some repliedFields) as Hf1 by (vm_compute; reflexivity).
    destruct (C7_request_correlation repliedWorld repliedFields Hf1) as (_ & _ & Hdup).
    destruct (Hdup successReply) as (w' & f' & Hrun & Hf' & Hrs & Hkeep).
    + left. reflexivity.
    + vm_compute. reflexivity.
    + exists w', f'. repeat split; try assumption.
      rewrite Hkeep; vm_compute; reflexivity.
Defined.

(** C8 as stated fails on [solidErrorWorld]: the solid-marked [Error]
    instance is packed as an error entry. *)
Lemma C8_solid_error_is_not_cloned :
  (isSolid (VObject 1) solidErrorWorld).1 = Ret true
  ∧ (WrapperHandler_isHandler (VObject 1) solidErrorWorld).1 = Ret false
  ∧ (pack (VObject 1) false solidErrorWorld).1
    = Ret (PError (Some "Error") (Some "boom") None).
Proof. vm_compute. repeat split. Qed.

(** C8, as amended, at the solid plain object of [solidWorld], packed
    twice. *)
Lemma C8_solid_value_is_cloned_witness :
  repeatM 2 (pack (VObject 1) false) solidWorld
  = (Ret [PValue (VObject 1); PValue (VObject 1)], solidWorld).
Proof.
  apply (C8_solid_value_is_cloned solidWorld (VObject 1) false);
    vm_compute; reflexivity.
Defined.

(** C9 on a fresh endpoint, at [2^32 + 1] calls. *)
Lemma C9_tokens_repeat_after_wrap_witness :
  ∃ ts w',
    aquireTokens (Z.to_nat 4294967297) newWorld = (Ret ts, w')
    ∧ length ts = Z.to_nat 4294967297 ∧ ¬ NoDup ts.
Proof.
  apply (C9_tokens_repeat_after_wrap newWorld newFields (Z.to_nat 4294967297)).
  - reflexivity.
  - rewrite Z2Nat.id by discriminate. reflexivity.
Defined.

(** C10 on a fresh endpoint, at token 0. *)
Lemma C10_resolveRemote_memoised_witness :
  ∃ p w',
    resolveRemote 0 false newWorld = (Ret (VObject p), w')
    ∧ (∃ t, outbox w' = outbox newWorld ++ [with_token t (with_from 0 (message resolve))])
    ∧ repeatM 3 (resolveRemote 0 false) w' = (Ret (replicate 3 (VObject p)), w').
Proof.
  destruct (C10_resolveRemote_memoised newWorld newFields 0 eq_refl)
    as (p & w' & f' & H1 & _ & _ & H2 & H3).
  exists p, w'. split; [exact H1|]. split; [exact H2|]. apply H3.
Defined.

(** ** The further properties on the sample endpoints *)

(** The [prepare] branch at the bootstrap token of the serving side, and the
    [delete] branch at an unknown token. *)
Lemma dispatch_get_set_delete_never_return_witness :
  returned (onReceive_switch readX servingWorld).1 = false
  ∧ returned (onReceive_switch dropUnknown newWorld).1 = false.
Proof.
  split.
  - apply (dispatch_get_set_delete_never_return readX servingWorld).
    left. reflexivity.
  - apply (dispatch_get_set_delete_never_return dropUnknown newWorld).
    right. right. reflexivity.
Defined.

(** The [resolve] branch at an unknown token and at the bootstrap token. *)
Lemma dispatch_resolve_yields_undefined_witness :
  onReceive_switch resolveUnknown newWorld = (Ret (VUndefined, true), newWorld)
  ∧ returned (onReceive_switch resolveExport servingWorld).1 = false.
Proof.
  split.
  - exact (dispatch_resolve_yields_undefined resolveUnknown newWorld newFields
             eq_refl eq_refl).
  - assert (this servingWorld = Some servingFields) as Hf by (vm_compute; reflexivity).
    pose proof (dispatch_resolve_yields_undefined resolveExport servingWorld
                  servingFields Hf eq_refl) as H.
    assert (from resolveExport ≫= (key2Obj servingFields !!.) = Some 2%positive) as Hb
      by (vm_compute; reflexivity).
    rewrite Hb in H. exact H.
Defined.

(** [applyAdd] on the serving side calls the export with no receiver and
    the arguments 1 and 2. *)
Lemma dispatch_apply_calls_function_witness :
  onReceive_switch applyAdd servingWorld
  = bind (callHost (Reflect_apply exported VUndefined [VNumber 1; VNumber 2]))
      (λ v, ret (v, false)) servingWorld.
Proof.
  apply (dispatch_apply_calls_function applyAdd servingWorld servingFields 0
           2%positive exported [PRaw (VNumber 1); PRaw (VNumber 2)]);
    try (vm_compute; reflexivity).
  - repeat constructor.
  - repeat constructor.
Defined.

(** [constructOne] on the serving side instantiates the export with the
    argument 1. *)
Lemma dispatch_construct_calls_constructor_witness :
  onReceive_switch constructOne servingWorld
  = bind (callHost (Reflect_construct exported [VNumber 1]))
      (λ v, ret (v, false)) servingWorld.
Proof.
  apply (dispatch_construct_calls_constructor constructOne servingWorld servingFields 0
           2%positive exported [PRaw (VNumber 1)]);
    try (vm_compute; reflexivity).
  - repeat constructor.
  - repeat constructor.
Defined.

(** [applyNothing], an [apply] request without [args], on the serving
    side. *)
Lemma dispatch_call_without_arguments_witness :
  onReceive_switch applyNothing servingWorld
  = throwError "TypeError" "Arguments are not defined." servingWorld.
Proof.
  apply (dispatch_call_without_arguments applyNothing servingWorld servingFields 0
           2%positive exported);
    try (vm_compute; reflexivity).
  left. reflexivity.
Defined.

(** Two shadow tokens on a fresh endpoint. *)
Lemma unpackAll_shadow_tokens_not_awaited_witness :
  ∃ hs w',
    unpackAll [PToken shadow 5; PToken shadow 6] newWorld = (Ret hs, w')
    ∧ outbox w' = outbox newWorld
    ∧ Forall2 (λ h k, ∃ r, h = VFunction r ∧ id <$> cache w' !! r = Some k) hs [5; 6].
Proof.
  exact (unpackAll_shadow_tokens_not_awaited newWorld newFields [5; 6] eq_refl).
Defined.

(** The solid token 0 on the serving side, where it is bound to the export,
    and the solid token 7 on a fresh endpoint, where it is not bound. *)
Lemma unpackAll_solid_token_is_awaited_witness :
  unpackAll [PToken solid 0] servingWorld = (Ret [exported], servingWorld)
  ∧ ∃ w' f',
      unpackAll [PToken solid 7] newWorld = (Suspend, w') ∧ this w' = Some f'
      ∧ outbox w' = [with_token 1 (with_from 7 (message resolve))]
      ∧ key2Obj f' !! 7 = Some 1%positive
      ∧ promises (store w') !! 1%positive = Some Pending.
Proof.
  split.
  - assert (this servingWorld = Some servingFields) as Hf by (vm_compute; reflexivity).
    pose proof (unpackAll_solid_token_is_awaited servingWorld servingFields 0 Hf) as H.
    assert (key2Obj servingFields !! 0 = Some 2%positive) as Hb
      by (vm_compute; reflexivity).
    rewrite Hb in H. apply H; vm_compute; reflexivity.
  - pose proof (unpackAll_solid_token_is_awaited newWorld newFields 7 eq_refl) as H.
    assert (key2Obj newFields !! 7 = None) as Hb by (vm_compute; reflexivity).
    rewrite Hb in H. apply H. vm_compute. reflexivity.
Defined.

(** A unique symbol that a fresh endpoint has not seen. *)
Lemma fromSymbol_toSymbol_witness :
  ∃ k w1, fromSymbol (SymUnique 1) newWorld = (Ret k, w1)
          ∧ toSymbol k w1 = (Ret (SymUnique 1), w1).
Proof.
  apply (fromSymbol_toSymbol newWorld newFields (SymUnique 1) eq_refl).
  intros k Hk. vm_compute in Hk. discriminate.
Defined.

(** A numeric key that a fresh endpoint has not seen. *)
Lemma toSymbol_fromSymbol_witness :
  ∃ sym w1, toSymbol (MNumber 5) newWorld = (Ret sym, w1)
            ∧ fromSymbol sym w1 = (Ret (MNumber 5), w1).
Proof.
  apply (toSymbol_fromSymbol newWorld newFields (MNumber 5) eq_refl).
  intros n sym _ Hn. vm_compute in Hn. discriminate.
Defined.

(** The [Error] instance of [solidErrorWorld]. *)
Lemma pack_unpack_error_witness :
  pack (VObject 1) false solidErrorWorld
  = (Ret (PError (Some "Error") (Some "boom") None), solidErrorWorld)
  ∧ ∀ w2 : World unit, ∃ e' w3,
      unpack (PError (Some "Error") (Some "boom") None) w2 = (Ret e', w3)
      ∧ errorOf (store w3) e'
        = Some {| ename := Some "Error"; emessage := Some "boom"; estack := None |}
      ∧ this w3 = this w2 ∧ outbox w3 = outbox w2
      ∧ ∀ clone', pack e' clone' w3
                  = (Ret (PError (Some "Error") (Some "boom") None), w3).
Proof.
  apply (pack_unpack_error solidErrorWorld (VObject 1) (Some "Error") "boom" None false).
  vm_compute. reflexivity.
Defined.

(** The handle a fresh endpoint makes for the shadow token 0. *)
Lemma handle_packs_to_its_token_witness :
  ∃ h w1, unpack (PToken shadow 0) newWorld = (Ret h, w1)
          ∧ pack h false w1 = (Ret (PToken shadow 0), w1).
Proof.
  apply (handle_packs_to_its_token newWorld newFields 0 eq_refl).
  - vm_compute. reflexivity.
  - apply not_elem_of_empty.
  - apply not_elem_of_empty.
Defined.

(** Object 1, registered under a token of the endpoint's choice. *)
Lemma registerToken_keeps_token_witness :
  ∃ k w1, registerToken (VObject 1) None objectWorld = (Ret k, w1)
          ∧ ∀ tok', registerToken (VObject 1) tok' w1 = (Ret k, w1).
Proof.
  apply (registerToken_keeps_token objectWorld newFields (VObject 1) None);
    reflexivity.
Defined.

(** The function 1, stored under token 7. *)
Lemma storeLocal_resolveLocal_witness :
  ∃ w1, storeLocal (Some 7) exported objectWorld = (Ret tt, w1)
        ∧ resolveLocal (Some 7) (TyString "function") w1 = (Ret exported, w1).
Proof.
  apply (storeLocal_resolveLocal objectWorld newFields 7 exported);
    try (vm_compute; reflexivity).
  intros r [= <-]. reflexivity.
Defined.

(** Object 1, which the endpoint has not seen, packed twice. *)
Lemma pack_registers_object_witness :
  ∃ w1 f1 p,
    pack (VObject 1) false objectWorld = (Ret (PToken shadow 1), w1)
    ∧ this w1 = Some f1
    ∧ key2Obj f1 !! 1 = Some p
    ∧ resolvedWith w1 p (VObject 1)
    ∧ obj2Key f1 !! 1%positive = Some 1
    ∧ outbox w1 = outbox objectWorld
    ∧ pack (VObject 1) false w1 = (Ret (PToken shadow 1), w1).
Proof.
  apply (pack_registers_object objectWorld newFields (VObject 1) 1 eq_refl eq_refl);
    try (vm_compute; reflexivity); apply not_elem_of_empty.
Defined.

(** Object 1 marked solid, and the handle of [handleWorld] marked solid. *)
Lemma setSolid_then_pack_witness :
  (∃ w1, setSolid (VObject 1) objectWorld = (Ret tt, w1)
         ∧ isSolid (VObject 1) w1 = (Ret true, w1)
         ∧ pack (VObject 1) false w1 = (Ret (PValue (VObject 1)), w1))
  ∧ (∃ w1, setSolid (VFunction 1) handleWorld = (Ret tt, w1)
           ∧ isSolid (VFunction 1) w1 = (Ret true, w1)
           ∧ pack (VFunction 1) false w1 = (Ret (PToken solid 0), w1)).
Proof.
  split.
  - destruct (setSolid_then_pack objectWorld newFields (VObject 1) 1 eq_refl eq_refl)
      as (w1 & H1 & _ & H2 & H3 & _); [vm_compute; reflexivity|].
    exists w1. split; [exact H1|]. split; [exact H2|exact H3].
  - assert (this handleWorld = Some handleFields) as Hf by (vm_compute; reflexivity).
    destruct (setSolid_then_pack handleWorld handleFields (VFunction 1) 1 Hf eq_refl)
      as (w1 & H1 & _ & H2 & H3 & _); [vm_compute; reflexivity|].
    exists w1. split; [exact H1|]. split; [exact H2|].
    assert (cache handleWorld !! 1%positive = Some handleSelf) as Hc
      by (vm_compute; reflexivity).
    rewrite Hc in H3. exact H3.
Defined.

(** Reading [x], and reading under a unique symbol, through the handle of
    [handleWorld]: the symbol goes as the token 2 that [fromSymbol] takes
    for it. *)
Lemma get_trap_posts_prepare_witness :
  (∃ h w',
     WrapperHandler_get handleSelf (KString "x") handleWorld = (Ret (VFunction h), w')
     ∧ outbox w' = [with_into 1 (with_key (MString "x") false
                                   (with_from 0 (message prepare)))]
     ∧ id <$> cache w' !! h = Some 1)
  ∧ (∃ h w',
       WrapperHandler_get handleSelf (KSymbol (SymUnique 1)) handleWorld
       = (Ret (VFunction h), w')
       ∧ outbox w' = [with_into 1 (with_key (MNumber 2) true
                                     (with_from 0 (message prepare)))]
       ∧ id <$> cache w' !! h = Some 1).
Proof.
  assert (this handleWorld = Some handleFields) as Hf by (vm_compute; reflexivity).
  split.
  - assert (targetHas (KString "x") = false) as Hhas by reflexivity.
    destruct (get_trap_posts_prepare handleWorld handleFields handleSelf (KString "x")
                Hf Hhas) as (mk & w1 & h & w' & [-> _] & H1 & H2 & H3).
    exists h, w'. split; [exact H1|]. split; [|exact H3].
    rewrite H2. reflexivity.
  - assert (targetHas (KSymbol (SymUnique 1)) = false) as Hhas by reflexivity.
    destruct (get_trap_posts_prepare handleWorld handleFields handleSelf
                (KSymbol (SymUnique 1)) Hf Hhas)
      as (mk & w1 & h & w' & [Hkey Hsym] & H1 & H2 & H3).
    exists h, w'. split; [exact H1|]. split; [|exact H3].
    assert ((fromSymbol (SymUnique 1)
               (with_this (Some (countedOn handleFields)) handleWorld)).1
            = Ret (MNumber 2)) as Hk by (vm_compute; reflexivity).
    rewrite Hkey in Hk. simpl in Hk. injection Hk as Hk.
    rewrite H2, Hk, Hsym. reflexivity.
Defined.

(** Calling the handle of [handleWorld] with 1 and 2, and instantiating
    it. *)
Lemma call_traps_post_one_request_witness :
  (∃ h w',
     WrapperHandler_apply handleSelf VUndefined [VNumber 1; VNumber 2] handleWorld
     = (Ret (VFunction h), w')
     ∧ outbox w'
       = [with_into 1 (with_args [PRaw (VNumber 1); PRaw (VNumber 2)]
                         (with_thisArg (PRaw VUndefined)
                            (with_from 0 (message apply_))))]
     ∧ id <$> cache w' !! h = Some 1)
  ∧ (∃ h w',
       WrapperHandler_construct handleSelf [VNumber 1; VNumber 2] handleWorld
       = (Ret (VFunction h), w')
       ∧ outbox w'
         = [with_into 1 (with_args [PRaw (VNumber 1); PRaw (VNumber 2)]
                           (with_from 0 (message construct)))]
       ∧ id <$> cache w' !! h = Some 1).
Proof.
  assert (this handleWorld = Some handleFields) as Hf by (vm_compute; reflexivity).
  destruct (call_traps_post_one_request handleWorld handleFields handleSelf VUndefined
              [VNumber 1; VNumber 2] Hf)
    as [(pt & w1 & pa & w2 & h & w' & Ht & Ha & _ & H1 & H2 & H3)
        (pa' & w2' & h' & w'' & Ha' & _ & H1' & H2' & H3')].
  split.
  - exists h, w'. split; [exact H1|]. split; [|exact H3].
    injection Ht as <- <-. injection Ha as <- _.
    rewrite H2. reflexivity.
  - exists h', w''. split; [exact H1'|]. split; [|exact H3'].
    injection Ha' as <- _. rewrite H2'. reflexivity.
Defined.

(** Writing 3 to [x] and deleting [x] through the handle of
    [handleWorld]. *)
Lemma write_traps_post_one_request_witness :
  WrapperHandler_set handleSelf (KString "x") (VNumber 3) handleWorld
  = (Ret (VBoolean true),
     with_outbox [with_value (PRaw (VNumber 3))
                    (with_key (MString "x") false (with_from 0 (message assign)))]
       handleWorld)
  ∧ WrapperHandler_deleteProperty handleSelf (KString "x") handleWorld
    = (Ret (VBoolean true),
       with_outbox [with_key (MString "x") false (with_from 0 (message delete_))]
         handleWorld).
Proof.
  assert (this handleWorld = Some handleFields) as Hf by (vm_compute; reflexivity).
  destruct (write_traps_post_one_request handleWorld handleFields handleSelf
              (KString "x") (VNumber 3) Hf)
    as (mk & w1 & [-> ->] & (packed & w2 & Hp & Hset) & Hdel).
  split.
  - injection Hp as <- <-. exact Hset.
  - exact Hdel.
Defined.

(** [successReply] on [disposedWorld]. *)
Lemma disposed_endpoint_is_silent_witness :
  this (onReceive successReply disposedWorld).2 = None
  ∧ outbox (onReceive successReply disposedWorld).2 = outbox disposedWorld
  ∧ returned (onReceive successReply disposedWorld).1 = false.
Proof.
  assert (this disposedWorld = None) as Hn by (vm_compute; reflexivity).
  destruct (disposed_endpoint_is_silent successReply disposedWorld Hn) as (H1 & H2 & H3).
  split; [exact H1|]. split; [exact H2|]. apply H3. by eexists.
Defined.

(** [dispose] on [handleWorld], twice. *)
Lemma dispose_twice_throws_witness :
  ∃ w1, dispose handleWorld = (Ret tt, w1) ∧ throwsError "TypeError" dispose w1.
Proof.
  assert (this handleWorld = Some handleFields) as Hf by (vm_compute; reflexivity).
  exact (dispose_twice_throws handleWorld handleFields Hf).
Defined.

(** A request sent from [disposedWorld]. *)
Lemma sendAndWait_disposed_rejects_witness :
  ∃ p e w',
    sendAndWait resolveExport disposedWorld = (Ret p, w')
    ∧ promises (store w') !! p = Some (Rejected e)
    ∧ (∃ message, isError w' e "TypeError" message)
    ∧ this w' = None ∧ outbox w' = outbox disposedWorld.
Proof.
  assert (this disposedWorld = None) as Hn by (vm_compute; reflexivity).
  exact (sendAndWait_disposed_rejects resolveExport disposedWorld Hn).
Defined.

(** Awaiting the handle of [handleWorld], four times. *)
Lemma handle_resolution_is_memoised_witness :
  ∃ q w1,
    Proxy_then (VFunction 1) handleWorld = (Ret (VObject q), w1)
    ∧ promises (store w1) !! q = Some Pending
    ∧ outbox w1 = [with_token 1 (with_from 0 (message resolve))]
    ∧ ∃ qs wn,
        repeatM 3 (Proxy_then (VFunction 1)) w1 = (Ret (VObject <$> qs), wn)
        ∧ NoDup (q :: qs) ∧ outbox wn = outbox w1.
Proof.
  assert (this handleWorld = Some handleFields) as Hf by (vm_compute; reflexivity).
  assert (cache handleWorld !! 1%positive = Some handleSelf) as Hc
    by (vm_compute; reflexivity).
  destruct (handle_resolution_is_memoised handleWorld handleFields (VFunction 1) 1
              handleSelf Hf eq_refl Hc) as (p & q & w1 & f1 & H1 & H2 & _ & _ & H3 & _ & H4).
  - apply not_elem_of_empty.
  - reflexivity.
  - exists q, w1. split; [exact H1|]. split; [exact H2|]. split.
    + assert (key2Obj handleFields !! id handleSelf = None) as Hb
        by (vm_compute; reflexivity).
      rewrite Hb in H3. rewrite H3. vm_compute. reflexivity.
    + destruct (H4 (VFunction 1) 1%positive handleSelf 3%nat eq_refl Hc eq_refl)
        as (qs & wn & H5 & H6 & H7 & _).
      { apply not_elem_of_empty. }
      exists qs, wn. split; [exact H5|]. split; [exact H6|exact H7].
Defined.

(** Three tokens at the wrap: [4294967295], [4294967296] and [1]. *)
Lemma tokens_distinct_until_wrap_witness :
  ∃ ts w', aquireTokens 3 wrapWorld = (Ret ts, w')
           ∧ length ts = 3%nat ∧ NoDup ts
           ∧ Forall (λ t, 1 ≤ t ≤ 2 ^ 32) ts
           ∧ ts = [4294967295; 4294967296; 1].
Proof.
  destruct (tokens_distinct_until_wrap wrapWorld wrapFields 3 eq_refl)
    as (ts & w' & Hrun & Hlen & Hnd & Hrange & Hnth).
  - vm_compute. discriminate.
  - exists ts, w'. split; [exact Hrun|]. split; [exact Hlen|].
    split; [exact Hnd|]. split; [exact Hrange|].
    pose proof (Hnth 0%nat ltac:(lia)) as H0.
    pose proof (Hnth 1%nat ltac:(lia)) as H1.
    pose proof (Hnth 2%nat ltac:(lia)) as H2.
    destruct ts as [|a [|b [|c [|d ts]]]]; try discriminate Hlen.
    simpl in H0, H1, H2. injection H0 as ->. injection H1 as ->. injection H2 as ->.
    reflexivity.
Defined.

(** [solid] of the number 3 and of object 1. *)
Lemma makeSolid_clones_plain_value_witness :
  makeSolid (VNumber 3) objectWorld = (Ret (VNumber 3), objectWorld)
  ∧ ∃ w1,
      makeSolid (VObject 1) objectWorld = (Ret (VObject 2), w1)
      ∧ this w1 = Some newFields ∧ outbox w1 = outbox objectWorld
      ∧ cache w1 = cache objectWorld
      ∧ isSolid (VObject 2) w1 = (Ret true, w1)
      ∧ pack (VObject 2) false w1 = (Ret (PValue (VObject 2)), w1).
Proof.
  destruct (makeSolid_clones_plain_value objectWorld newFields (VNumber 3) eq_refl)
    as [Hprim _].
  destruct (makeSolid_clones_plain_value objectWorld newFields (VObject 1) eq_refl)
    as [_ Hobj].
  split; [apply Hprim; reflexivity|].
  apply (Hobj 1%positive (with_nextRef 3 (store objectWorld)) (VObject 2));
    vm_compute; reflexivity.
Defined.

(** [solid] of the handle of [handleWorld]. *)
Lemma makeSolid_handle_witness :
  ∃ w1 f1,
    makeSolid (VFunction 1) handleWorld = (Ret (VFunction 2), w1)
    ∧ this w1 = Some f1
    ∧ cache w1 !! 2%positive = Some handleSelf
    ∧ CbRevoke 2 ∈ disposableCallbacks f1
    ∧ outbox w1 = outbox handleWorld
    ∧ isSolid (VFunction 2) w1 = (Ret true, w1)
    ∧ pack (VFunction 2) false w1 = (Ret (PToken solid 0), w1).
Proof.
  assert (this handleWorld = Some handleFields) as Hf by (vm_compute; reflexivity).
  destruct (makeSolid_handle handleWorld handleFields (VFunction 1) 1 handleSelf Hf eq_refl)
    as [_ Hnew]; [vm_compute; reflexivity|].
  apply Hnew; vm_compute; reflexivity.
Defined.
